(** * videodna: the frame-streaming colour-reduction engine

    A shallow embedding of [internal/dna] (the scanline reducers of
    colors.go, the [Generate] pipeline and [resizeImage]) together with the
    small part of Go's runtime and [image] package the code relies on, and of
    the pure parts of the audio side (the stems, the volume segments, the
    colours of the bars and the audio part's resizeImage). *)

From Stdlib Require Import ZArith List Lia QArith Qround Qabs Qcanon Lqa.
From Stdlib.Strings Require Import Byte Ascii.
From stdpp Require Import base option list gmap strings.

Set Default Proof Using "Type".
Local Open Scope Z_scope.

(** ** Go machine integers *)

Module GoInt.

(** [int] is 64 bits wide on the platforms the tool is built for. *)
Definition max_int : Z := 2 ^ 63 - 1.
Definition min_int : Z := - 2 ^ 63.

(** Two's-complement wrap-around of a mathematical result into [int]. *)
Definition wrap_int (z : Z) : Z := (z + 2 ^ 63) mod 2 ^ 64 - 2 ^ 63.

Definition int_add (a b : Z) : Z := wrap_int (a + b).
Definition int_sub (a b : Z) : Z := wrap_int (a - b).
Definition int_mul (a b : Z) : Z := wrap_int (a * b).
(** Go's [/] on signed integers truncates toward zero. *)
Definition int_quot (a b : Z) : Z := wrap_int (Z.quot a b).

(** Unsigned conversions and arithmetic. *)
Definition to_uint64 (z : Z) : Z := z mod 2 ^ 64.
Definition to_uint32 (z : Z) : Z := z mod 2 ^ 32.
Definition to_uint8 (z : Z) : Z := z mod 2 ^ 8.
Definition u64_add (a b : Z) : Z := to_uint64 (a + b).

(** The runtime never hands out an object larger than this many bytes
    (runtime.maxAlloc, 1 << heapAddrBits with 48 address bits), so the
    length of every byte slice is bounded by it. *)
Definition maxAlloc : Z := 2 ^ 48.

End GoInt.
Export GoInt.

(** ** Outcomes of Go code: a value, a returned [error], or a run-time panic *)

Inductive panic : Type :=
  | IndexOutOfRange
  | SliceBoundsOutOfRange
  | IntegerDivideByZero
  | AllocationTooLarge.

(** The errors [Generate] builds with [fmt.Errorf], one constructor per
    message, in the order they appear in the function. *)
Inductive gen_error : Type :=
  | ErrProbe                (* error returned by video.GetInfo *)
  | ErrInvalidProperties    (* "invalid video properties" *)
  | ErrCreatePipe           (* "failed to create pipe" *)
  | ErrStartFfmpeg          (* "failed to start ffmpeg" *)
  | ErrReadFrame            (* "failed to read frame" *)
  | ErrTimeout              (* "timeout after %d seconds" *)
  | ErrResizeFormat         (* "invalid resize format, use WxH or 'input'" *)
  | ErrResizeWidth          (* "invalid resize width" *)
  | ErrResizeHeight         (* "invalid resize height" *)
  | ErrCreateOutput         (* "failed to create output file" *)
  | ErrEncodePNG.           (* "failed to encode PNG" *)

Inductive res (A : Type) : Type :=
  | Ok (a : A)
  | Error (e : gen_error)
  | Panic (p : panic)
  | OutOfFuel.
Arguments Ok {A} a.
Arguments Error {A} e.
Arguments Panic {A} p.
Arguments OutOfFuel {A}.

#[global] Instance res_ret : MRet res := fun A a => Ok a.
#[global] Instance res_bind : MBind res := fun A B f m =>
  match m with
  | Ok a => f a
  | Error e => Error e
  | Panic p => Panic p
  | OutOfFuel => OutOfFuel
  end.

(** [for i := 0; i < n; i++ { s = body i s }], stopping at the first
    outcome that is not a value. *)
Fixpoint for_from {S : Type} (start : Z) (count : nat)
    (body : Z → S → res S) (s : S) : res S :=
  match count with
  | O => Ok s
  | Datatypes.S count' => s' ← body start s; for_from (start + 1) count' body s'
  end.

Definition for_loop {S : Type} (n : Z) (body : Z → S → res S) (s : S) : res S :=
  for_from 0 (Z.to_nat n) body s.

(** ** Byte slices *)

Definition u8 (b : byte) : Z := Z.of_N (Byte.to_N b).

Definition len (s : list byte) : Z := Z.of_nat (length s).

(** [s[i]]: the byte as an unsigned value, or the bounds-check panic. *)
Definition index (s : list byte) (i : Z) : res Z :=
  if (0 <=? i) && (i <? len s)
  then match s !! Z.to_nat i with
       | Some b => Ok (u8 b)
       | None => Panic IndexOutOfRange
       end
  else Panic IndexOutOfRange.

(** [s[lo:hi]]. *)
Definition slice (s : list byte) (lo hi : Z) : res (list byte) :=
  if (0 <=? lo) && (lo <=? hi) && (hi <=? len s)
  then Ok (take (Z.to_nat (hi - lo)) (drop (Z.to_nat lo) s))
  else Panic SliceBoundsOutOfRange.

(** Every slice the runtime can hand to the reducers. *)
Definition slice_ok (s : list byte) : Prop := len s <= maxAlloc.

(** Unsigned 64-bit division; a zero divisor panics. *)
Definition u64_div (a n : Z) : res Z :=
  if n =? 0 then Panic IntegerDivideByZero else Ok (a / n).

(** ** Scanline reducers (colors.go) *)

(** Package image/color: [color.RGBA], four 8-bit channels. *)
Module color.

Record RGBA : Type := mkRGBA { R : Z; G : Z; B : Z; A : Z }.

#[global] Instance RGBA_eq_dec : EqDecision RGBA.
Proof. solve_decision. Defined.

(** The zero value [color.RGBA{}]. *)
Definition zero : RGBA := mkRGBA 0 0 0 0.

(** Method [RGBA()]: each channel widened to 16 bits, [r |= r << 8]. *)
Definition widen (v : Z) : Z :=
  Z.lor (to_uint32 v) (to_uint32 (Z.shiftl (to_uint32 v) 8)).

Definition RGBA_values (c : RGBA) : Z * Z * Z * Z :=
  (widen (R c), widen (G c), widen (B c), widen (A c)).

End color.
Abbreviation RGBA := color.RGBA.
Abbreviation mkRGBA := color.mkRGBA.

Definition AverageColor (row : list byte) (width : Z) : res RGBA :=
  '(rSum, gSum, bSum) ← for_loop width (fun x '(rSum, gSum, bSum) =>
      let i := int_mul x 3 in
      r ← index row i;
      g ← index row (int_add i 1);
      b ← index row (int_add i 2);
      Ok (u64_add rSum (to_uint64 r), u64_add gSum (to_uint64 g),
          u64_add bSum (to_uint64 b))) (0, 0, 0);
  let n := to_uint64 width in
  r ← u64_div rSum n;
  g ← u64_div gSum n;
  b ← u64_div bSum n;
  Ok (mkRGBA (to_uint8 r) (to_uint8 g) (to_uint8 b) 255).

Definition MinColor (row : list byte) (width : Z) : res RGBA :=
  '(rMin, gMin, bMin) ← for_loop width (fun x '(rMin, gMin, bMin) =>
      let i := int_mul x 3 in
      r ← index row i;
      let rMin := if r <? rMin then r else rMin in
      g ← index row (int_add i 1);
      let gMin := if g <? gMin then g else gMin in
      b ← index row (int_add i 2);
      let bMin := if b <? bMin then b else bMin in
      Ok (rMin, gMin, bMin)) (255, 255, 255);
  Ok (mkRGBA rMin gMin bMin 255).

Definition MaxColor (row : list byte) (width : Z) : res RGBA :=
  '(rMax, gMax, bMax) ← for_loop width (fun x '(rMax, gMax, bMax) =>
      let i := int_mul x 3 in
      r ← index row i;
      let rMax := if r >? rMax then r else rMax in
      g ← index row (int_add i 1);
      let gMax := if g >? gMax then g else gMax in
      b ← index row (int_add i 2);
      let bMax := if b >? bMax then b else bMax in
      Ok (rMax, gMax, bMax)) (0, 0, 0);
  Ok (mkRGBA rMax gMax bMax 255).

(** The second loop of MostCommonColor, over the entries of the map in the
    order [range] yields them: an entry replaces the running maximum only
    when its count is strictly higher. *)
Definition scan_step (acc : Z * Z) (entry : Z * Z) : Z * Z :=
  let '(maxCount, mostCommon) := acc in
  let '(col, count) := entry in
  if count >? maxCount then (count, col) else (maxCount, mostCommon).

Definition most_common_scan (entries : list (Z * Z)) : Z * Z :=
  fold_left scan_step entries (0, 0).

(** [uint32(r)<<16 | uint32(g)<<8 | uint32(b)] *)
Definition pack (r g b : Z) : Z :=
  Z.lor (Z.lor (to_uint32 (Z.shiftl (to_uint32 r) 16))
               (to_uint32 (Z.shiftl (to_uint32 g) 8)))
        (to_uint32 b).

Definition unpack (mostCommon : Z) : RGBA :=
  mkRGBA (to_uint8 (Z.land (Z.shiftr mostCommon 16) 255))
         (to_uint8 (Z.land (Z.shiftr mostCommon 8) 255))
         (to_uint8 (Z.land mostCommon 255))
         255.

(** [colorCount[packed]++] on a [map[uint32]int]. *)
Definition incr (packed : Z) (colorCount : gmap Z Z) : gmap Z Z :=
  <[packed := int_add (default 0 (colorCount !! packed)) 1]> colorCount.

Section RangeOrder.

(** Go leaves the order in which [range] visits a map unspecified.
    [range_order m] is the order in which the entries of [m] are visited;
    the only thing known about it is [range_order_valid]. *)
Variable range_order : gmap Z Z → list (Z * Z).

Definition MostCommonColor (row : list byte) (width : Z) : res RGBA :=
  colorCount ← for_loop width (fun x colorCount =>
      let i := int_mul x 3 in
      r ← index row i;
      g ← index row (int_add i 1);
      b ← index row (int_add i 2);
      Ok (incr (pack r g b) colorCount)) (∅ : gmap Z Z);
  let '(maxCount, mostCommon) := most_common_scan (range_order colorCount) in
  Ok (unpack mostCommon).

Definition MostCommonColorCol (buf : list byte) (col width height : Z) : res RGBA :=
  colorCount ← for_loop height (fun y colorCount =>
      let i := int_mul (int_add (int_mul y width) col) 3 in
      r ← index buf i;
      g ← index buf (int_add i 1);
      b ← index buf (int_add i 2);
      Ok (incr (pack r g b) colorCount)) (∅ : gmap Z Z);
  let '(maxCount, mostCommon) := most_common_scan (range_order colorCount) in
  Ok (unpack mostCommon).

End RangeOrder.

(** What Go guarantees of an iteration order: every entry of the map is
    visited exactly once. *)
Definition range_order_valid (range_order : gmap Z Z → list (Z * Z)) : Prop :=
  ∀ m, range_order m ≡ₚ map_to_list m.

Definition AverageColorCol (buf : list byte) (col width height : Z) : res RGBA :=
  '(rSum, gSum, bSum) ← for_loop height (fun y '(rSum, gSum, bSum) =>
      let i := int_mul (int_add (int_mul y width) col) 3 in
      r ← index buf i;
      g ← index buf (int_add i 1);
      b ← index buf (int_add i 2);
      Ok (u64_add rSum (to_uint64 r), u64_add gSum (to_uint64 g),
          u64_add bSum (to_uint64 b))) (0, 0, 0);
  let n := to_uint64 height in
  r ← u64_div rSum n;
  g ← u64_div gSum n;
  b ← u64_div bSum n;
  Ok (mkRGBA (to_uint8 r) (to_uint8 g) (to_uint8 b) 255).

Definition MinColorCol (buf : list byte) (col width height : Z) : res RGBA :=
  '(rMin, gMin, bMin) ← for_loop height (fun y '(rMin, gMin, bMin) =>
      let i := int_mul (int_add (int_mul y width) col) 3 in
      r ← index buf i;
      let rMin := if r <? rMin then r else rMin in
      g ← index buf (int_add i 1);
      let gMin := if g <? gMin then g else gMin in
      b ← index buf (int_add i 2);
      let bMin := if b <? bMin then b else bMin in
      Ok (rMin, gMin, bMin)) (255, 255, 255);
  Ok (mkRGBA rMin gMin bMin 255).

Definition MaxColorCol (buf : list byte) (col width height : Z) : res RGBA :=
  '(rMax, gMax, bMax) ← for_loop height (fun y '(rMax, gMax, bMax) =>
      let i := int_mul (int_add (int_mul y width) col) 3 in
      r ← index buf i;
      let rMax := if r >? rMax then r else rMax in
      g ← index buf (int_add i 1);
      let gMax := if g >? gMax then g else gMax in
      b ← index buf (int_add i 2);
      let bMax := if b >? bMax then b else bMax in
      Ok (rMax, gMax, bMax)) (0, 0, 0);
  Ok (mkRGBA rMax gMax bMax 255).

(** ** Package image: rectangles and RGBA images

    The part of Go's [image] package the pipeline calls.  The pixel store of
    an [image.RGBA] is kept as a finite map from coordinates to colours (an
    absent entry is the zero colour of a fresh buffer); a sub-image shares the
    store of its parent and differs in its bounds only. *)
Module image.

Record Point : Type := Pt { X : Z; Y : Z }.
Record Rectangle : Type := mkRectangle { Min : Point; Max : Point }.

Definition ZR : Rectangle := mkRectangle (Pt 0 0) (Pt 0 0).

(** [image.Rect]: the corners are put in order. *)
Definition Rect (x0 y0 x1 y1 : Z) : Rectangle :=
  let '(x0, x1) := if x0 >? x1 then (x1, x0) else (x0, x1) in
  let '(y0, y1) := if y0 >? y1 then (y1, y0) else (y0, y1) in
  mkRectangle (Pt x0 y0) (Pt x1 y1).

Definition Dx (r : Rectangle) : Z := int_sub (X (Max r)) (X (Min r)).
Definition Dy (r : Rectangle) : Z := int_sub (Y (Max r)) (Y (Min r)).

Definition Empty (r : Rectangle) : bool :=
  (X (Min r) >=? X (Max r)) || (Y (Min r) >=? Y (Max r)).

Definition Intersect (r s : Rectangle) : Rectangle :=
  let minX := if X (Min r) <? X (Min s) then X (Min s) else X (Min r) in
  let minY := if Y (Min r) <? Y (Min s) then Y (Min s) else Y (Min r) in
  let maxX := if X (Max r) >? X (Max s) then X (Max s) else X (Max r) in
  let maxY := if Y (Max r) >? Y (Max s) then Y (Max s) else Y (Max r) in
  let r := mkRectangle (Pt minX minY) (Pt maxX maxY) in
  if Empty r then ZR else r.

(** [Point{x, y}.In(r)] *)
Definition In (x y : Z) (r : Rectangle) : bool :=
  (X (Min r) <=? x) && (x <? X (Max r)) && (Y (Min r) <=? y) && (y <? Y (Max r)).

Record RGBA : Type := mkImage { Bounds : Rectangle; Pix : gmap (Z * Z) color.RGBA }.

(** [image.NewRGBA] panics on huge or negative dimensions, and the
    allocation of the 4-bytes-per-pixel buffer is limited by [maxAlloc]. *)
Definition NewRGBA (r : Rectangle) : res RGBA :=
  let w := Dx r in
  let h := Dy r in
  if (w <? 0) || (h <? 0) || (4 * w * h >? maxAlloc)
  then Panic AllocationTooLarge
  else Ok (mkImage r ∅).

(** Reads outside the bounds give the zero colour. *)
Definition At (p : RGBA) (x y : Z) : color.RGBA :=
  if In x y (Bounds p) then default color.zero (Pix p !! (x, y)) else color.zero.

(** Writes outside the bounds are dropped without any report. *)
Definition Set_ (p : RGBA) (x y : Z) (c : color.RGBA) : RGBA :=
  if In x y (Bounds p) then mkImage (Bounds p) (<[(x, y) := c]> (Pix p)) else p.

Definition SubImage (p : RGBA) (r : Rectangle) : RGBA :=
  let r := Intersect r (Bounds p) in
  if Empty r then mkImage ZR ∅ else mkImage r (Pix p).

End image.

(** ** float64

    The float64 values of [resizeImage], as exact rationals kept in lowest
    terms.  Every operation computes the exact result and rounds it to 53
    significant bits, ties to even, each operation on its own (where the
    compiler fuses a product and a sum into one rounding, the two agree
    whenever both roundings are exact).  Infinities, NaN and subnormal
    numbers are left out: in [resizeImage] every operand is an integer
    below 2^63 or a quotient or fraction of such, and no division is
    executed with a zero divisor (the loop bodies run for positive target
    sizes only). *)
Module float64.

Definition pow2 (k : Z) : Q :=
  if 0 <=? k then inject_Z (2 ^ k) else Qmake 1 (Z.to_pos (2 ^ (- k))).

(** floor (log2 q) for positive [q]. *)
Definition ilog2 (q : Q) : Z :=
  let e := Z.log2 (Qnum q) - Z.log2 (Zpos (Qden q)) in
  if Qle_bool (pow2 e) q then e else e - 1.

Definition round_half_even (q : Q) : Z :=
  let f := Qfloor q in
  match Qcompare (q - inject_Z f) (1 # 2) with
  | Lt => f
  | Gt => f + 1
  | Eq => if Z.even f then f else f + 1
  end.

Definition round (q : Q) : Q :=
  let q := Qred q in
  if Qeq_bool q 0 then 0%Q
  else
    let a := Qabs q in
    let ulp := pow2 (ilog2 a - 52) in
    let m := inject_Z (round_half_even (a / ulp)) in
    Qred (if Qle_bool 0 q then m * ulp else - (m * ulp)).

Definition of_int (z : Z) : Q := round (inject_Z z).
Definition add (a b : Q) : Q := round (a + b).
Definition sub (a b : Q) : Q := round (a - b).
Definition mul (a b : Q) : Q := round (a * b).
Definition div (a b : Q) : Q := round (a / b).

(** Conversion to an integer type drops the fraction (toward zero). *)
Definition trunc (a : Q) : Z := Z.quot (Qnum a) (Zpos (Qden a)).

End float64.

(** ** resizeImage and bilinear (colors.go) *)

Definition bilinear (v00 v10 v01 v11 : Z) (xFrac yFrac : Q) : Z :=
  let v0 := float64.add (float64.mul (float64.of_int v00) (float64.sub 1 xFrac))
                        (float64.mul (float64.of_int v10) xFrac) in
  let v1 := float64.add (float64.mul (float64.of_int v01) (float64.sub 1 xFrac))
                        (float64.mul (float64.of_int v11) xFrac) in
  to_uint32 (float64.trunc
    (float64.add (float64.mul v0 (float64.sub 1 yFrac)) (float64.mul v1 yFrac))).

(** The body of the two nested loops: the colour stored at [(x, y)]. *)
Definition resizePixel (src : image.RGBA) (targetW targetH x y : Z) : RGBA :=
  let bounds := image.Bounds src in
  let srcW := image.Dx bounds in
  let srcH := image.Dy bounds in
  let srcX := float64.div (float64.mul (float64.of_int x) (float64.of_int srcW))
                          (float64.of_int targetW) in
  let srcY := float64.div (float64.mul (float64.of_int y) (float64.of_int srcH))
                          (float64.of_int targetH) in
  let x0 := wrap_int (float64.trunc srcX) in
  let y0 := wrap_int (float64.trunc srcY) in
  let x1 := int_add x0 1 in
  let y1 := int_add y0 1 in
  let x1 := if x1 >=? srcW then int_sub srcW 1 else x1 in
  let y1 := if y1 >=? srcH then int_sub srcH 1 else y1 in
  let xFrac := float64.sub srcX (float64.of_int x0) in
  let yFrac := float64.sub srcY (float64.of_int y0) in
  let minX := image.X (image.Min bounds) in
  let minY := image.Y (image.Min bounds) in
  let '(r00, g00, b00, _) :=
    color.RGBA_values (image.At src (int_add minX x0) (int_add minY y0)) in
  let '(r10, g10, b10, _) :=
    color.RGBA_values (image.At src (int_add minX x1) (int_add minY y0)) in
  let '(r01, g01, b01, _) :=
    color.RGBA_values (image.At src (int_add minX x0) (int_add minY y1)) in
  let '(r11, g11, b11, _) :=
    color.RGBA_values (image.At src (int_add minX x1) (int_add minY y1)) in
  let r := bilinear r00 r10 r01 r11 xFrac yFrac in
  let g := bilinear g00 g10 g01 g11 xFrac yFrac in
  let b := bilinear b00 b10 b01 b11 xFrac yFrac in
  mkRGBA (to_uint8 (Z.shiftr r 8)) (to_uint8 (Z.shiftr g 8))
         (to_uint8 (Z.shiftr b 8)) 255.

Definition resizeImage (src : image.RGBA) (targetW targetH : Z) : res image.RGBA :=
  dst ← image.NewRGBA (image.Rect 0 0 targetW targetH);
  for_loop targetH (fun y dst =>
    for_loop targetW (fun x dst =>
      Ok (image.Set_ dst x y (resizePixel src targetW targetH x y))) dst) dst.

(** ** The pipeline: Generate (colors.go) *)

(** How the decoder's pipe behaves once its bytes are used up: a clean end
    of file, or a read error. *)
Inductive pipe_end : Type := EndOfFile | ReadFailure.

(** The collaborators of one run: the probe, the decoder process and its
    standard output, and the output file. *)
Record Env : Type := mkEnv {
  info : option (Z * Z * Z);   (* video.GetInfo: width, height, frameCount *)
  pipe_ok : bool;              (* cmd.StdoutPipe succeeds *)
  start_ok : bool;             (* cmd.Start succeeds *)
  stdout : list byte;          (* the raw rgb24 bytes the decoder writes *)
  stdout_end : pipe_end;
  wait_err : bool;             (* cmd.Wait returns an error *)
  deadline_exceeded : bool;    (* ctx.Err() == context.DeadlineExceeded *)
  create_ok : bool;            (* os.Create succeeds *)
  encode_ok : bool             (* the writes of png.Encode succeed *)
}.

(** The [resize] argument after [strings.Split] and [strconv.Atoi]. *)
Inductive resize_arg : Type :=
  | ResizeNone                      (* the empty string *)
  | ResizeInput                     (* "input" *)
  | ResizeTo (targetW targetH : Z)  (* "WxH" *)
  | ResizeInvalid (e : gen_error).

(** io.ReadFull on the buffered pipe. *)
Inductive read_result : Type :=
  | ReadFrame (frameBuf rest : list byte)
  | ReadEOF                (* io.EOF: no byte was read *)
  | ReadUnexpectedEOF      (* io.ErrUnexpectedEOF: some, but not all *)
  | ReadError.

Definition ReadFull (stream : list byte) (ending : pipe_end) (n : Z) : read_result :=
  if n <=? len stream
  then ReadFrame (take (Z.to_nat n) stream) (drop (Z.to_nat n) stream)
  else match ending with
       | ReadFailure => ReadError
       | EndOfFile => if len stream =? 0 then ReadEOF else ReadUnexpectedEOF
       end.

(** [make([]byte, n)] *)
Definition make_bytes (n : Z) : res unit :=
  if (n <? 0) || (n >? maxAlloc) then Panic AllocationTooLarge else Ok ().

(** [maxFrames := frameCount + frameCount/10 + 10] *)
Definition maxFrames (frameCount : Z) : Z :=
  int_add (int_add frameCount (int_quot frameCount 10)) 10.

(** LegendConfig configures the top legend bar. *)
Record LegendConfig : Type := mkLegendConfig {
  Enabled : bool;
  Height : Z;
  Name : string
}.

(** addBorderLines copies the image to the origin and draws a grey line
    over its first and its last row. *)
Definition addBorderLines (src : image.RGBA) : res image.RGBA :=
  let bounds := image.Bounds src in
  let w := image.Dx bounds in
  let h := image.Dy bounds in
  dst ← image.NewRGBA (image.Rect 0 0 w h);
  dst ← for_loop h (fun y dst =>
    for_loop w (fun x dst =>
      Ok (image.Set_ dst x y
            (image.At src (int_add (image.X (image.Min bounds)) x)
                          (int_add (image.Y (image.Min bounds)) y)))) dst) dst;
  let borderColor := mkRGBA 80 80 80 255 in
  for_loop w (fun x dst =>
    let dst := image.Set_ dst x 0 borderColor in
    Ok (image.Set_ dst x (int_sub h 1) borderColor)) dst.

Section Generate.

Variable range_order : gmap Z Z → list (Z * Z).

(** The [switch mode] of the two branches of the frame loop. *)
Definition switch_mode_col (mode : string) (frameBuf : list byte)
    (x width height : Z) : res RGBA :=
  if decide (mode = "average"%string) then AverageColorCol frameBuf x width height
  else if decide (mode = "min"%string) then MinColorCol frameBuf x width height
  else if decide (mode = "max"%string) then MaxColorCol frameBuf x width height
  else MostCommonColorCol range_order frameBuf x width height.

Definition switch_mode_row (mode : string) (row : list byte) (width : Z) : res RGBA :=
  if decide (mode = "average"%string) then AverageColor row width
  else if decide (mode = "min"%string) then MinColor row width
  else if decide (mode = "max"%string) then MaxColor row width
  else MostCommonColor range_order row width.

(** One pass of the loop body after a full read: a line of the canvas. *)
Definition process_frame (mode : string) (vertical : bool) (width height : Z)
    (frameBuf : list byte) (frameIdx : Z) (dnaImage : image.RGBA) : res image.RGBA :=
  if vertical then
    for_loop width (fun x dnaImage =>
      c ← switch_mode_col mode frameBuf x width height;
      Ok (image.Set_ dnaImage x frameIdx c)) dnaImage
  else
    for_loop height (fun y dnaImage =>
      let rowStart := int_mul (int_mul y width) 3 in
      row ← slice frameBuf rowStart (int_add rowStart (int_mul width 3));
      c ← switch_mode_row mode row width;
      Ok (image.Set_ dnaImage frameIdx y c)) dnaImage.

(** [for { ... }] around io.ReadFull.  Both io.EOF and io.ErrUnexpectedEOF
    leave the loop by [break]; any other read error is returned.  The
    progress line printed every 100 frames has no effect on the state. *)
Fixpoint frame_loop (fuel : nat) (mode : string) (vertical : bool)
    (width height frameSize : Z) (ending : pipe_end)
    (stream : list byte) (dnaImage : image.RGBA) (frameIdx : Z)
    : res (image.RGBA * Z) :=
  match fuel with
  | O => OutOfFuel
  | Datatypes.S fuel' =>
      match ReadFull stream ending frameSize with
      | ReadFrame frameBuf rest =>
          dnaImage' ← process_frame mode vertical width height frameBuf frameIdx dnaImage;
          frame_loop fuel' mode vertical width height frameSize ending
                     rest dnaImage' (int_add frameIdx 1)
      | ReadEOF | ReadUnexpectedEOF => Ok (dnaImage, frameIdx)
      | ReadError => Error ErrReadFrame
      end
  end.

(** From the probe to the cropped canvas: lines 175-293 of [Generate],
    which are lines 424-544 of [GenerateWithLegend] word for word. *)
Definition finalImage (env : Env) (mode : string) (vertical : bool) (fuel : nat)
    : res (image.RGBA * (Z * Z)) :=
  match info env with
  | None => Error ErrProbe
  | Some (width, height, frameCount) =>
      if (frameCount =? 0) || (height =? 0) then Error ErrInvalidProperties
      else if negb (pipe_ok env) then Error ErrCreatePipe
      else if negb (start_ok env) then Error ErrStartFfmpeg
      else
        let maxFrames := maxFrames frameCount in
        dnaImage ← (if vertical
                    then image.NewRGBA (image.Rect 0 0 width maxFrames)
                    else image.NewRGBA (image.Rect 0 0 maxFrames height));
        let frameSize := int_mul (int_mul width height) 3 in
        _ ← make_bytes frameSize;
        '(dnaImage, frameIdx) ← frame_loop fuel mode vertical width height frameSize
                                   (stdout_end env) (stdout env) dnaImage 0;
        if wait_err env && deadline_exceeded env then Error ErrTimeout
        else
          Ok (if vertical
              then image.SubImage dnaImage (image.Rect 0 0 width frameIdx)
              else image.SubImage dnaImage (image.Rect 0 0 frameIdx height),
              (width, height))
  end.

(** [// Handle resize] *)
Definition handle_resize (resize : resize_arg) (width height : Z)
    (finalImage : image.RGBA) : res image.RGBA :=
  match resize with
  | ResizeNone => Ok finalImage
  | ResizeInput => resizeImage finalImage width height
  | ResizeTo targetW targetH => resizeImage finalImage targetW targetH
  | ResizeInvalid e => Error e
  end.

(** os.Create and png.Encode; the image handed to the encoder is the
    result of the run.  png.Encode refuses an image whose width or height is
    not from 1 to 2^32 - 1 ("invalid image size") before it writes a byte;
    [encode_ok] stands for the writes to the file after that. *)
Definition write_png (env : Env) (img : image.RGBA) : res image.RGBA :=
  if negb (create_ok env) then Error ErrCreateOutput
  else
    let mw := image.Dx (image.Bounds img) in
    let mh := image.Dy (image.Bounds img) in
    if (mw <=? 0) || (mh <=? 0) || (mw >=? 2 ^ 32) || (mh >=? 2 ^ 32)
    then Error ErrEncodePNG
    else if negb (encode_ok env) then Error ErrEncodePNG
    else Ok img.

(** [Generate] of the first version of the file (lines 174-328). *)
Definition Generate (env : Env) (mode : string) (vertical : bool)
    (resize : resize_arg) (fuel : nat) : res image.RGBA :=
  '(img, (width, height)) ← finalImage env mode vertical fuel;
  img ← handle_resize resize width height img;
  write_png env img.

(** [addLegend] (lines 675-738) draws a band of [legendHeight] lines with
    the text of the legend above the image, with [drawText] and the bitmap
    font; the pipeline uses it as a function from images to images. *)
Variable addLegend : image.RGBA → Z → string → image.RGBA.

(** [GenerateWithLegend] (lines 423-595): the same run, then the border
    lines, then the legend when it is enabled.  [base_name] is the name of
    the input file without directory and extension. *)
Definition GenerateWithLegend (env : Env) (base_name : string) (mode : string)
    (vertical : bool) (resize : resize_arg) (legend : LegendConfig) (fuel : nat)
    : res image.RGBA :=
  '(img, (width, height)) ← finalImage env mode vertical fuel;
  img ← handle_resize resize width height img;
  img ← addBorderLines img;
  let img :=
    if Enabled legend then
      let legendHeight := if Height legend =? 0 then 24 else Height legend in
      let name := if decide (Name legend = EmptyString) then base_name else Name legend in
      addLegend img legendHeight name
    else img in
  write_png env img.

End Generate.

(** ** Notions the statements are written in *)

(** The byte at offset [i], read as an unsigned value (0 past the end). *)
Definition byte_at (s : list byte) (i : Z) : Z :=
  if i <? 0 then 0 else from_option u8 0 (s !! Z.to_nat i).

(** Channel [c] (0 = R, 1 = G, 2 = B) of the [n] pixels found at the byte
    offsets [off 0], ..., [off (n-1)]. *)
Definition samples (buf : list byte) (off : Z → Z) (n c : Z) : list Z :=
  (λ k, byte_at buf (off k + c)) <$> seqZ 0 n.

(** Pixel [x] of a row starts at byte [x*3]. *)
Definition row_offset (x : Z) : Z := x * 3.
(** Pixel [y] of column [col] starts at byte [(y*width + col)*3]. *)
Definition col_offset (width col y : Z) : Z := (y * width + col) * 3.

Definition row_channel (row : list byte) (width c : Z) : list Z :=
  samples row row_offset width c.
Definition col_channel (buf : list byte) (col width height c : Z) : list Z :=
  samples buf (col_offset width col) height c.

Definition sumZ (l : list Z) : Z := foldr Z.add 0 l.

(** Arithmetic mean, the quotient truncated toward zero. *)
Definition mean (l : list Z) : Z := Z.quot (sumZ l) (Z.of_nat (length l)).

Definition minimum (l : list Z) : Z :=
  match l with [] => 0 | v :: l' => foldr Z.min v l' end.
Definition maximum (l : list Z) : Z :=
  match l with [] => 0 | v :: l' => foldr Z.max v l' end.

Definition byte_of (z : Z) : byte :=
  default x00 (Byte.of_N (Z.to_N z)).
Definition bytes_of (l : list Z) : list byte := byte_of <$> l.

(** The loop bodies of the reducers, as functions of the byte offset [i] of
    the pixel; the row and the column variant of a reducer differ in the
    offset only. *)
Definition sum_step (buf : list byte) (i : Z) (acc : Z * Z * Z) : res (Z * Z * Z) :=
  let '(rSum, gSum, bSum) := acc in
  r ← index buf i;
  g ← index buf (int_add i 1);
  b ← index buf (int_add i 2);
  Ok (u64_add rSum (to_uint64 r), u64_add gSum (to_uint64 g),
      u64_add bSum (to_uint64 b)).

Definition sum_finish (n : Z) (acc : Z * Z * Z) : res RGBA :=
  let '(rSum, gSum, bSum) := acc in
  r ← u64_div rSum n;
  g ← u64_div gSum n;
  b ← u64_div bSum n;
  Ok (mkRGBA (to_uint8 r) (to_uint8 g) (to_uint8 b) 255).

Definition min_step (buf : list byte) (i : Z) (acc : Z * Z * Z) : res (Z * Z * Z) :=
  let '(rMin, gMin, bMin) := acc in
  r ← index buf i;
  let rMin := if r <? rMin then r else rMin in
  g ← index buf (int_add i 1);
  let gMin := if g <? gMin then g else gMin in
  b ← index buf (int_add i 2);
  let bMin := if b <? bMin then b else bMin in
  Ok (rMin, gMin, bMin).

Definition max_step (buf : list byte) (i : Z) (acc : Z * Z * Z) : res (Z * Z * Z) :=
  let '(rMax, gMax, bMax) := acc in
  r ← index buf i;
  let rMax := if r >? rMax then r else rMax in
  g ← index buf (int_add i 1);
  let gMax := if g >? gMax then g else gMax in
  b ← index buf (int_add i 2);
  let bMax := if b >? bMax then b else bMax in
  Ok (rMax, gMax, bMax).

Definition count_step (buf : list byte) (i : Z) (colorCount : gmap Z Z) : res (gmap Z Z) :=
  r ← index buf i;
  g ← index buf (int_add i 1);
  b ← index buf (int_add i 2);
  Ok (incr (pack r g b) colorCount).

Definition rgb_finish (acc : Z * Z * Z) : res RGBA :=
  let '(r, g, b) := acc in Ok (mkRGBA r g b 255).

(** The offsets as the code computes them, in [int] arithmetic. *)
Definition row_off (x : Z) : Z := int_mul x 3.
Definition col_off (width col y : Z) : Z := int_mul (int_add (int_mul y width) col) 3.

(** The packed key of the pixel at byte offset [i], and the keys of the [n]
    pixels at the offsets [off 0 .. off (n-1)]. *)
Definition packed_at (buf : list byte) (i : Z) : Z :=
  pack (byte_at buf (i + 0)) (byte_at buf (i + 1)) (byte_at buf (i + 2)).

Definition packed_pixels (buf : list byte) (off : Z → Z) (n : Z) : list Z :=
  (λ k, packed_at buf (off k)) <$> seqZ 0 n.

(** How many of the keys in [l] equal [key]. *)
Definition occurrences (key : Z) (l : list Z) : Z :=
  Z.of_nat (length (filter (λ v, v = key) l)).

(** The same run on another decoder output. *)
Definition with_stdout (env : Env) (bytes : list byte) : Env :=
  mkEnv (info env) (pipe_ok env) (start_ok env) bytes (stdout_end env)
        (wait_err env) (deadline_exceeded env) (create_ok env) (encode_ok env).

(** The first [count] frames of [stream], processed in turn: what [count]
    passes of the frame loop do to the canvas when every read is full. *)
Fixpoint process_frames (range_order : gmap Z Z → list (Z * Z)) (mode : string)
    (vertical : bool) (width height frameSize : Z) (count : nat)
    (stream : list byte) (frameIdx : Z) (dnaImage : image.RGBA) : res image.RGBA :=
  match count with
  | O => Ok dnaImage
  | Datatypes.S count' =>
      dnaImage' ← process_frame range_order mode vertical width height
                    (take (Z.to_nat frameSize) stream) frameIdx dnaImage;
      process_frames range_order mode vertical width height frameSize count'
                     (drop (Z.to_nat frameSize) stream) (int_add frameIdx 1) dnaImage'
  end.

(** The rectangle of the canvas and the two buffers of a run can be allocated. *)
Definition fits (width height frameCount : Z) (vertical : bool) : Prop :=
  width * height * 3 ≤ maxAlloc ∧
  4 * (if vertical then width else height) * maxFrames frameCount ≤ maxAlloc.

(** The assumptions on a run that the statements about streaming share: the
    probe reports a geometry of at least one pixel each way and a non-zero
    frame count, the decoder starts, the canvas has room for at least one
    line and the buffers can be allocated, and the decoder's output ends
    with a clean end of file within the deadline. *)
Record valid_run (env : Env) (vertical : bool) (width height frameCount : Z) : Prop :=
  mk_valid_run {
    run_probed : info env = Some (width, height, frameCount);
    run_frames_nonzero : frameCount ≠ 0;
    run_started : pipe_ok env = true ∧ start_ok env = true;
    run_width_pos : 1 ≤ width;
    run_height_pos : 1 ≤ height;
    run_capacity_pos : 1 ≤ maxFrames frameCount;
    run_fits : fits width height frameCount vertical;
    run_clean_end : stdout_end env = EndOfFile;
    run_in_time : wait_err env && deadline_exceeded env = false
  }.

(** An environment in which everything but the stream is as it should be. *)
Definition env_of (width height frameCount : Z) (bytes : list byte) : Env :=
  mkEnv (Some (width, height, frameCount)) true true bytes EndOfFile false false true true.

(** [ceil(estimatedFrameCount * 1.1) + 10], the capacity as the
    specification words it, with 1.1 the exact ratio 11/10. *)
Definition ceil_capacity (estimatedFrameCount : Z) : Z :=
  Qceiling (inject_Z estimatedFrameCount * (11 # 10)) + 10.

(** [floor(estimatedFrameCount * 1.1) + 10]. *)
Definition floor_capacity (estimatedFrameCount : Z) : Z :=
  Qfloor (inject_Z estimatedFrameCount * (11 # 10)) + 10.

(** What the types of Go guarantee of an [image.RGBA] value: the channels
    are 8 bits wide, the corners of the bounds are [int]s in order, and the
    pixel buffer, 4 bytes per pixel, is within what the runtime allocates. *)
Definition channels_8bit (c : RGBA) : Prop :=
  0 ≤ color.R c ≤ 255 ∧ 0 ≤ color.G c ≤ 255 ∧ 0 ≤ color.B c ≤ 255 ∧ 0 ≤ color.A c ≤ 255.

Definition image_width (p : image.RGBA) : Z :=
  image.X (image.Max (image.Bounds p)) - image.X (image.Min (image.Bounds p)).
Definition image_height (p : image.RGBA) : Z :=
  image.Y (image.Max (image.Bounds p)) - image.Y (image.Min (image.Bounds p)).

Record well_formed (p : image.RGBA) : Prop := mk_well_formed {
  wf_min_x : min_int ≤ image.X (image.Min (image.Bounds p));
  wf_max_x : image.X (image.Max (image.Bounds p)) ≤ max_int;
  wf_min_y : min_int ≤ image.Y (image.Min (image.Bounds p));
  wf_max_y : image.Y (image.Max (image.Bounds p)) ≤ max_int;
  wf_width : 0 ≤ image_width p;
  wf_height : 0 ≤ image_height p;
  wf_alloc : 4 * image_width p * image_height p ≤ maxAlloc;
  wf_pixels : map_Forall (λ _ c, channels_8bit c) (image.Pix p)
}.

(** The largest side for which the products [x * srcW] and [y * srcH] of
    resizeImage are below 2^53, where float64 holds every integer. *)
Definition exact_side : Z := 2 ^ 26.

(** A red and a blue pixel side by side. *)
Definition two_pixels : image.RGBA :=
  image.mkImage (image.Rect 0 0 2 1)
    (<[(0, 0) := mkRGBA 255 0 0 255]> (<[(1, 0) := mkRGBA 0 0 255 255]> ∅)).

(** The canvas line [frameIdx] lies outside the bounds of the image. *)
Definition line_outside (vertical : bool) (img : image.RGBA) (frameIdx : Z) : Prop :=
  if vertical then image.Y (image.Max (image.Bounds img)) ≤ frameIdx
  else image.X (image.Max (image.Bounds img)) ≤ frameIdx.

(** The rectangle of the canvas. *)
Definition canvas_rect (vertical : bool) (width height frameCount : Z) : image.Rectangle :=
  if vertical then image.Rect 0 0 width (maxFrames frameCount)
  else image.Rect 0 0 (maxFrames frameCount) height.

(** The rectangle the canvas is cropped to after [frameIdx] frames. *)
Definition crop_rect (vertical : bool) (width height frameIdx : Z) : image.Rectangle :=
  if vertical then image.Rect 0 0 width frameIdx else image.Rect 0 0 frameIdx height.

(** Frame [i] of the bytes the decoder writes, and row [y] of a frame. *)
Definition frame_of (stream : list byte) (frameSize i : Z) : list byte :=
  take (Z.to_nat frameSize) (drop (Z.to_nat (i * frameSize)) stream).

Definition row_of (frameBuf : list byte) (width y : Z) : list byte :=
  take (Z.to_nat (width * 3)) (drop (Z.to_nat (y * width * 3)) frameBuf).

(** The colour the mode gives position [k] of the line of a frame: the
    reduction of column [k] when vertical, of row [k] otherwise. *)
Definition line_color (range_order : gmap Z Z → list (Z * Z)) (mode : string)
    (vertical : bool) (width height : Z) (frameBuf : list byte) (k : Z) : res RGBA :=
  if vertical then switch_mode_col range_order mode frameBuf k width height
  else switch_mode_row range_order mode (row_of frameBuf width k) width.

(** Position [k] of line [i] of an image: lines are rows when vertical and
    columns otherwise. *)
Definition line_pixel (vertical : bool) (img : image.RGBA) (i k : Z) : RGBA :=
  if vertical then image.At img k i else image.At img i k.

Definition line_in (vertical : bool) (img : image.RGBA) (i k : Z) : bool :=
  if vertical then image.In k i (image.Bounds img) else image.In i k (image.Bounds img).

(** The length of a line. *)
Definition line_length (vertical : bool) (width height : Z) : Z :=
  if vertical then width else height.

(** The same run with another end of the pipe, and with another outcome of
    cmd.Wait. *)
Definition with_stdout_end (env : Env) (ending : pipe_end) : Env :=
  mkEnv (info env) (pipe_ok env) (start_ok env) (stdout env) ending
        (wait_err env) (deadline_exceeded env) (create_ok env) (encode_ok env).

Definition with_wait (env : Env) (failed deadline : bool) : Env :=
  mkEnv (info env) (pipe_ok env) (start_ok env) (stdout env) (stdout_end env)
        failed deadline (create_ok env) (encode_ok env).

(** The second version of the file (lines 418-420): [Generate] is the run
    of GenerateWithLegend with the zero value of LegendConfig. *)
Module v2.

Definition Generate (range_order : gmap Z Z → list (Z * Z))
    (addLegend : image.RGBA → Z → string → image.RGBA) (env : Env) (base_name : string)
    (mode : string) (vertical : bool) (resize : resize_arg) (fuel : nat) : res image.RGBA :=
  GenerateWithLegend range_order addLegend env base_name mode vertical resize
    (mkLegendConfig false 0 EmptyString) fuel.

End v2.

(** The colour of the border lines. *)
Definition borderColor : RGBA := mkRGBA 80 80 80 255.

(** ** The resize argument (lines 296-313 and 547-564 of colors.go)

    The Go strings of the argument are byte strings; [string] is the same
    thing, a character being a byte. *)

Definition code (c : ascii) : Z := Z.of_N (N_of_ascii c).

Fixpoint string_forall (P : ascii → bool) (s : string) : bool :=
  match s with
  | EmptyString => true
  | String c s' => P c && string_forall P s'
  end.

Fixpoint string_map (f : ascii → ascii) (s : string) : string :=
  match s with
  | EmptyString => EmptyString
  | String c s' => String (f c) (string_map f s')
  end.

(** ['A' <= c && c <= 'Z'] gives [c + 'a' - 'A']. *)
Definition lower_ascii (c : ascii) : ascii :=
  if (65 <=? code c) && (code c <=? 90) then ascii_of_N (N_of_ascii c + 32) else c.

(** [c < utf8.RuneSelf] *)
Definition is_ascii (c : ascii) : bool := code c <? 128.

Section Resize.

(** strings.ToLower lowers a string of ASCII bytes byte by byte, and maps
    unicode.ToLower over the runes of any other string; the latter is
    [unicode_ToLower]. *)
Variable unicode_ToLower : string → string.

Definition ToLower (s : string) : string :=
  if string_forall is_ascii s then string_map lower_ascii s else unicode_ToLower s.

(** [strings.Split(s, sep)] for a separator of one byte: the pieces between
    the occurrences of [sep], one more than there are occurrences. *)
Fixpoint Split (s : string) (sep : ascii) : list string :=
  match s with
  | EmptyString => [EmptyString]
  | String c s' =>
      if decide (c = sep) then EmptyString :: Split s' sep
      else match Split s' sep with
           | piece :: pieces => String c piece :: pieces
           | [] => [String c EmptyString]
           end
  end.

(** [strconv.Atoi]: an optional sign, then decimal digits, at least one, and
    nothing else; the value must be an [int].  [None] stands for the error,
    of syntax or of range. *)
Definition digit (c : ascii) : option Z :=
  let d := code c - 48 in
  if (0 <=? d) && (d <=? 9) then Some d else None.

Fixpoint digits_value (s : string) (n : Z) : option Z :=
  match s with
  | EmptyString => Some n
  | String c s' => d ← digit c; digits_value s' (n * 10 + d)
  end.

Definition Atoi (s : string) : option Z :=
  let '(neg, digits) :=
    match s with
    | String c s' =>
        if decide (c = "-"%char) then (true, s')
        else if decide (c = "+"%char) then (false, s')
        else (false, s)
    | EmptyString => (false, s)
    end in
  match digits with
  | EmptyString => None
  | _ =>
      n ← digits_value digits 0;
      let n := if neg then - n else n in
      if (min_int <=? n) && (n <=? max_int) then Some n else None
  end.

(** From the [resize] string to the target of the resize. *)
Definition parse_resize (resize : string) : resize_arg :=
  if decide (resize = EmptyString) then ResizeNone
  else if decide (resize = "input"%string) then ResizeInput
  else
    match Split (ToLower resize) "x"%char with
    | [width; height] =>
        match Atoi width with
        | None => ResizeInvalid ErrResizeWidth
        | Some targetW =>
            match Atoi height with
            | None => ResizeInvalid ErrResizeHeight
            | Some targetH => ResizeTo targetW targetH
            end
        end
    | _ => ResizeInvalid ErrResizeFormat
    end.

End Resize.

(** The decimal numeral of an integer, with a minus sign when negative. *)
Definition digit_char (d : Z) : ascii := ascii_of_N (Z.to_N (48 + d)).

Fixpoint numeral (fuel : nat) (n : Z) : string :=
  match fuel with
  | O => EmptyString
  | Datatypes.S fuel' =>
      if n <? 10 then String (digit_char n) EmptyString
      else (numeral fuel' (n / 10) +:+ String (digit_char (n mod 10)) EmptyString)%string
  end.

Definition Itoa (n : Z) : string :=
  if n <? 0 then String "-"%char (numeral 20 (- n)) else numeral 20 n.

(** How many bytes of [s] are an [x] of either case. *)
Fixpoint count_x (s : string) : nat :=
  match s with
  | EmptyString => O
  | String c s' =>
      ((if decide (lower_ascii c = "x"%char) then 1 else 0) + count_x s')%nat
  end.

(** The bytes that are decimal digits. *)
Definition is_digit (c : ascii) : bool := bool_decide (is_Some (digit c)).

(** The bytes of a numeral: digits, after a minus sign at most. *)
Definition is_numeric (c : ascii) : bool := is_digit c || bool_decide (c = "-"%char).

(** ** The legend (lines 675-805 of colors.go) *)

(** Package video: the metadata of the probe. *)
Module video.

Record Info : Type := mkInfo {
  Width : Z;
  Height : Z;
  FrameCount : Z;
  Duration : Q;
  FPS : Q;
  Codec : string
}.

End video.

(** bitmapFont is a simple 5x7 bitmap font: for a byte the rows of its
    glyph from top to bottom, [#] marking a pixel that is set. *)
Definition bitmapFont : gmap ascii (list string) :=
  list_to_map [
    ("a"%char, ["..#.."; ".#.#."; "#...#"; "#####"; "#...#"; "#...#"; "#...#"]);
    ("b"%char, ["####."; "#...#"; "#...#"; "####."; "#...#"; "#...#"; "####."]);
    ("c"%char, [".###."; "#...#"; "#...."; "#...."; "#...."; "#...#"; ".###."]);
    ("d"%char, ["####."; "#...#"; "#...#"; "#...#"; "#...#"; "#...#"; "####."]);
    ("e"%char, ["#####"; "#...."; "#...."; "####."; "#...."; "#...."; "#####"]);
    ("f"%char, ["#####"; "#...."; "#...."; "####."; "#...."; "#...."; "#...."]);
    ("g"%char, [".###."; "#...."; "#...."; "#.###"; "#...#"; "#...#"; ".###."]);
    ("h"%char, ["#...#"; "#...#"; "#...#"; "#####"; "#...#"; "#...#"; "#...#"]);
    ("i"%char, [".###."; "..#.."; "..#.."; "..#.."; "..#.."; "..#.."; ".###."]);
    ("j"%char, ["..###"; "...#."; "...#."; "...#."; "#..#."; "#..#."; ".##.."]);
    ("k"%char, ["#...#"; "#..#."; "#.#.."; "##..."; "#.#.."; "#..#."; "#...#"]);
    ("l"%char, ["#...."; "#...."; "#...."; "#...."; "#...."; "#...."; "#####"]);
    ("m"%char, ["#...#"; "##.##"; "#.#.#"; "#...#"; "#...#"; "#...#"; "#...#"]);
    ("n"%char, ["#...#"; "##..#"; "#.#.#"; "#..##"; "#...#"; "#...#"; "#...#"]);
    ("o"%char, [".###."; "#...#"; "#...#"; "#...#"; "#...#"; "#...#"; ".###."]);
    ("p"%char, ["####."; "#...#"; "#...#"; "####."; "#...."; "#...."; "#...."]);
    ("q"%char, [".###."; "#...#"; "#...#"; "#...#"; "#.#.#"; "#..#."; ".##.#"]);
    ("r"%char, ["####."; "#...#"; "#...#"; "####."; "#.#.."; "#..#."; "#...#"]);
    ("s"%char, [".####"; "#...."; "#...."; ".###."; "....#"; "....#"; "####."]);
    ("t"%char, ["#####"; "..#.."; "..#.."; "..#.."; "..#.."; "..#.."; "..#.."]);
    ("u"%char, ["#...#"; "#...#"; "#...#"; "#...#"; "#...#"; "#...#"; ".###."]);
    ("v"%char, ["#...#"; "#...#"; "#...#"; "#...#"; ".#.#."; ".#.#."; "..#.."]);
    ("w"%char, ["#...#"; "#...#"; "#...#"; "#.#.#"; "#.#.#"; "##.##"; "#...#"]);
    ("x"%char, ["#...#"; ".#.#."; "..#.."; "..#.."; "..#.."; ".#.#."; "#...#"]);
    ("y"%char, ["#...#"; "#...#"; ".#.#."; "..#.."; "..#.."; "..#.."; "..#.."]);
    ("z"%char, ["#####"; "....#"; "...#."; "..#.."; ".#..."; "#...."; "#####"]);
    ("0"%char, [".###."; "#...#"; "#..##"; "#.#.#"; "##..#"; "#...#"; ".###."]);
    ("1"%char, ["..#.."; ".##.."; "..#.."; "..#.."; "..#.."; "..#.."; ".###."]);
    ("2"%char, [".###."; "#...#"; "....#"; "..##."; ".#..."; "#...."; "#####"]);
    ("3"%char, [".###."; "#...#"; "....#"; "..##."; "....#"; "#...#"; ".###."]);
    ("4"%char, ["#...#"; "#...#"; "#...#"; "#####"; "....#"; "....#"; "....#"]);
    ("5"%char, ["#####"; "#...."; "####."; "....#"; "....#"; "#...#"; ".###."]);
    ("6"%char, [".###."; "#...."; "####."; "#...#"; "#...#"; "#...#"; ".###."]);
    ("7"%char, ["#####"; "....#"; "...#."; "..#.."; ".#..."; "#...."; "#...."]);
    ("8"%char, [".###."; "#...#"; "#...#"; ".###."; "#...#"; "#...#"; ".###."]);
    ("9"%char, [".###."; "#...#"; "#...#"; ".####"; "....#"; "....#"; ".###."]);
    ("."%char, ["....."; "....."; "....."; "....."; "....."; "..#.."; "..#.."]);
    ("|"%char, ["..#.."; "..#.."; "..#.."; "..#.."; "..#.."; "..#.."; "..#.."]);
    ("-"%char, ["....."; "....."; "....."; "#####"; "....."; "....."; "....."]);
    ("_"%char, ["....."; "....."; "....."; "....."; "....."; "....."; "#####"]);
    (" "%char, ["....."; "....."; "....."; "....."; "....."; "....."; "....."]);
    ("("%char, ["...#."; "..#.."; ".#..."; ".#..."; ".#..."; "..#.."; "...#."]);
    (")"%char, [".#..."; "..#.."; "...#."; "...#."; "...#."; "..#.."; ".#..."])
  ].

(** The inner loop of drawText over the pixels of a row of a glyph, and the
    loop over its rows.  SetRGBA, like Set, drops a write outside the
    bounds of the image. *)
Fixpoint draw_row (img : image.RGBA) (row : string) (x y dx : Z) (c : RGBA) : image.RGBA :=
  match row with
  | EmptyString => img
  | String pixel row' =>
      let img := if decide (pixel = "#"%char) then image.Set_ img (int_add x dx) y c
                 else img in
      draw_row img row' x y (dx + 1) c
  end.

Fixpoint draw_pattern (img : image.RGBA) (pattern : list string) (x y dy : Z) (c : RGBA)
    : image.RGBA :=
  match pattern with
  | [] => img
  | row :: pattern' =>
      draw_pattern (draw_row img row x (int_add y dy) 0 c) pattern' x y (dy + 1) c
  end.

(** [byte(ch)] of a rune. *)
Definition byte_of_rune (ch : Z) : ascii := ascii_of_N (Z.to_N (ch mod 256)).

(** drawText draws text using the bitmap font.  [runes] are the runes that
    ranging over [strings.ToLower(text)] yields. *)
Fixpoint drawText (img : image.RGBA) (runes : list Z) (x y : Z) (c : RGBA)
    : res image.RGBA :=
  match runes with
  | [] => Ok img
  | ch :: runes' =>
      match bitmapFont !! byte_of_rune ch with
      | None => drawText img runes' (int_add x 4) y c   (* space for unknown chars *)
      | Some pattern =>
          let img := draw_pattern img pattern x y 0 c in
          match pattern with
          | [] => Panic IndexOutOfRange                  (* pattern[0] *)
          | row0 :: _ =>
              drawText img runes' (int_add x (int_add (Z.of_nat (String.length row0)) 1)) y c
          end
      end
  end.

(** [strings.Join] *)
Fixpoint Join (parts : list string) (sep : string) : string :=
  match parts with
  | [] => EmptyString
  | [part] => part
  | part :: parts' => (part +:+ sep +:+ Join parts' sep)%string
  end.

(** [fmt.Sprintf("%02d", n)] *)
Definition Sprintf_02d (n : Z) : string :=
  if (0 <=? n) && (n <? 10) then String "0"%char (Itoa n) else Itoa n.

Section Legend.

(** [fmt.Sprintf("%.1f", v)] of a float64, and the runes of
    [strings.ToLower(s)]: library code that is taken as given. *)
Variable Sprintf_1f : Q → string.
Variable lower_runes : string → list Z.

(** Format: name | duration | fps | frames | codec | resolution *)
Definition legendText (name : string) (info : video.Info) : string :=
  let parts := [name] in
  let parts :=
    if negb (Qle_bool (video.Duration info) 0) then
      let mins := int_quot (wrap_int (float64.trunc (video.Duration info))) 60 in
      let secs := Z.rem (wrap_int (float64.trunc (video.Duration info))) 60 in
      if mins >? 0
      then parts ++ [(Itoa mins +:+ "m" +:+ Sprintf_02d secs +:+ "s")%string]
      else parts ++ [(Sprintf_1f (video.Duration info) +:+ "s")%string]
    else parts in
  let parts :=
    if negb (Qle_bool (video.FPS info) 0)
    then parts ++ [(Sprintf_1f (video.FPS info) +:+ "fps")%string] else parts in
  let parts :=
    if video.FrameCount info >? 0
    then parts ++ [(Itoa (video.FrameCount info) +:+ "f")%string] else parts in
  let parts :=
    if decide (video.Codec info = EmptyString) then parts
    else parts ++ [video.Codec info] in
  let parts :=
    if (video.Width info >? 0) && (video.Height info >? 0)
    then parts ++ [(Itoa (video.Width info) +:+ "x" +:+ Itoa (video.Height info))%string]
    else parts in
  Join parts " | ".

(** addLegend adds a legend bar at the top of the image. *)
Definition addLegend (src : image.RGBA) (legendHeight : Z) (name : string)
    (info : video.Info) : res image.RGBA :=
  let bounds := image.Bounds src in
  let w := image.Dx bounds in
  let h := image.Dy bounds in
  dst ← image.NewRGBA (image.Rect 0 0 w (int_add h legendHeight));
  (* Fill legend background *)
  let labelBg := mkRGBA 25 25 30 255 in
  dst ← for_loop legendHeight (fun y dst =>
    for_loop w (fun x dst => Ok (image.Set_ dst x y labelBg)) dst) dst;
  (* Copy original image below legend *)
  dst ← for_loop h (fun y dst =>
    for_loop w (fun x dst =>
      let '(r, g, b, a) :=
        color.RGBA_values (image.At src (int_add (image.X (image.Min bounds)) x)
                                        (int_add (image.Y (image.Min bounds)) y)) in
      Ok (image.Set_ dst x (int_add y legendHeight)
            (mkRGBA (to_uint8 (Z.shiftr r 8)) (to_uint8 (Z.shiftr g 8))
                    (to_uint8 (Z.shiftr b 8)) (to_uint8 (Z.shiftr a 8))))) dst) dst;
  (* Build legend text *)
  let textColor := mkRGBA 200 200 200 255 in
  let yText := int_quot (int_sub legendHeight 7) 2 in
  drawText dst (lower_runes (legendText name info)) 8 yText textColor.

End Legend.

(** The colours of the legend bar. *)
Definition labelBg : RGBA := mkRGBA 25 25 30 255.
Definition textColor : RGBA := mkRGBA 200 200 200 255.

(** The runes of a string of ASCII bytes. *)
Definition ascii_runes (s : string) : list Z := code <$> String.list_ascii_of_string s.

(** [img'] is [img] but for pixels of the rows [lo .. hi-1] that have
    been given the colour [c]. *)
Definition touched (img img' : image.RGBA) (lo hi : Z) (c : RGBA) : Prop :=
  image.Bounds img' = image.Bounds img ∧
  ∀ px py, image.At img' px py = image.At img px py ∨
           (lo ≤ py < hi ∧ image.At img' px py = c).


(** [img'] is [img] but for pixels of the columns [x0 .. x1-1] and rows
    [y0 .. y1-1] that have been given the colour [c]. *)
Definition touched_box (img img' : image.RGBA) (x0 x1 y0 y1 : Z) (c : RGBA) : Prop :=
  image.Bounds img' = image.Bounds img ∧
  ∀ px py, image.At img' px py = image.At img px py ∨
           (x0 ≤ px < x1 ∧ y0 ≤ py < y1 ∧ image.At img' px py = c).

(** ** The audio side: stems (internal/audio) and audiodna *)

Module audio.

(** StemFiles contains paths to separated stem files. *)
Record StemFiles : Type := mkStemFiles {
  Vocals : string;
  Drums : string;
  Bass : string;
  Other : string;
  Piano : string;
  Guitar : string
}.

(** [if field != "" { list = append(list, item) }] *)
Definition append_if_set (field item : string) (items : list string) : list string :=
  if decide (field = EmptyString) then items else items ++ [item].

(** GetStemPaths returns a slice of all non-empty stem paths. *)
Definition GetStemPaths (s : StemFiles) : list string :=
  let paths := [] in
  let paths := append_if_set (Vocals s) (Vocals s) paths in
  let paths := append_if_set (Drums s) (Drums s) paths in
  let paths := append_if_set (Bass s) (Bass s) paths in
  let paths := append_if_set (Other s) (Other s) paths in
  let paths := append_if_set (Piano s) (Piano s) paths in
  let paths := append_if_set (Guitar s) (Guitar s) paths in
  paths.

(** GetStemLabels returns labels for the stems in the same order as
    GetStemPaths. *)
Definition GetStemLabels (s : StemFiles) : list string :=
  let labels := [] in
  let labels := append_if_set (Vocals s) "vocals" labels in
  let labels := append_if_set (Drums s) "drums" labels in
  let labels := append_if_set (Bass s) "bass" labels in
  let labels := append_if_set (Other s) "other" labels in
  let labels := append_if_set (Piano s) "piano" labels in
  let labels := append_if_set (Guitar s) "guitar" labels in
  labels.

(** The field of the stem files that a label names. *)
Definition stem_path (s : StemFiles) (label : string) : option string :=
  if decide (label = "vocals"%string) then Some (Vocals s)
  else if decide (label = "drums"%string) then Some (Drums s)
  else if decide (label = "bass"%string) then Some (Bass s)
  else if decide (label = "other"%string) then Some (Other s)
  else if decide (label = "piano"%string) then Some (Piano s)
  else if decide (label = "guitar"%string) then Some (Guitar s)
  else None.

(** *** Volume segments (the waveform file of package audio)

    The float64 operations are those of [float64].  The samples that
    ExtractWaveform produces are 16-bit values over 32768, for which no
    operation below leaves the normal range of float64. *)

(** WaveformData contains amplitude data for an audio file. *)
Record WaveformData : Type := mkWaveformData {
  Samples : list Q;
  SampleRate : Z;
  Duration : Q;
  Channels : Z
}.

(** VolumeSegment represents volume data for a time segment. *)
Record VolumeSegment : Type := mkVolumeSegment {
  TimeStart : Q;
  TimeEnd : Q;
  RMS : Q;
  Peak : Q;
  Min : Q;
  Max : Q
}.

Definition set_TimeStart (s : VolumeSegment) (v : Q) : VolumeSegment :=
  mkVolumeSegment v (TimeEnd s) (RMS s) (Peak s) (Min s) (Max s).
Definition set_TimeEnd (s : VolumeSegment) (v : Q) : VolumeSegment :=
  mkVolumeSegment (TimeStart s) v (RMS s) (Peak s) (Min s) (Max s).
Definition set_RMS (s : VolumeSegment) (v : Q) : VolumeSegment :=
  mkVolumeSegment (TimeStart s) (TimeEnd s) v (Peak s) (Min s) (Max s).
Definition set_Peak (s : VolumeSegment) (v : Q) : VolumeSegment :=
  mkVolumeSegment (TimeStart s) (TimeEnd s) (RMS s) v (Min s) (Max s).
Definition set_Min (s : VolumeSegment) (v : Q) : VolumeSegment :=
  mkVolumeSegment (TimeStart s) (TimeEnd s) (RMS s) (Peak s) v (Max s).
Definition set_Max (s : VolumeSegment) (v : Q) : VolumeSegment :=
  mkVolumeSegment (TimeStart s) (TimeEnd s) (RMS s) (Peak s) (Min s) v.

(** [a < b] on float64 values. *)
Definition less (a b : Q) : bool := negb (Qle_bool b a).

(** [make([]VolumeSegment, n)]: zero values, 48 bytes each. *)
Definition make_segments (n : Z) : res (list VolumeSegment) :=
  if (n <? 0) || (48 * n >? maxAlloc) then Panic AllocationTooLarge
  else Ok (replicate (Z.to_nat n) (mkVolumeSegment 0 0 0 0 0 0)).

(** [samples[j]] and [segments[i]], with the bounds check. *)
Definition at_index {A : Type} (l : list A) (i : Z) : res A :=
  if (0 <=? i) && (i <? Z.of_nat (length l))
  then match l !! Z.to_nat i with
       | Some a => Ok a
       | None => Panic IndexOutOfRange
       end
  else Panic IndexOutOfRange.

Section Volume.

(** [math.Sqrt], whose values are not modelled. *)
Variable math_Sqrt : Q → Q.

(** The body of the loop over the samples of one segment; the state is the
    segment, [sumSquares] and [count]. *)
Definition scan_sample (samples : list Q) (j : Z) (st : VolumeSegment * Q * Z)
    : res (VolumeSegment * Q * Z) :=
  let '(segment, sumSquares, count) := st in
  sample ← at_index samples j;
  let absSample := Qabs sample in
  let sumSquares := float64.add sumSquares (float64.mul sample sample) in
  let count := int_add count 1 in
  let segment := if less sample (Min segment) then set_Min segment sample else segment in
  let segment := if less (Max segment) sample then set_Max segment sample else segment in
  let segment := if less (Peak segment) absSample then set_Peak segment absSample
                 else segment in
  Ok (segment, sumSquares, count).

(** ExtractVolume extracts volume data segmented into time buckets; [nil]
    is the empty list. *)
Definition ExtractVolume (waveform : WaveformData) (numSegments : Z)
    : res (list VolumeSegment) :=
  let samples := Samples waveform in
  let n := Z.of_nat (length samples) in
  if (numSegments <=? 0) || (n =? 0) then Ok []
  else
    let samplesPerSegment := int_quot n numSegments in
    let samplesPerSegment := if samplesPerSegment <? 1 then 1 else samplesPerSegment in
    segments ← make_segments numSegments;
    let secondsPerSample := float64.div 1 (float64.of_int (SampleRate waveform)) in
    for_loop numSegments (fun i segments =>
      let startIdx := int_mul i samplesPerSegment in
      let endIdx := int_add startIdx samplesPerSegment in
      let endIdx := if i =? int_sub numSegments 1 then n else endIdx in
      let endIdx := if endIdx >? n then n else endIdx in
      segment ← at_index segments i;
      let segment :=
        set_TimeStart segment (float64.mul (float64.of_int startIdx) secondsPerSample) in
      let segment :=
        set_TimeEnd segment (float64.mul (float64.of_int endIdx) secondsPerSample) in
      let segment := set_Min segment 1 in
      let segment := set_Max segment (- (1)) in
      '(segment, sumSquares, count) ←
        for_from startIdx (Z.to_nat (endIdx - startIdx)) (scan_sample samples)
                 (segment, 0%Q, 0);
      let segment :=
        if count >? 0
        then set_RMS segment (math_Sqrt (float64.div sumSquares (float64.of_int count)))
        else segment in
      Ok (<[Z.to_nat i := segment]> segments)) segments.

End Volume.


End audio.

Module audiodna.

(** The paths and labels that [Generate] goes on with (lines 922-955 of
    the audio part of colors.go): those of the separated stems, or the input
    alone under the label "mixed" when there are none.  [stemFiles] is
    [None] when the separation is skipped. *)
Definition stems (stemFiles : option audio.StemFiles) (inputPath : string)
    : list string * list string :=
  let '(stemPaths, stemLabels) :=
    match stemFiles with
    | Some s => (audio.GetStemPaths s, audio.GetStemLabels s)
    | None => ([], [])
    end in
  if decide (length stemPaths = 0%nat) then ([inputPath], ["mixed"%string])
  else (stemPaths, stemLabels).

(** [abs] of the audio part of colors.go. *)
Definition abs (x : Z) : Z := if x <? 0 then int_sub 0 x else x.

(** [uint8(f)] of a float64 as amd64 has it: the fraction is dropped and
    the whole part is taken as a 32-bit integer, of which the low 8 bits are
    kept; a whole part that does not fit 32 bits gives 0. *)
Definition uint8_of_float (f : Q) : Z :=
  if (- 2 ^ 31 <=? float64.trunc f) && (float64.trunc f <? 2 ^ 31)
  then to_uint8 (float64.trunc f)
  else 0.

Definition scaleColor (c : RGBA) (scale : Q) : RGBA :=
  mkRGBA (uint8_of_float (float64.mul (float64.of_int (color.R c)) scale))
         (uint8_of_float (float64.mul (float64.of_int (color.G c)) scale))
         (uint8_of_float (float64.mul (float64.of_int (color.B c)) scale))
         (color.A c).

(** The colour [Generate] gives to row [y] of the bar of a stem (the body
    of its innermost loop); the constant 0.3 is the float64 next to 3/10. *)
Definition barColor (stemColor : RGBA) (y yMid halfHeight : Z) : RGBA :=
  let dist := abs (int_sub y yMid) in
  let intensity :=
    float64.sub 1
      (float64.mul (float64.div (float64.of_int dist)
                                (float64.of_int (int_add halfHeight 1)))
                   (float64.round (3 # 10))) in
  scaleColor stemColor intensity.

(** bilinear of the audio part: the four weighted values, summed from left
    to right. *)
Definition bilinear (c00 c10 c01 c11 xFrac yFrac : Q) : Q :=
  float64.add
    (float64.add
       (float64.add
          (float64.mul (float64.mul c00 (float64.sub 1 xFrac)) (float64.sub 1 yFrac))
          (float64.mul (float64.mul c10 xFrac) (float64.sub 1 yFrac)))
       (float64.mul (float64.mul c01 (float64.sub 1 xFrac)) yFrac))
    (float64.mul (float64.mul c11 xFrac) yFrac).

(** The body of the two nested loops of the audio part's resizeImage: the
    colour stored at [(x, y)]. *)
Definition resizePixel (src : image.RGBA) (srcW srcH : Z) (xRatio yRatio : Q)
    (x y : Z) : RGBA :=
  let srcX := float64.mul (float64.of_int x) xRatio in
  let srcY := float64.mul (float64.of_int y) yRatio in
  let x0 := wrap_int (float64.trunc srcX) in
  let y0 := wrap_int (float64.trunc srcY) in
  let xFrac := float64.sub srcX (float64.of_int x0) in
  let yFrac := float64.sub srcY (float64.of_int y0) in
  let x1 := int_add x0 1 in
  let y1 := int_add y0 1 in
  let x1 := if x1 >=? srcW then int_sub srcW 1 else x1 in
  let y1 := if y1 >=? srcH then int_sub srcH 1 else y1 in
  let c00 := image.At src x0 y0 in
  let c10 := image.At src x1 y0 in
  let c01 := image.At src x0 y1 in
  let c11 := image.At src x1 y1 in
  let r := bilinear (float64.of_int (color.R c00)) (float64.of_int (color.R c10))
                    (float64.of_int (color.R c01)) (float64.of_int (color.R c11))
                    xFrac yFrac in
  let g := bilinear (float64.of_int (color.G c00)) (float64.of_int (color.G c10))
                    (float64.of_int (color.G c01)) (float64.of_int (color.G c11))
                    xFrac yFrac in
  let b := bilinear (float64.of_int (color.B c00)) (float64.of_int (color.B c10))
                    (float64.of_int (color.B c01)) (float64.of_int (color.B c11))
                    xFrac yFrac in
  let a := bilinear (float64.of_int (color.A c00)) (float64.of_int (color.A c10))
                    (float64.of_int (color.A c01)) (float64.of_int (color.A c11))
                    xFrac yFrac in
  mkRGBA (uint8_of_float r) (uint8_of_float g)
         (uint8_of_float b) (uint8_of_float a).

(** resizeImage of the audio part. *)
Definition resizeImage (src : image.RGBA) (newWidth newHeight : Z) : res image.RGBA :=
  let srcBounds := image.Bounds src in
  let srcW := image.Dx srcBounds in
  let srcH := image.Dy srcBounds in
  dst ← image.NewRGBA (image.Rect 0 0 newWidth newHeight);
  let xRatio := float64.div (float64.of_int srcW) (float64.of_int newWidth) in
  let yRatio := float64.div (float64.of_int srcH) (float64.of_int newHeight) in
  for_loop newHeight (fun y dst =>
    for_loop newWidth (fun x dst =>
      Ok (image.Set_ dst x y (resizePixel src srcW srcH xRatio yRatio x y))) dst) dst.

End audiodna.

(** A white, opaque column of three pixels. *)
Definition white_column : image.RGBA :=
  image.mkImage (image.Rect 0 0 1 3)
    (<[(0, 0) := mkRGBA 255 255 255 255]>
       (<[(0, 1) := mkRGBA 255 255 255 255]>
          (<[(0, 2) := mkRGBA 255 255 255 255]> ∅))).

(** * Proofs *)

(** ** Machine integers *)

Lemma wrap_int_small z : min_int ≤ z ≤ max_int → wrap_int z = z.
Proof.
  unfold wrap_int, min_int, max_int. intros H.
  rewrite Z.mod_small by lia. lia.
Qed.

Lemma to_uint64_small z : 0 ≤ z < 2 ^ 64 → to_uint64 z = z.
Proof. intros H. unfold to_uint64. apply Z.mod_small. lia. Qed.

Lemma to_uint32_small z : 0 ≤ z < 2 ^ 32 → to_uint32 z = z.
Proof. intros H. unfold to_uint32. apply Z.mod_small. lia. Qed.

Lemma to_uint8_small z : 0 ≤ z < 2 ^ 8 → to_uint8 z = z.
Proof. intros H. unfold to_uint8. apply Z.mod_small. lia. Qed.

Lemma int_add_small a b : min_int ≤ a + b ≤ max_int → int_add a b = a + b.
Proof. apply wrap_int_small. Qed.

Lemma int_sub_small a b : min_int ≤ a - b ≤ max_int → int_sub a b = a - b.
Proof. apply wrap_int_small. Qed.

Lemma int_mul_small a b : min_int ≤ a * b ≤ max_int → int_mul a b = a * b.
Proof. apply wrap_int_small. Qed.

Lemma maxAlloc_int : maxAlloc < max_int.
Proof. reflexivity. Qed.

(** ** The result monad and loops *)

Lemma for_from_inv {S : Type} (I : Z → S → Prop) (body : Z → S → res S) count :
  ∀ start s,
    I start s →
    (∀ k t, start ≤ k < start + Z.of_nat count → I k t →
            ∃ t', body k t = Ok t' ∧ I (k + 1) t') →
    ∃ s', for_from start count body s = Ok s' ∧ I (start + Z.of_nat count) s'.
Proof.
  induction count as [|count IH]; intros start s H0 Hstep.
  - exists s. rewrite Z.add_0_r. done.
  - destruct (Hstep start s) as (t' & Hb & Ht'); [lia | done |].
    destruct (IH (start + 1) t') as (s' & Hs' & HI).
    + done.
    + intros k t Hk. apply Hstep. lia.
    + exists s'. split.
      * simpl. rewrite Hb. exact Hs'.
      * replace (start + Z.of_nat (Datatypes.S count))
          with (start + 1 + Z.of_nat count) by lia. done.
Qed.

Lemma for_loop_inv {S : Type} (I : Z → S → Prop) (body : Z → S → res S) n s :
  0 ≤ n →
  I 0 s →
  (∀ k t, 0 ≤ k < n → I k t → ∃ t', body k t = Ok t' ∧ I (k + 1) t') →
  ∃ s', for_loop n body s = Ok s' ∧ I n s'.
Proof.
  intros Hn H0 Hstep. unfold for_loop.
  destruct (for_from_inv I body (Z.to_nat n) 0 s) as (s' & Hs' & HI).
  - done.
  - intros k t Hk. apply Hstep. lia.
  - exists s'. split; [done|]. by rewrite Z2Nat.id, Z.add_0_l in HI.
Qed.

(** ** Reading bytes *)

Lemma u8_range b : 0 ≤ u8 b ≤ 255.
Proof.
  unfold u8. pose proof (Byte.to_N_bounded b). lia.
Qed.

Lemma byte_at_range s i : 0 ≤ byte_at s i ≤ 255.
Proof.
  unfold byte_at. destruct (i <? 0); [lia|].
  destruct (s !! Z.to_nat i); simpl; [apply u8_range | lia].
Qed.

Lemma index_ok s i : 0 ≤ i < len s → index s i = Ok (byte_at s i).
Proof.
  intros Hi. unfold index, byte_at, len in *.
  destruct (Z.leb_spec 0 i); [|lia].
  destruct (Z.ltb_spec i (Z.of_nat (length s))); [|lia].
  destruct (Z.ltb_spec i 0); [lia|]. simpl.
  destruct (s !! Z.to_nat i) eqn:E; [done|].
  apply lookup_ge_None in E. lia.
Qed.

Lemma index_Ok_inv s i v : index s i = Ok v → 0 ≤ i < len s.
Proof.
  unfold index.
  destruct (Z.leb_spec 0 i), (Z.ltb_spec i (len s)); simpl; try discriminate. lia.
Qed.

(** ** Sample lists *)

Lemma samples_length buf off n c : length (samples buf off n c) = Z.to_nat n.
Proof. unfold samples. by rewrite length_fmap, length_seqZ. Qed.

Lemma samples_snoc buf off k c :
  0 ≤ k → samples buf off (k + 1) c = samples buf off k c ++ [byte_at buf (off k + c)].
Proof.
  intros Hk. unfold samples.
  rewrite seqZ_app by lia. rewrite fmap_app. f_equal.
Qed.

Lemma samples_nil buf off c : samples buf off 0 c = [].
Proof. done. Qed.

Lemma samples_range buf off n c : Forall (λ v, 0 ≤ v ≤ 255) (samples buf off n c).
Proof.
  unfold samples. apply Forall_fmap, Forall_true. intros k. apply byte_at_range.
Qed.

Lemma samples_ext buf off1 off2 n c :
  (∀ k, 0 ≤ k < n → off1 k = off2 k) → samples buf off1 n c = samples buf off2 n c.
Proof.
  intros H. unfold samples. apply list_fmap_ext.
  intros i k Hk. apply lookup_seqZ in Hk. rewrite H; [done | lia].
Qed.

Lemma sumZ_app l1 l2 : sumZ (l1 ++ l2) = sumZ l1 + sumZ l2.
Proof. unfold sumZ. induction l1 as [|v l1 IH]; simpl; lia. Qed.

Lemma sumZ_range l :
  Forall (λ v, 0 ≤ v ≤ 255) l → 0 ≤ sumZ l ≤ 255 * Z.of_nat (length l).
Proof.
  induction 1 as [|v l Hv _ IH]; simpl; [lia|].
  change (sumZ (v :: l)) with (v + sumZ l). lia.
Qed.

Lemma foldr_min_snoc a l v : foldr Z.min a (l ++ [v]) = Z.min (foldr Z.min a l) v.
Proof. induction l as [|w l IH]; simpl; lia. Qed.

Lemma foldr_max_snoc a l v : foldr Z.max a (l ++ [v]) = Z.max (foldr Z.max a l) v.
Proof. induction l as [|w l IH]; simpl; lia. Qed.

Lemma foldr_min_255 l :
  l ≠ [] → Forall (λ v, 0 ≤ v ≤ 255) l → foldr Z.min 255 l = minimum l.
Proof.
  destruct l as [|v l]; [done|]. intros _ H.
  apply Forall_cons in H as [Hv H]. simpl.
  induction H as [|w l Hw _ IH]; simpl; lia.
Qed.

Lemma foldr_max_0 l :
  l ≠ [] → Forall (λ v, 0 ≤ v ≤ 255) l → foldr Z.max 0 l = maximum l.
Proof.
  destruct l as [|v l]; [done|]. intros _ H.
  apply Forall_cons in H as [Hv H]. simpl.
  induction H as [|w l Hw _ IH]; simpl; lia.
Qed.

(** [minimum] and [maximum] are the least and the greatest element. *)
Lemma foldr_min_spec a l :
  (foldr Z.min a l = a ∨ foldr Z.min a l ∈ l) ∧
  foldr Z.min a l ≤ a ∧ ∀ v, v ∈ l → foldr Z.min a l ≤ v.
Proof.
  induction l as [|w l (IHin & IHa & IHle)]; simpl.
  - split; [by left|]. split; [lia|]. intros v Hv. by apply elem_of_nil in Hv.
  - split; [|split].
    + destruct (Z.min_spec w (foldr Z.min a l)) as [[_ ->]|[_ ->]].
      * right. left.
      * destruct IHin as [?|?]; [by left | right; by right].
    + lia.
    + intros v Hv. apply elem_of_cons in Hv as [->|Hv]; [lia|].
      specialize (IHle v Hv). lia.
Qed.

Lemma foldr_max_spec a l :
  (foldr Z.max a l = a ∨ foldr Z.max a l ∈ l) ∧
  a ≤ foldr Z.max a l ∧ ∀ v, v ∈ l → v ≤ foldr Z.max a l.
Proof.
  induction l as [|w l (IHin & IHa & IHle)]; simpl.
  - split; [by left|]. split; [lia|]. intros v Hv. by apply elem_of_nil in Hv.
  - split; [|split].
    + destruct (Z.max_spec w (foldr Z.max a l)) as [[_ ->]|[_ ->]].
      * destruct IHin as [?|?]; [by left | right; by right].
      * right. left.
    + lia.
    + intros v Hv. apply elem_of_cons in Hv as [->|Hv]; [lia|].
      specialize (IHle v Hv). lia.
Qed.

Lemma minimum_spec l :
  l ≠ [] → minimum l ∈ l ∧ ∀ v, v ∈ l → minimum l ≤ v.
Proof.
  destruct l as [|a l]; [done|]. intros _. simpl.
  destruct (foldr_min_spec a l) as (Hin & Ha & Hle). split.
  - destruct Hin as [->|?]; [left | by right].
  - intros v Hv. apply elem_of_cons in Hv as [->|Hv]; [done | by apply Hle].
Qed.

Lemma maximum_spec l :
  l ≠ [] → maximum l ∈ l ∧ ∀ v, v ∈ l → v ≤ maximum l.
Proof.
  destruct l as [|a l]; [done|]. intros _. simpl.
  destruct (foldr_max_spec a l) as (Hin & Ha & Hle). split.
  - destruct Hin as [->|?]; [left | by right].
  - intros v Hv. apply elem_of_cons in Hv as [->|Hv]; [done | by apply Hle].
Qed.

(** ** The reducers, loop by loop *)

Lemma AverageColor_unfold row width :
  AverageColor row width =
  for_loop width (λ x, sum_step row (row_off x)) (0, 0, 0) ≫= sum_finish (to_uint64 width).
Proof. reflexivity. Qed.

Lemma AverageColorCol_unfold buf col width height :
  AverageColorCol buf col width height =
  for_loop height (λ y, sum_step buf (col_off width col y)) (0, 0, 0)
    ≫= sum_finish (to_uint64 height).
Proof. reflexivity. Qed.

Lemma MinColor_unfold row width :
  MinColor row width =
  for_loop width (λ x, min_step row (row_off x)) (255, 255, 255) ≫= rgb_finish.
Proof. reflexivity. Qed.

Lemma MinColorCol_unfold buf col width height :
  MinColorCol buf col width height =
  for_loop height (λ y, min_step buf (col_off width col y)) (255, 255, 255)
    ≫= rgb_finish.
Proof. reflexivity. Qed.

Lemma MaxColor_unfold row width :
  MaxColor row width =
  for_loop width (λ x, max_step row (row_off x)) (0, 0, 0) ≫= rgb_finish.
Proof. reflexivity. Qed.

Lemma MaxColorCol_unfold buf col width height :
  MaxColorCol buf col width height =
  for_loop height (λ y, max_step buf (col_off width col y)) (0, 0, 0)
    ≫= rgb_finish.
Proof. reflexivity. Qed.

Lemma MostCommonColor_unfold order row width :
  MostCommonColor order row width =
  for_loop width (λ x, count_step row (row_off x)) ∅
    ≫= (λ colorCount, Ok (unpack (most_common_scan (order colorCount)).2)).
Proof.
  unfold MostCommonColor.
  destruct (for_loop width _ ∅); simpl; try done.
  by destruct (most_common_scan _).
Qed.

Lemma MostCommonColorCol_unfold order buf col width height :
  MostCommonColorCol order buf col width height =
  for_loop height (λ y, count_step buf (col_off width col y)) ∅
    ≫= (λ colorCount, Ok (unpack (most_common_scan (order colorCount)).2)).
Proof.
  unfold MostCommonColorCol.
  destruct (for_loop height _ ∅); simpl; try done.
  by destruct (most_common_scan _).
Qed.

(** Offsets: under the size bounds the [int] arithmetic does not wrap. *)
Lemma row_off_ok row width x :
  slice_ok row → 3 * width ≤ len row → 0 ≤ x < width →
  row_off x = row_offset x ∧ 0 ≤ row_offset x ∧ row_offset x + 3 ≤ len row.
Proof.
  unfold slice_ok, row_off, row_offset, maxAlloc. intros Hs Hw Hx.
  rewrite int_mul_small by (unfold min_int, max_int; lia). lia.
Qed.

Lemma col_off_ok buf col width height y :
  slice_ok buf → width * height * 3 ≤ len buf → 0 ≤ col < width → 0 ≤ y < height →
  col_off width col y = col_offset width col y ∧
  0 ≤ col_offset width col y ∧ col_offset width col y + 3 ≤ len buf.
Proof.
  unfold slice_ok, col_off, col_offset, maxAlloc. intros Hs Hw Hc Hy.
  assert (0 ≤ y * width) by nia.
  assert ((y * width + col) * 3 + 3 ≤ width * height * 3) by nia.
  rewrite (int_mul_small y) by (unfold min_int, max_int; lia).
  rewrite int_add_small by (unfold min_int, max_int; lia).
  rewrite int_mul_small by (unfold min_int, max_int; lia). lia.
Qed.

Lemma packed_pixels_length buf off n : length (packed_pixels buf off n) = Z.to_nat n.
Proof. unfold packed_pixels. by rewrite length_fmap, length_seqZ. Qed.

Lemma packed_pixels_snoc buf off k :
  0 ≤ k → packed_pixels buf off (k + 1) = packed_pixels buf off k ++ [packed_at buf (off k)].
Proof.
  intros Hk. unfold packed_pixels. rewrite seqZ_app by lia. by rewrite fmap_app.
Qed.

Lemma occurrences_snoc key l v :
  occurrences key (l ++ [v]) = occurrences key l + (if decide (v = key) then 1 else 0).
Proof.
  unfold occurrences. rewrite filter_app, length_app.
  rewrite filter_cons, filter_nil. destruct (decide (v = key)); simpl; lia.
Qed.

Lemma occurrences_le key l : 0 ≤ occurrences key l ≤ Z.of_nat (length l).
Proof.
  unfold occurrences. pose proof (length_filter (λ v, v = key) l). lia.
Qed.

Lemma occurrences_pos key l : 0 < occurrences key l ↔ key ∈ l.
Proof.
  unfold occurrences. split.
  - intros H. destruct (filter (λ v, v = key) l) as [|v f] eqn:E; [simpl in H; lia|].
    assert (v ∈ filter (λ v, v = key) l) as Hv by (rewrite E; left).
    apply list_elem_of_filter in Hv as [-> Hv]. done.
  - intros H. assert (key ∈ filter (λ v, v = key) l) as Hv
      by (apply list_elem_of_filter; done).
    destruct (filter (λ v, v = key) l); [by apply elem_of_nil in Hv | simpl; lia].
Qed.

Section Scan.

(** A buffer scanned at the offsets [off 0 .. off (n-1)], which agree with
    the exact offsets [off'] and leave room for three bytes each. *)
Context (buf : list byte) (off off' : Z → Z) (n : Z).
Hypothesis buf_ok : slice_ok buf.
Hypothesis n_ok : n ≤ maxAlloc.
Hypothesis off_ok :
  ∀ k, 0 ≤ k < n → off k = off' k ∧ 0 ≤ off' k ∧ off' k + 3 ≤ len buf.

Lemma read3 k :
  0 ≤ k < n →
  index buf (off k) = Ok (byte_at buf (off' k + 0)) ∧
  index buf (int_add (off k) 1) = Ok (byte_at buf (off' k + 1)) ∧
  index buf (int_add (off k) 2) = Ok (byte_at buf (off' k + 2)).
Proof using buf_ok off_ok.
  intros Hk. destruct (off_ok k Hk) as (-> & H0 & H3).
  unfold slice_ok, maxAlloc in buf_ok.
  rewrite !int_add_small by (unfold min_int, max_int; lia).
  rewrite Z.add_0_r. repeat split; apply index_ok; lia.
Qed.

Lemma sum_loop :
  0 ≤ n →
  for_loop n (λ x, sum_step buf (off x)) (0, 0, 0) =
  Ok (sumZ (samples buf off' n 0), sumZ (samples buf off' n 1),
      sumZ (samples buf off' n 2)).
Proof using buf_ok n_ok off_ok.
  intros Hn.
  destruct (for_loop_inv
    (λ k acc, acc = (sumZ (samples buf off' k 0), sumZ (samples buf off' k 1),
                     sumZ (samples buf off' k 2)))
    (λ x, sum_step buf (off x)) n (0, 0, 0) Hn eq_refl) as (acc & -> & ->); [|done].
  intros k t Hk ->. destruct (read3 k Hk) as (Hr & Hg & Hb).
  eexists. split.
  - unfold sum_step. rewrite Hr, Hg, Hb. simpl. reflexivity.
  - rewrite !samples_snoc, !sumZ_app by lia. simpl.
    assert (∀ c, 0 ≤ sumZ (samples buf off' k c) ≤ 255 * k) as Hsum.
    { intros c. pose proof (sumZ_range _ (samples_range buf off' k c)) as H.
      rewrite samples_length in H. lia. }
    destruct (off_ok k Hk) as (_ & H0 & H3).
    unfold slice_ok, maxAlloc in buf_ok.
    pose proof (Hsum 0). pose proof (Hsum 1). pose proof (Hsum 2).
    pose proof (byte_at_range buf (off' k + 0)).
    pose proof (byte_at_range buf (off' k + 1)).
    pose proof (byte_at_range buf (off' k + 2)).
    unfold maxAlloc in n_ok.
    unfold u64_add. rewrite !(to_uint64_small (byte_at _ _)) by lia.
    rewrite !to_uint64_small by lia. f_equal; [f_equal|]; lia.
Qed.

Lemma min_loop :
  0 ≤ n →
  for_loop n (λ x, min_step buf (off x)) (255, 255, 255) =
  Ok (foldr Z.min 255 (samples buf off' n 0), foldr Z.min 255 (samples buf off' n 1),
      foldr Z.min 255 (samples buf off' n 2)).
Proof using buf_ok off_ok.
  intros Hn.
  destruct (for_loop_inv
    (λ k acc, acc = (foldr Z.min 255 (samples buf off' k 0),
                     foldr Z.min 255 (samples buf off' k 1),
                     foldr Z.min 255 (samples buf off' k 2)))
    (λ x, min_step buf (off x)) n (255, 255, 255) Hn eq_refl) as (acc & -> & ->); [|done].
  intros k t Hk ->. destruct (read3 k Hk) as (Hr & Hg & Hb).
  eexists. split.
  - unfold min_step. rewrite Hr. simpl. rewrite Hg. simpl. rewrite Hb. simpl. reflexivity.
  - rewrite !samples_snoc, !foldr_min_snoc by lia.
    f_equal; [f_equal|];
      match goal with |- (if ?a <? ?b then _ else _) = _ =>
        destruct (Z.ltb_spec a b); lia end.
Qed.

Lemma max_loop :
  0 ≤ n →
  for_loop n (λ x, max_step buf (off x)) (0, 0, 0) =
  Ok (foldr Z.max 0 (samples buf off' n 0), foldr Z.max 0 (samples buf off' n 1),
      foldr Z.max 0 (samples buf off' n 2)).
Proof using buf_ok off_ok.
  intros Hn.
  destruct (for_loop_inv
    (λ k acc, acc = (foldr Z.max 0 (samples buf off' k 0),
                     foldr Z.max 0 (samples buf off' k 1),
                     foldr Z.max 0 (samples buf off' k 2)))
    (λ x, max_step buf (off x)) n (0, 0, 0) Hn eq_refl) as (acc & -> & ->); [|done].
  intros k t Hk ->. destruct (read3 k Hk) as (Hr & Hg & Hb).
  eexists. split.
  - unfold max_step. rewrite Hr. simpl. rewrite Hg. simpl. rewrite Hb. simpl. reflexivity.
  - rewrite !samples_snoc, !foldr_max_snoc by lia.
    f_equal; [f_equal|];
      match goal with |- (if ?a >? ?b then _ else _) = _ =>
        rewrite Z.gtb_ltb; destruct (Z.ltb_spec b a); lia end.
Qed.

Lemma count_loop :
  0 ≤ n →
  ∃ colorCount,
    for_loop n (λ x, count_step buf (off x)) ∅ = Ok colorCount ∧
    ∀ key, colorCount !! key =
           if decide (occurrences key (packed_pixels buf off' n) = 0) then None
           else Some (occurrences key (packed_pixels buf off' n)).
Proof using buf_ok n_ok off_ok.
  intros Hn.
  apply (for_loop_inv
    (λ k (m : gmap Z Z), ∀ key, m !! key =
       if decide (occurrences key (packed_pixels buf off' k) = 0) then None
       else Some (occurrences key (packed_pixels buf off' k)))
    (λ x, count_step buf (off x)) n ∅ Hn).
  - intros key. by rewrite lookup_empty.
  - intros k m Hk Hm. destruct (read3 k Hk) as (Hr & Hg & Hb).
    eexists. split.
    + unfold count_step. rewrite Hr. simpl. rewrite Hg. simpl. rewrite Hb. simpl.
      reflexivity.
    + fold (packed_at buf (off' k)). intros key.
      rewrite packed_pixels_snoc, occurrences_snoc by lia.
      pose proof (occurrences_le key (packed_pixels buf off' k)) as Hle.
      rewrite packed_pixels_length in Hle.
      unfold incr. rewrite lookup_insert. rewrite Hm.
      unfold maxAlloc in n_ok.
      destruct (decide (packed_at buf (off' k) = key)) as [Heq|Hne].
      * rewrite Heq.
        destruct (decide (occurrences key (packed_pixels buf off' k) = 0)) as [E0|E0].
        -- rewrite E0. simpl. by destruct (decide (0 + 1 = 0)).
        -- destruct (decide (occurrences key (packed_pixels buf off' k) + 1 = 0));
             [lia|]. simpl. f_equal.
           apply int_add_small; unfold min_int, max_int; lia.
      * by rewrite Z.add_0_r.
Qed.

End Scan.

(** ** The reducers, as functions *)

Lemma row_bounds row width :
  slice_ok row → 3 * width ≤ len row → width ≤ maxAlloc.
Proof. unfold slice_ok, maxAlloc. lia. Qed.

Lemma col_bounds buf col width height :
  slice_ok buf → 0 ≤ col < width → 1 ≤ height → width * height * 3 ≤ len buf →
  height ≤ maxAlloc.
Proof.
  unfold slice_ok. intros Hs Hc Hh Hl.
  assert (height * 1 ≤ height * width) by (apply Z.mul_le_mono_nonneg_l; lia). lia.
Qed.

Lemma sum_finish_mean n l0 l1 l2 :
  1 ≤ n ≤ maxAlloc →
  length l0 = Z.to_nat n → length l1 = Z.to_nat n → length l2 = Z.to_nat n →
  Forall (λ v, 0 ≤ v ≤ 255) l0 → Forall (λ v, 0 ≤ v ≤ 255) l1 →
  Forall (λ v, 0 ≤ v ≤ 255) l2 →
  sum_finish (to_uint64 n) (sumZ l0, sumZ l1, sumZ l2) =
    Ok (mkRGBA (mean l0) (mean l1) (mean l2) 255) ∧
  0 ≤ mean l0 ≤ 255 ∧ 0 ≤ mean l1 ≤ 255 ∧ 0 ≤ mean l2 ≤ 255.
Proof.
  intros Hn E0 E1 E2 F0 F1 F2. unfold maxAlloc in Hn.
  assert (∀ l, length l = Z.to_nat n → Forall (λ v, 0 ≤ v ≤ 255) l →
            mean l = sumZ l / n ∧ 0 ≤ sumZ l / n ≤ 255) as Hmean.
  { intros l El Fl. pose proof (sumZ_range l Fl) as Hs. unfold mean.
    rewrite El, Z2Nat.id in * by lia.
    rewrite Z.quot_div_nonneg by lia. split; [done|]. split.
    - apply Z.div_pos; lia.
    - apply Z.div_le_upper_bound; lia. }
  destruct (Hmean l0 E0 F0) as (-> & ?), (Hmean l1 E1 F1) as (-> & ?),
           (Hmean l2 E2 F2) as (-> & ?).
  split; [|done].
  unfold sum_finish, u64_div. rewrite to_uint64_small by lia.
  destruct (Z.eqb_spec n 0); [lia|]. simpl.
  by rewrite !to_uint8_small by lia.
Qed.

Lemma AverageColor_spec row width :
  slice_ok row → 1 ≤ width → 3 * width ≤ len row →
  AverageColor row width =
    Ok (mkRGBA (mean (row_channel row width 0)) (mean (row_channel row width 1))
               (mean (row_channel row width 2)) 255) ∧
  0 ≤ mean (row_channel row width 0) ≤ 255 ∧
  0 ≤ mean (row_channel row width 1) ≤ 255 ∧
  0 ≤ mean (row_channel row width 2) ≤ 255.
Proof.
  intros Hs Hw Hl. pose proof (row_bounds row width Hs Hl) as Hn.
  rewrite AverageColor_unfold.
  rewrite (sum_loop row row_off row_offset width Hs Hn) by
    (try lia; intros k Hk; by apply (row_off_ok row width)).
  simpl. unfold row_channel.
  apply sum_finish_mean; try lia; auto using samples_length, samples_range.
Qed.

Lemma AverageColorCol_spec buf col width height :
  slice_ok buf → 1 ≤ height → 0 ≤ col < width → width * height * 3 ≤ len buf →
  AverageColorCol buf col width height =
    Ok (mkRGBA (mean (col_channel buf col width height 0))
               (mean (col_channel buf col width height 1))
               (mean (col_channel buf col width height 2)) 255) ∧
  0 ≤ mean (col_channel buf col width height 0) ≤ 255 ∧
  0 ≤ mean (col_channel buf col width height 1) ≤ 255 ∧
  0 ≤ mean (col_channel buf col width height 2) ≤ 255.
Proof.
  intros Hs Hh Hc Hl. pose proof (col_bounds buf col width height Hs Hc Hh Hl) as Hn.
  rewrite AverageColorCol_unfold.
  rewrite (sum_loop buf (col_off width col) (col_offset width col) height Hs Hn) by
    (try lia; intros k Hk; by apply (col_off_ok buf col width height)).
  simpl. unfold col_channel.
  apply sum_finish_mean; try lia; auto using samples_length, samples_range.
Qed.

Lemma samples_nonempty buf off n c : 1 ≤ n → samples buf off n c ≠ [].
Proof.
  intros Hn E. apply (f_equal length) in E. rewrite samples_length in E.
  simpl in E. lia.
Qed.

Lemma MinColor_spec row width :
  slice_ok row → 1 ≤ width → 3 * width ≤ len row →
  MinColor row width =
    Ok (mkRGBA (minimum (row_channel row width 0)) (minimum (row_channel row width 1))
               (minimum (row_channel row width 2)) 255).
Proof.
  intros Hs Hw Hl. rewrite MinColor_unfold.
  rewrite (min_loop row row_off row_offset width Hs) by
    (try lia; intros k Hk; by apply (row_off_ok row width)).
  simpl. unfold row_channel.
  by rewrite !foldr_min_255 by auto using samples_nonempty, samples_range.
Qed.

Lemma MaxColor_spec row width :
  slice_ok row → 1 ≤ width → 3 * width ≤ len row →
  MaxColor row width =
    Ok (mkRGBA (maximum (row_channel row width 0)) (maximum (row_channel row width 1))
               (maximum (row_channel row width 2)) 255).
Proof.
  intros Hs Hw Hl. rewrite MaxColor_unfold.
  rewrite (max_loop row row_off row_offset width Hs) by
    (try lia; intros k Hk; by apply (row_off_ok row width)).
  simpl. unfold row_channel.
  by rewrite !foldr_max_0 by auto using samples_nonempty, samples_range.
Qed.

Lemma MinColorCol_spec buf col width height :
  slice_ok buf → 1 ≤ height → 0 ≤ col < width → width * height * 3 ≤ len buf →
  MinColorCol buf col width height =
    Ok (mkRGBA (minimum (col_channel buf col width height 0))
               (minimum (col_channel buf col width height 1))
               (minimum (col_channel buf col width height 2)) 255).
Proof.
  intros Hs Hh Hc Hl. rewrite MinColorCol_unfold.
  rewrite (min_loop buf (col_off width col) (col_offset width col) height Hs) by
    (try lia; intros k Hk; by apply (col_off_ok buf col width height)).
  simpl. unfold col_channel.
  by rewrite !foldr_min_255 by auto using samples_nonempty, samples_range.
Qed.

Lemma MaxColorCol_spec buf col width height :
  slice_ok buf → 1 ≤ height → 0 ≤ col < width → width * height * 3 ≤ len buf →
  MaxColorCol buf col width height =
    Ok (mkRGBA (maximum (col_channel buf col width height 0))
               (maximum (col_channel buf col width height 1))
               (maximum (col_channel buf col width height 2)) 255).
Proof.
  intros Hs Hh Hc Hl. rewrite MaxColorCol_unfold.
  rewrite (max_loop buf (col_off width col) (col_offset width col) height Hs) by
    (try lia; intros k Hk; by apply (col_off_ok buf col width height)).
  simpl. unfold col_channel.
  by rewrite !foldr_max_0 by auto using samples_nonempty, samples_range.
Qed.

(** ** Packed keys *)

Lemma testbit_byte_high v n : 0 ≤ v ≤ 255 → 8 ≤ n → Z.testbit v n = false.
Proof.
  intros Hv Hn. destruct (decide (v = 0)) as [->|Hne]; [apply Z.bits_0|].
  apply Z.bits_above_log2; [lia|].
  apply Z.log2_lt_pow2; [lia|].
  apply Z.lt_le_trans with (2 ^ 8); [lia|]. apply Z.pow_le_mono_r; lia.
Qed.

Lemma testbit_255 n : 0 ≤ n → Z.testbit 255 n = (n <? 8).
Proof.
  intros Hn. change 255 with (Z.ones 8).
  destruct (Z.ltb_spec n 8).
  - apply Z.ones_spec_low. lia.
  - apply Z.ones_spec_high. lia.
Qed.

Lemma pack_value r g b :
  0 ≤ r ≤ 255 → 0 ≤ g ≤ 255 → 0 ≤ b ≤ 255 →
  pack r g b = Z.lor (Z.lor (Z.shiftl r 16) (Z.shiftl g 8)) b.
Proof.
  intros Hr Hg Hb. unfold pack.
  rewrite (to_uint32_small r), (to_uint32_small g), (to_uint32_small b) by lia.
  rewrite !Z.shiftl_mul_pow2 by lia.
  by rewrite !to_uint32_small by lia.
Qed.

Lemma unpack_pack r g b :
  0 ≤ r ≤ 255 → 0 ≤ g ≤ 255 → 0 ≤ b ≤ 255 →
  unpack (pack r g b) = mkRGBA r g b 255.
Proof.
  intros Hr Hg Hb. rewrite pack_value by done. unfold unpack.
  assert (Z.land (Z.shiftr (Z.lor (Z.lor (Z.shiftl r 16) (Z.shiftl g 8)) b) 16) 255 = r) as ->.
  { apply Z.bits_inj'. intros n Hn.
    rewrite Z.land_spec, Z.shiftr_spec, !Z.lor_spec, !Z.shiftl_spec, testbit_255 by lia.
    replace (n + 16 - 16) with n by lia.
    rewrite (testbit_byte_high g (n + 16 - 8)), (testbit_byte_high b (n + 16)) by lia.
    rewrite !orb_false_r. destruct (Z.ltb_spec n 8).
    - by rewrite andb_true_r.
    - rewrite andb_false_r. symmetry. by apply testbit_byte_high. }
  assert (Z.land (Z.shiftr (Z.lor (Z.lor (Z.shiftl r 16) (Z.shiftl g 8)) b) 8) 255 = g) as ->.
  { apply Z.bits_inj'. intros n Hn.
    rewrite Z.land_spec, Z.shiftr_spec, !Z.lor_spec, !Z.shiftl_spec, testbit_255 by lia.
    replace (n + 8 - 8) with n by lia.
    rewrite (testbit_byte_high b (n + 8)) by lia.
    rewrite orb_false_r. destruct (Z.ltb_spec n 8).
    - rewrite andb_true_r. rewrite (Z.testbit_neg_r r) by lia. done.
    - rewrite andb_false_r. symmetry. by apply testbit_byte_high. }
  assert (Z.land (Z.lor (Z.lor (Z.shiftl r 16) (Z.shiftl g 8)) b) 255 = b) as ->.
  { apply Z.bits_inj'. intros n Hn.
    rewrite Z.land_spec, !Z.lor_spec, !Z.shiftl_spec, testbit_255 by lia.
    destruct (Z.ltb_spec n 8).
    - rewrite andb_true_r. rewrite (Z.testbit_neg_r r), (Z.testbit_neg_r g) by lia. done.
    - rewrite andb_false_r. symmetry. by apply testbit_byte_high. }
  by rewrite !to_uint8_small by lia.
Qed.

(** ** The scan for the highest count *)

Lemma most_common_scan_unfold es : most_common_scan es = fold_left scan_step es (0, 0).
Proof. reflexivity. Qed.

Lemma scan_invariant es : ∀ mc mk,
  let r := fold_left scan_step es (mc, mk) in
  mc ≤ r.1 ∧ (∀ k c, (k, c) ∈ es → c ≤ r.1) ∧ (r = (mc, mk) ∨ (r.2, r.1) ∈ es).
Proof.
  induction es as [|[k0 c0] es IH]; intros mc mk; simpl.
  - split; [lia|]. split; [|by left]. intros k c H. by apply elem_of_nil in H.
  - rewrite Z.gtb_ltb. destruct (Z.ltb_spec mc c0) as [Hlt|Hge].
    + destruct (IH c0 k0) as (H1 & H2 & H3). split; [lia|]. split.
      * intros k c Hkc. apply elem_of_cons in Hkc as [[= -> ->]|Hkc]; [done|eauto].
      * right. destruct H3 as [->|H3]; [left | by right].
    + destruct (IH mc mk) as (H1 & H2 & H3). split; [lia|]. split.
      * intros k c Hkc. apply elem_of_cons in Hkc as [[= -> ->]|Hkc]; [lia|eauto].
      * destruct H3 as [H3|H3]; [by left | right; by right].
Qed.

Lemma most_common_scan_max es :
  (∃ k c, (k, c) ∈ es ∧ 0 < c) →
  let r := most_common_scan es in
  (r.2, r.1) ∈ es ∧ ∀ k c, (k, c) ∈ es → c ≤ r.1.
Proof.
  intros (k & c & Hkc & Hc). rewrite most_common_scan_unfold.
  destruct (scan_invariant es 0 0) as (H1 & H2 & H3). simpl. split; [|done].
  destruct H3 as [H3|H3]; [|done].
  specialize (H2 k c Hkc). rewrite H3 in H2. simpl in H2. lia.
Qed.

(** Among the entries of highest count the scan keeps the one it meets
    first. *)
Lemma scan_first_max es : ∀ mc mk,
  (fold_left scan_step es (mc, mk) = (mc, mk) ∧ ∀ k c, (k, c) ∈ es → c ≤ mc) ∨
  (∃ l1 l2 k c,
     es = l1 ++ (k, c) :: l2 ∧ fold_left scan_step es (mc, mk) = (c, k) ∧ mc < c ∧
     (∀ k' c', (k', c') ∈ l1 → c' < c) ∧ (∀ k' c', (k', c') ∈ l2 → c' ≤ c)).
Proof.
  induction es as [|[k0 c0] es IH]; intros mc mk.
  - left. split; [done|]. intros k c H. by apply elem_of_nil in H.
  - cbn [fold_left scan_step]. rewrite Z.gtb_ltb.
    destruct (Z.ltb_spec mc c0) as [Hlt|Hge].
    + right. destruct (IH c0 k0) as [[E Hall]|(l1 & l2 & k & c & -> & E & Hc & H1 & H2)].
      * exists [], es, k0, c0. split; [done|]. split; [done|]. split; [done|].
        split; [|done]. intros k' c' H. by apply elem_of_nil in H.
      * exists ((k0, c0) :: l1), l2, k, c. split; [done|]. split; [done|].
        split; [lia|]. split; [|done].
        intros k' c' H. apply elem_of_cons in H as [[= -> ->]|H]; [done | eauto].
    + destruct (IH mc mk) as [[E Hall]|(l1 & l2 & k & c & -> & E & Hc & H1 & H2)].
      * left. split; [done|].
        intros k c H. apply elem_of_cons in H as [[= -> ->]|H]; [done | eauto].
      * right. exists ((k0, c0) :: l1), l2, k, c. split; [done|]. split; [done|].
        split; [done|]. split; [|done].
        intros k' c' H. apply elem_of_cons in H as [[= -> ->]|H]; [lia | eauto].
Qed.

Lemma most_common_scan_first_max es :
  (∃ k c, (k, c) ∈ es ∧ 0 < c) →
  ∃ l1 l2 k c,
    es = l1 ++ (k, c) :: l2 ∧ most_common_scan es = (c, k) ∧
    (∀ k' c', (k', c') ∈ l1 → c' < c) ∧ (∀ k' c', (k', c') ∈ l2 → c' ≤ c).
Proof.
  intros (k & c & Hin & Hc). rewrite most_common_scan_unfold.
  destruct (scan_first_max es 0 0) as [[_ Hall]|(l1 & l2 & k' & c' & E & Hs & _ & H1 & H2)].
  - specialize (Hall k c Hin). lia.
  - exists l1, l2, k', c'. done.
Qed.

(** ** MostCommonColor *)

Lemma elem_of_range_order order (m : gmap Z Z) k c :
  range_order_valid order → (k, c) ∈ order m ↔ m !! k = Some c.
Proof.
  intros Hv. rewrite (Hv m). apply elem_of_map_to_list.
Qed.

Lemma elem_of_packed_pixels buf off n key :
  key ∈ packed_pixels buf off n ↔ ∃ k, 0 ≤ k < n ∧ key = packed_at buf (off k).
Proof.
  unfold packed_pixels. rewrite list_elem_of_fmap. split.
  - intros (k & -> & Hk). apply elem_of_seqZ in Hk. exists k. split; [lia|done].
  - intros (k & Hk & ->). exists k. split; [done|]. apply elem_of_seqZ. lia.
Qed.

Section MostCommon.

Context (order : gmap Z Z → list (Z * Z)) (buf : list byte) (off off' : Z → Z) (n : Z).
Hypothesis order_ok : range_order_valid order.
Hypothesis buf_ok : slice_ok buf.
Hypothesis n_ok : 1 ≤ n ≤ maxAlloc.
Hypothesis off_ok :
  ∀ k, 0 ≤ k < n → off k = off' k ∧ 0 ≤ off' k ∧ off' k + 3 ≤ len buf.

(** The key the two loops select occurs among the pixels and no key occurs
    more often. *)
Lemma most_common_loops :
  ∃ key,
    for_loop n (λ x, count_step buf (off x)) ∅
      ≫= (λ colorCount, Ok (unpack (most_common_scan (order colorCount)).2))
    = Ok (unpack key) ∧
    key ∈ packed_pixels buf off' n ∧
    ∀ key', occurrences key' (packed_pixels buf off' n)
            ≤ occurrences key (packed_pixels buf off' n).
Proof using order_ok buf_ok n_ok off_ok.
  destruct (count_loop buf off off' n buf_ok (proj2 n_ok) off_ok) as (m & Hm & Hlook);
    [lia|].
  set (pp := packed_pixels buf off' n) in *.
  assert (∀ k c, (k, c) ∈ order m ↔ (c = occurrences k pp ∧ 0 < c)) as Hes.
  { intros k c. rewrite elem_of_range_order by done. rewrite Hlook.
    pose proof (occurrences_le k pp).
    destruct (decide (occurrences k pp = 0)); split.
    - done.
    - intros [-> ?]. lia.
    - intros [= <-]. lia.
    - intros [-> ?]. done. }
  destruct (most_common_scan_max (order m)) as (Hin & Hmax).
  { exists (packed_at buf (off' 0)), (occurrences (packed_at buf (off' 0)) pp).
    assert (0 < occurrences (packed_at buf (off' 0)) pp) as Hpos.
    { apply occurrences_pos, elem_of_packed_pixels. exists 0. split; [lia|done]. }
    split; [|done]. by apply Hes. }
  exists (most_common_scan (order m)).2. rewrite Hm. simpl. split; [done|].
  apply Hes in Hin as [Hc Hpos]. split.
  - apply occurrences_pos. lia.
  - intros key'. pose proof (occurrences_le key' pp).
    destruct (decide (occurrences key' pp = 0)) as [->|Hne]; [lia|].
    rewrite <- Hc. apply (Hmax key'). apply Hes. lia.
Qed.

End MostCommon.

Lemma packed_at_bytes buf i :
  ∃ r g b, 0 ≤ r ≤ 255 ∧ 0 ≤ g ≤ 255 ∧ 0 ≤ b ≤ 255 ∧ packed_at buf i = pack r g b.
Proof.
  exists (byte_at buf (i + 0)), (byte_at buf (i + 1)), (byte_at buf (i + 2)).
  auto using byte_at_range.
Qed.

Lemma MostCommonColor_spec order row width :
  range_order_valid order → slice_ok row → 1 ≤ width → 3 * width ≤ len row →
  ∃ c, MostCommonColor order row width = Ok c ∧
       let key := pack (color.R c) (color.G c) (color.B c) in
       key ∈ packed_pixels row row_offset width ∧
       ∀ key', occurrences key' (packed_pixels row row_offset width)
               ≤ occurrences key (packed_pixels row row_offset width).
Proof.
  intros Ho Hs Hw Hl. pose proof (row_bounds row width Hs Hl) as Hn.
  destruct (most_common_loops order row row_off row_offset width Ho Hs) as (key & E & Hin & Hmax).
  { lia. }
  { intros k Hk. by apply (row_off_ok row width). }
  exists (unpack key). rewrite MostCommonColor_unfold. split; [done|].
  pose proof Hin as Hin'. apply elem_of_packed_pixels in Hin' as (k & Hk & ->).
  destruct (packed_at_bytes row (row_offset k)) as (r & g & b & Hr & Hg & Hb & Ep).
  rewrite Ep in *. cbv zeta. rewrite unpack_pack by done. done.
Qed.

Lemma MostCommonColorCol_spec order buf col width height :
  range_order_valid order → slice_ok buf → 1 ≤ height → 0 ≤ col < width →
  width * height * 3 ≤ len buf →
  ∃ c, MostCommonColorCol order buf col width height = Ok c ∧
       let key := pack (color.R c) (color.G c) (color.B c) in
       key ∈ packed_pixels buf (col_offset width col) height ∧
       ∀ key', occurrences key' (packed_pixels buf (col_offset width col) height)
               ≤ occurrences key (packed_pixels buf (col_offset width col) height).
Proof.
  intros Ho Hs Hh Hc Hl. pose proof (col_bounds buf col width height Hs Hc Hh Hl) as Hn.
  destruct (most_common_loops order buf (col_off width col) (col_offset width col)
              height Ho Hs) as (key & E & Hin & Hmax).
  { lia. }
  { intros k Hk. by apply (col_off_ok buf col width height). }
  exists (unpack key). rewrite MostCommonColorCol_unfold. split; [done|].
  pose proof Hin as Hin'. apply elem_of_packed_pixels in Hin' as (k & Hk & ->).
  destruct (packed_at_bytes buf (col_offset width col k)) as (r & g & b & Hr & Hg & Hb & Ep).
  rewrite Ep in *. cbv zeta. rewrite unpack_pack by done. done.
Qed.

(** ** Images *)

Lemma Set_Bounds p x y c : image.Bounds (image.Set_ p x y c) = image.Bounds p.
Proof. unfold image.Set_. by destruct (image.In x y (image.Bounds p)). Qed.

Lemma Set_outside p x y c :
  image.In x y (image.Bounds p) = false → image.Set_ p x y c = p.
Proof. unfold image.Set_. by intros ->. Qed.

Lemma In_Rect x y w h :
  0 ≤ w → 0 ≤ h →
  image.In x y (image.Rect 0 0 w h) = (0 <=? x) && (x <? w) && (0 <=? y) && (y <? h).
Proof.
  intros Hw Hh. unfold image.Rect.
  destruct (Z.gtb_spec 0 w), (Z.gtb_spec 0 h); try lia. done.
Qed.

Lemma Rect_nonneg w h :
  0 ≤ w → 0 ≤ h →
  image.Rect 0 0 w h = image.mkRectangle (image.Pt 0 0) (image.Pt w h).
Proof.
  intros Hw Hh. unfold image.Rect.
  destruct (Z.gtb_spec 0 w), (Z.gtb_spec 0 h); try lia. done.
Qed.

Lemma Dx_Rect w h : 0 ≤ w ≤ max_int → 0 ≤ h → image.Dx (image.Rect 0 0 w h) = w.
Proof.
  intros Hw Hh. rewrite Rect_nonneg by lia. unfold image.Dx, int_sub.
  cbn [image.X image.Max image.Min]. rewrite Z.sub_0_r.
  apply wrap_int_small. unfold min_int, max_int in *. lia.
Qed.

Lemma Dy_Rect w h : 0 ≤ w → 0 ≤ h ≤ max_int → image.Dy (image.Rect 0 0 w h) = h.
Proof.
  intros Hw Hh. rewrite Rect_nonneg by lia. unfold image.Dy, int_sub.
  cbn [image.Y image.Max image.Min]. rewrite Z.sub_0_r.
  apply wrap_int_small. unfold min_int, max_int in *. lia.
Qed.

Lemma NewRGBA_Rect w h :
  1 ≤ w → 1 ≤ h → 4 * w * h ≤ maxAlloc →
  image.NewRGBA (image.Rect 0 0 w h) = Ok (image.mkImage (image.Rect 0 0 w h) ∅).
Proof.
  intros Hw Hh Hfit. unfold image.NewRGBA.
  assert (w ≤ maxAlloc ∧ h ≤ maxAlloc) as [Hw' Hh'] by (unfold maxAlloc in *; nia).
  unfold maxAlloc in *.
  rewrite Dx_Rect, Dy_Rect by (unfold max_int; lia).
  destruct (Z.ltb_spec w 0), (Z.ltb_spec h 0), (Z.gtb_spec (4 * w * h) (2 ^ 48));
    try lia. done.
Qed.

(** Cropping a canvas [w] by [h] to [w'] by [h']. *)
Lemma Empty_Rect w h : 1 ≤ w → 1 ≤ h →
  image.Empty (image.mkRectangle (image.Pt 0 0) (image.Pt w h)) = false.
Proof.
  intros Hw Hh. unfold image.Empty. cbn [image.X image.Y image.Min image.Max]. lia.
Qed.

Lemma Intersect_Rect w h w' h' :
  1 ≤ w → 1 ≤ h → 1 ≤ w' → 1 ≤ h' →
  image.Intersect (image.Rect 0 0 w' h') (image.Rect 0 0 w h) =
  image.Rect 0 0 (Z.min w w') (Z.min h h').
Proof.
  intros Hw Hh Hw' Hh'. unfold image.Intersect.
  rewrite !Rect_nonneg by lia. cbn [image.X image.Y image.Min image.Max].
  rewrite Z.ltb_irrefl.
  destruct (Z.gtb_spec w' w), (Z.gtb_spec h' h);
    rewrite Empty_Rect by lia; f_equal; f_equal; lia.
Qed.

Lemma SubImage_Rect pix w h w' h' :
  1 ≤ w → 1 ≤ h → 1 ≤ w' → 1 ≤ h' →
  image.SubImage (image.mkImage (image.Rect 0 0 w h) pix) (image.Rect 0 0 w' h') =
  image.mkImage (image.Rect 0 0 (Z.min w w') (Z.min h h')) pix.
Proof.
  intros Hw Hh Hw' Hh'. unfold image.SubImage. cbn [image.Bounds image.Pix].
  rewrite Intersect_Rect by done. rewrite Rect_nonneg by lia.
  by rewrite Empty_Rect by lia.
Qed.

(** ** One frame *)

Lemma slice_spec s lo hi :
  0 ≤ lo ≤ hi → hi ≤ len s →
  slice s lo hi = Ok (take (Z.to_nat (hi - lo)) (drop (Z.to_nat lo) s)) ∧
  len (take (Z.to_nat (hi - lo)) (drop (Z.to_nat lo) s)) = hi - lo.
Proof.
  intros Hlo Hhi. unfold slice, len in *. split.
  - destruct (Z.leb_spec 0 lo), (Z.leb_spec lo hi), (Z.leb_spec hi (Z.of_nat (length s)));
      try lia. done.
  - rewrite length_take, length_drop. lia.
Qed.

Lemma switch_mode_row_ok order mode row width :
  slice_ok row → 1 ≤ width → 3 * width ≤ len row →
  ∃ c, switch_mode_row order mode row width = Ok c.
Proof.
  intros Hs Hw Hl. unfold switch_mode_row.
  repeat case_decide.
  - eexists. apply AverageColor_spec; done.
  - eexists. apply MinColor_spec; done.
  - eexists. apply MaxColor_spec; done.
  - rewrite MostCommonColor_unfold.
    destruct (count_loop row row_off row_offset width Hs) as (m & -> & _).
    + by apply (row_bounds row).
    + intros k Hk. by apply (row_off_ok row width).
    + lia.
    + simpl. by eexists.
Qed.

Lemma switch_mode_col_ok order mode buf col width height :
  slice_ok buf → 1 ≤ height → 0 ≤ col < width → width * height * 3 ≤ len buf →
  ∃ c, switch_mode_col order mode buf col width height = Ok c.
Proof.
  intros Hs Hh Hc Hl. unfold switch_mode_col.
  repeat case_decide.
  - eexists. apply AverageColorCol_spec; done.
  - eexists. apply MinColorCol_spec; done.
  - eexists. apply MaxColorCol_spec; done.
  - rewrite MostCommonColorCol_unfold.
    destruct (count_loop buf (col_off width col) (col_offset width col) height Hs)
      as (m & -> & _).
    + by apply (col_bounds buf col width).
    + intros k Hk. by apply (col_off_ok buf col width height).
    + lia.
    + simpl. by eexists.
Qed.

Lemma line_outside_In_h img frameIdx y :
  line_outside false img frameIdx → image.In frameIdx y (image.Bounds img) = false.
Proof. unfold line_outside, image.In. lia. Qed.

Lemma line_outside_In_v img frameIdx x :
  line_outside true img frameIdx → image.In x frameIdx (image.Bounds img) = false.
Proof. unfold line_outside, image.In. lia. Qed.

Section Frame.

Context (order : gmap Z Z → list (Z * Z)) (mode : string) (vertical : bool).
Context (width height : Z).
Hypothesis width_pos : 1 ≤ width.
Hypothesis height_pos : 1 ≤ height.
Hypothesis frame_fits : width * height * 3 ≤ maxAlloc.

(** A full frame always gives a line; the bounds of the canvas stay, and
    a line outside them leaves the canvas as it is. *)
Lemma process_frame_ok frameBuf frameIdx img :
  len frameBuf = width * height * 3 →
  ∃ img', process_frame order mode vertical width height frameBuf frameIdx img = Ok img' ∧
          image.Bounds img' = image.Bounds img ∧
          (line_outside vertical img frameIdx → img' = img).
Proof using width_pos height_pos frame_fits.
  intros Hlen. unfold process_frame.
  assert (slice_ok frameBuf) as Hs by (unfold slice_ok; lia).
  destruct vertical.
  - apply (for_loop_inv (λ _ t, image.Bounds t = image.Bounds img ∧
                                 (line_outside true img frameIdx → t = img)));
      [lia | done |].
    intros x t Hx [Hb Ho].
    destruct (switch_mode_col_ok order mode frameBuf x width height) as (c & ->);
      [done | done | done | lia |].
    simpl. eexists. split; [done|]. rewrite Set_Bounds. split; [done|].
    intros Hout. rewrite (Ho Hout). apply Set_outside. by apply line_outside_In_v.
  - apply (for_loop_inv (λ _ t, image.Bounds t = image.Bounds img ∧
                                 (line_outside false img frameIdx → t = img)));
      [lia | done |].
    intros y t Hy [Hb Ho].
    assert (0 ≤ y * width) by nia.
    assert (y * width * 3 + width * 3 ≤ width * height * 3) by nia.
    unfold maxAlloc in frame_fits.
    rewrite (int_mul_small y), (int_mul_small (y * width)), (int_mul_small width),
      int_add_small by (unfold min_int, max_int; lia).
    destruct (slice_spec frameBuf (y * width * 3) (y * width * 3 + width * 3))
      as [-> Hrow]; [lia | lia |].
    simpl.
    destruct (switch_mode_row_ok order mode
                (take (Z.to_nat (y * width * 3 + width * 3 - y * width * 3))
                      (drop (Z.to_nat (y * width * 3)) frameBuf)) width) as (c & ->).
    + unfold slice_ok, maxAlloc. lia.
    + done.
    + lia.
    + simpl. eexists. split; [done|]. rewrite Set_Bounds. split; [done|].
      intros Hout. rewrite (Ho Hout). apply Set_outside. by apply line_outside_In_h.
Qed.

End Frame.

(** ** The frame loop *)

Lemma ReadFull_full stream ending n :
  0 ≤ n → n ≤ len stream →
  ReadFull stream ending n =
  ReadFrame (take (Z.to_nat n) stream) (drop (Z.to_nat n) stream).
Proof.
  intros Hn Hl. unfold ReadFull. destruct (Z.leb_spec n (len stream)); [done | lia].
Qed.

Lemma ReadFull_short stream n :
  len stream < n →
  ReadFull stream EndOfFile n = ReadEOF ∨ ReadFull stream EndOfFile n = ReadUnexpectedEOF.
Proof.
  intros Hl. unfold ReadFull. destruct (Z.leb_spec n (len stream)); [lia|].
  destruct (len stream =? 0); auto.
Qed.

Lemma ReadFull_empty n : 0 < n → ReadFull [] EndOfFile n = ReadEOF.
Proof.
  intros Hn. unfold ReadFull. change (len []) with 0.
  destruct (Z.leb_spec n 0); [lia | done].
Qed.

Lemma ReadFull_partial stream n :
  0 < len stream < n → ReadFull stream EndOfFile n = ReadUnexpectedEOF.
Proof.
  intros Hl. unfold ReadFull. destruct (Z.leb_spec n (len stream)); [lia|].
  destruct (Z.eqb_spec (len stream) 0); [lia | done].
Qed.

Lemma len_drop (s : list byte) n : 0 ≤ n ≤ len s → len (drop (Z.to_nat n) s) = len s - n.
Proof. unfold len. rewrite length_drop. lia. Qed.

Lemma len_take (s : list byte) n : 0 ≤ n ≤ len s → len (take (Z.to_nat n) s) = n.
Proof. unfold len. rewrite length_take. lia. Qed.

Section Loop.

Context (order : gmap Z Z → list (Z * Z)) (mode : string) (vertical : bool).
Context (width height fs : Z).
Hypothesis fs_nonneg : 0 ≤ fs.

Local Abbreviation frames := (process_frames order mode vertical width height fs).
Local Abbreviation loop := (λ fuel, frame_loop order fuel mode vertical width height fs).

(** [M] full reads: the loop does what [process_frames] does and goes on
    with the rest of the stream. *)
Lemma frame_loop_frames ending (M : nat) : ∀ fuel stream img idx,
  Z.of_nat M * fs ≤ len stream → 0 ≤ idx → idx + Z.of_nat M ≤ max_int →
  loop (M + fuel)%nat ending stream img idx =
  img' ← frames M stream idx img;
  loop fuel ending (drop (M * Z.to_nat fs) stream) img' (idx + Z.of_nat M).
Proof using fs_nonneg.
  induction M as [|M IH]; intros fuel stream img idx Hlen Hidx Hmax.
  - simpl. by rewrite Z.add_0_r.
  - change (Datatypes.S M + fuel)%nat with (Datatypes.S (M + fuel)).
    cbn [frame_loop process_frames].
    rewrite ReadFull_full by nia.
    destruct (process_frame order mode vertical width height
                (take (Z.to_nat fs) stream) idx img) as [img'| | |]; simpl; try done.
    rewrite int_add_small by (unfold min_int, max_int in *; lia).
    rewrite IH.
    + rewrite drop_drop.
      replace (idx + 1 + Z.of_nat M) with (idx + Z.of_nat (Datatypes.S M)) by lia.
      done.
    + rewrite len_drop by nia. nia.
    + lia.
    + lia.
Qed.

(** The end of the stream, clean or in the middle of a frame, ends the
    loop with the canvas and the frame count as they are. *)
Lemma frame_loop_end fuel stream img idx :
  len stream < fs →
  loop (Datatypes.S fuel) EndOfFile stream img idx = Ok (img, idx).
Proof.
  intros Hl. cbn [frame_loop].
  by destruct (ReadFull_short stream fs Hl) as [-> | ->].
Qed.

Lemma frame_loop_run (M : nat) fuel stream img idx p :
  len stream = Z.of_nat M * fs + p → 0 ≤ p < fs → (M < fuel)%nat →
  0 ≤ idx → idx + Z.of_nat M ≤ max_int →
  loop fuel EndOfFile stream img idx =
  img' ← frames M stream idx img; Ok (img', idx + Z.of_nat M).
Proof using fs_nonneg.
  intros Hlen Hp Hfuel Hidx Hmax.
  replace fuel with (M + Datatypes.S (fuel - M - 1))%nat by lia.
  rewrite frame_loop_frames by lia.
  destruct (frames M stream idx img) as [img'| | |]; simpl; try done.
  apply frame_loop_end. unfold len in *. rewrite length_drop. nia.
Qed.

(** [process_frames] reads the first [M] frames only. *)
Lemma process_frames_prefix (M : nat) : ∀ s1 s2 idx img,
  take (M * Z.to_nat fs) s1 = take (M * Z.to_nat fs) s2 →
  frames M s1 idx img = frames M s2 idx img.
Proof.
  induction M as [|M IH]; intros s1 s2 idx img Htake; [done|].
  cbn [process_frames].
  assert (take (Z.to_nat fs) s1 = take (Z.to_nat fs) s2) as ->.
  { apply (f_equal (take (Z.to_nat fs))) in Htake.
    rewrite !take_take in Htake.
    by replace (Z.to_nat fs `min` (Datatypes.S M * Z.to_nat fs))%nat
      with (Z.to_nat fs) in Htake by lia. }
  destruct (process_frame order mode vertical width height
              (take (Z.to_nat fs) s2) idx img) as [img'| | |]; simpl; try done.
  apply IH.
  apply (f_equal (drop (Z.to_nat fs))) in Htake.
  rewrite !take_drop_commute.
  by replace (Z.to_nat fs + M * Z.to_nat fs)%nat
    with (Datatypes.S M * Z.to_nat fs)%nat by lia.
Qed.

Lemma process_frames_app (M1 M2 : nat) : ∀ stream idx img,
  0 ≤ idx → idx + Z.of_nat M1 ≤ max_int →
  frames (M1 + M2) stream idx img =
  img' ← frames M1 stream idx img;
  frames M2 (drop (M1 * Z.to_nat fs) stream) (idx + Z.of_nat M1) img'.
Proof.
  induction M1 as [|M1 IH]; intros stream idx img Hidx Hmax.
  - simpl. by rewrite Z.add_0_r.
  - change (Datatypes.S M1 + M2)%nat with (Datatypes.S (M1 + M2)).
    cbn [process_frames].
    destruct (process_frame order mode vertical width height
                (take (Z.to_nat fs) stream) idx img) as [img'| | |]; simpl; try done.
    rewrite int_add_small by (unfold min_int, max_int in *; lia).
    rewrite IH by lia. rewrite drop_drop.
    by replace (idx + 1 + Z.of_nat M1) with (idx + Z.of_nat (Datatypes.S M1)) by lia.
Qed.

End Loop.

Lemma process_frames_ok order mode vertical width height (M : nat) :
  1 ≤ width → 1 ≤ height → width * height * 3 ≤ maxAlloc →
  ∀ stream idx img,
    Z.of_nat M * (width * height * 3) ≤ len stream → 0 ≤ idx → idx + Z.of_nat M ≤ max_int →
    ∃ img', process_frames order mode vertical width height (width * height * 3)
              M stream idx img = Ok img' ∧
            image.Bounds img' = image.Bounds img ∧
            (line_outside vertical img idx → img' = img).
Proof.
  intros Hw Hh Hfit. induction M as [|M IH]; intros stream idx img Hlen Hidx Hmax.
  - exists img. done.
  - cbn [process_frames].
    destruct (process_frame_ok order mode vertical width height Hw Hh Hfit
                (take (Z.to_nat (width * height * 3)) stream) idx img)
      as (img1 & -> & Hb1 & Ho1).
    { apply len_take. nia. }
    simpl. rewrite int_add_small by (unfold min_int, max_int in *; lia).
    destruct (IH (drop (Z.to_nat (width * height * 3)) stream) (idx + 1) img1)
      as (img2 & -> & Hb2 & Ho2).
    { rewrite len_drop by nia. nia. }
    { lia. }
    { lia. }
    exists img2. split; [done|]. split; [congruence|].
    intros Hout. rewrite <- (Ho1 Hout). apply Ho2.
    unfold line_outside in *. rewrite Hb1. destruct vertical; lia.
Qed.

(** ** From the probe to the cropped canvas *)

Section Run.

Context (order : gmap Z Z → list (Z * Z)) (mode : string) (vertical : bool).
Context (env : Env) (width height frameCount : Z).
Hypothesis run : valid_run env vertical width height frameCount.

Lemma valid_run_bounds :
  width ≤ maxAlloc ∧ height ≤ maxAlloc ∧ maxFrames frameCount ≤ maxAlloc.
Proof using run.
  destruct run as [_ _ _ Hw Hh Hc [Hfs Hcv] _ _]. unfold maxAlloc in *.
  repeat split; destruct vertical; nia.
Qed.

(** A stream of [M] full frames followed by [p] bytes of a further one. *)
Lemma finalImage_run (M : nat) p fuel :
  len (stdout env) = Z.of_nat M * (width * height * 3) + p →
  0 ≤ p < width * height * 3 →
  (M < fuel)%nat → Z.of_nat M ≤ max_int →
  ∃ canvas,
    process_frames order mode vertical width height (width * height * 3) M (stdout env) 0
      (image.mkImage (canvas_rect vertical width height frameCount) ∅) = Ok canvas ∧
    image.Bounds canvas = canvas_rect vertical width height frameCount ∧
    finalImage order env mode vertical fuel =
      Ok (image.SubImage canvas (crop_rect vertical width height (Z.of_nat M)),
          (width, height)).
Proof using run.
  intros Hlen Hp Hfuel HM.
  destruct run as [probed frames_nonzero [Hpipe Hstart] width_pos height_pos capacity_pos
                     [Hfs Hcanvas] clean_end in_time].
  destruct (process_frames_ok order mode vertical width height M width_pos height_pos Hfs
              (stdout env) 0 (image.mkImage (canvas_rect vertical width height frameCount) ∅))
    as (canvas & Hc & Hb & _); [nia | lia | lia |].
  exists canvas. split; [done|]. split; [done|].
  unfold finalImage. rewrite probed.
  destruct (Z.eqb_spec frameCount 0); [done|].
  destruct (Z.eqb_spec height 0); [lia|]. simpl.
  rewrite Hpipe, Hstart. simpl.
  assert ((if vertical
           then image.NewRGBA (image.Rect 0 0 width (maxFrames frameCount))
           else image.NewRGBA (image.Rect 0 0 (maxFrames frameCount) height))
          = Ok (image.mkImage (canvas_rect vertical width height frameCount) ∅)) as ->.
  { unfold canvas_rect. destruct vertical; apply NewRGBA_Rect; lia. }
  simpl.
  assert (width * height ≤ width * height * 3) by nia.
  unfold maxAlloc in Hfs.
  rewrite (int_mul_small width), int_mul_small by (unfold min_int, max_int; lia).
  assert (make_bytes (width * height * 3) = Ok ()) as ->.
  { unfold make_bytes, maxAlloc.
    destruct (Z.ltb_spec (width * height * 3) 0), (Z.gtb_spec (width * height * 3) (2 ^ 48));
      try lia. done. }
  simpl. rewrite clean_end.
  rewrite (frame_loop_run order mode vertical width height (width * height * 3))
    with (M := M) (p := p) by lia.
  rewrite Hc. simpl. rewrite in_time. unfold crop_rect. by destruct vertical.
Qed.

(** The cropped canvas after [M >= 1] full frames and [p] further bytes:
    its bounds, and the canvas it is cut from. *)
Lemma finalImage_crop (M : nat) p fuel :
  len (stdout env) = Z.of_nat M * (width * height * 3) + p →
  0 ≤ p < width * height * 3 →
  (1 ≤ M < fuel)%nat → Z.of_nat M ≤ max_int →
  ∃ pix,
    process_frames order mode vertical width height (width * height * 3) M (stdout env) 0
      (image.mkImage (canvas_rect vertical width height frameCount) ∅) =
      Ok (image.mkImage (canvas_rect vertical width height frameCount) pix) ∧
    finalImage order env mode vertical fuel =
      Ok (image.mkImage
            (crop_rect vertical width height (Z.min (maxFrames frameCount) (Z.of_nat M)))
            pix,
          (width, height)).
Proof using run.
  intros Hlen Hp Hfuel HM.
  destruct (finalImage_run M p fuel Hlen Hp) as (canvas & Hc & Hb & Hf); [lia | lia |].
  destruct canvas as [bounds pix]. simpl in Hb. subst bounds.
  exists pix. split; [done|]. rewrite Hf. f_equal. f_equal.
  destruct run as [_ _ _ width_pos height_pos capacity_pos _ _ _].
  unfold canvas_rect, crop_rect. destruct vertical.
  - rewrite SubImage_Rect by lia. by rewrite Z.min_id.
  - rewrite SubImage_Rect by lia. by rewrite Z.min_id.
Qed.

End Run.

(** After the crop neither entry point looks at the stream again. *)
Lemma Generate_same_crop order env env' mode vertical resize fuel :
  finalImage order env mode vertical fuel = finalImage order env' mode vertical fuel →
  create_ok env = create_ok env' → encode_ok env = encode_ok env' →
  Generate order env mode vertical resize fuel =
  Generate order env' mode vertical resize fuel.
Proof.
  intros Hf Hc He. unfold Generate, write_png. by rewrite Hf, Hc, He.
Qed.

Lemma GenerateWithLegend_same_crop order addLegend env env' base_name mode vertical
    resize legend fuel :
  finalImage order env mode vertical fuel = finalImage order env' mode vertical fuel →
  create_ok env = create_ok env' → encode_ok env = encode_ok env' →
  GenerateWithLegend order addLegend env base_name mode vertical resize legend fuel =
  GenerateWithLegend order addLegend env' base_name mode vertical resize legend fuel.
Proof.
  intros Hf Hc He. unfold GenerateWithLegend, write_png. by rewrite Hf, Hc, He.
Qed.



Lemma valid_run_with_stdout env vertical width height frameCount bytes :
  valid_run env vertical width height frameCount →
  valid_run (with_stdout env bytes) vertical width height frameCount.
Proof. intros []. by constructor. Qed.

Lemma crop_rect_Dx vertical width height n :
  1 ≤ width ≤ maxAlloc → 1 ≤ height ≤ maxAlloc → 1 ≤ n ≤ maxAlloc →
  image.Dx (crop_rect vertical width height n) = (if vertical then width else n) ∧
  image.Dy (crop_rect vertical width height n) = (if vertical then n else height).
Proof.
  intros Hw Hh Hn. pose proof maxAlloc_int.
  unfold crop_rect. destruct vertical; rewrite Dx_Rect, Dy_Rect by lia; done.
Qed.


(** * The claims *)

(** C6, as the code has it: for a stream of exactly [N >= 1] full frames at
    geometry W x H, with [N] not above the capacity of the canvas, the
    cropped image is [N] long along the growing axis and has the video's
    dimension along the other: N wide and H tall when horizontal, W wide and
    N tall when vertical. *)
Theorem finalImage_dimensions order mode vertical env W H frameCount (N : nat) fuel :
  valid_run env vertical W H frameCount →
  len (stdout env) = Z.of_nat N * (W * H * 3) →
  1 ≤ Z.of_nat N ≤ maxFrames frameCount →
  (N < fuel)%nat →
  ∃ img, finalImage order env mode vertical fuel = Ok (img, (W, H)) ∧
         image.Dx (image.Bounds img) = (if vertical then W else Z.of_nat N) ∧
         image.Dy (image.Bounds img) = (if vertical then Z.of_nat N else H).
Proof.
  intros Hrun Hlen HN Hfuel.
  destruct (valid_run_bounds _ _ _ _ _ Hrun) as (Hw & Hh & Hc).
  pose proof maxAlloc_int.
  destruct (finalImage_crop order mode vertical env W H frameCount Hrun N 0 fuel)
    as (pix & _ & Hf); [lia | destruct Hrun; nia | lia | lia |].
  eexists. split; [exact Hf|]. cbn [image.Bounds].
  rewrite Z.min_r by lia.
  destruct Hrun. apply crop_rect_Dx; lia.
Qed.

Lemma finalImage_dimensions_witness :
  ∃ img, finalImage map_to_list
           (env_of 2 2 10 (bytes_of [0; 0; 0; 255; 255; 255; 10; 20; 30; 20; 10; 0]))
           "average" false 2 = Ok (img, (2, 2)) ∧
         image.Dx (image.Bounds img) = 1 ∧
         image.Dy (image.Bounds img) = 2.
Proof.
  apply (finalImage_dimensions map_to_list "average" false
           (env_of 2 2 10 (bytes_of [0; 0; 0; 255; 255; 255; 10; 20; 30; 20; 10; 0]))
           2 2 10 1 2).
  - constructor; try done; try lia; vm_compute; done.
  - reflexivity.
  - vm_compute. split; discriminate.
  - lia.
Defined.

(** C6 at N = 0: with no frame at all the crop is the empty image, which is
    0 by 0 and not 0 wide and H tall. *)
Lemma finalImage_no_frame :
  ∃ img, finalImage map_to_list (env_of 1 2 1 []) "average" false 1 = Ok (img, (1, 2)) ∧
         image.Dx (image.Bounds img) = 0 ∧
         image.Dy (image.Bounds img) = 0 ∧
         image.Dy (image.Bounds img) ≠ 2.
Proof. eexists. split; [vm_compute; reflexivity|]. vm_compute. done. Qed.

(** Frames whose line lies beyond the canvas leave it as it is. *)
Lemma process_frames_beyond order mode vertical width height frameCount (M : nat)
    stream idx pix :
  1 ≤ width → 1 ≤ height → width * height * 3 ≤ maxAlloc →
  1 ≤ maxFrames frameCount →
  Z.of_nat M * (width * height * 3) ≤ len stream →
  maxFrames frameCount ≤ idx → idx + Z.of_nat M ≤ max_int →
  process_frames order mode vertical width height (width * height * 3) M stream idx
    (image.mkImage (canvas_rect vertical width height frameCount) pix) =
  Ok (image.mkImage (canvas_rect vertical width height frameCount) pix).
Proof.
  intros Hw Hh Hfs Hc Hlen Hidx Hmax.
  destruct (process_frames_ok order mode vertical width height M Hw Hh Hfs stream idx
              (image.mkImage (canvas_rect vertical width height frameCount) pix))
    as (img' & -> & _ & Hout); [done | lia | done |].
  f_equal. apply Hout. unfold line_outside, canvas_rect. cbn [image.Bounds].
  destruct vertical; rewrite Rect_nonneg by lia; simpl; lia.
Qed.

(** C1, as the code has it: when the decoder yields more full frames than
    the canvas has lines, the run does not fail.  The canvas keeps the lines
    of the first [maxFrames frameCount] frames, the crop is exactly that
    long, and the run gives what the same run gives on the stream cut after
    those frames: the frames in excess are dropped without any report. *)
Theorem excess_frames_dropped order mode vertical env W H frameCount (N : nat) fuel :
  valid_run env vertical W H frameCount →
  len (stdout env) = Z.of_nat N * (W * H * 3) →
  maxFrames frameCount < Z.of_nat N ≤ max_int →
  (N < fuel)%nat →
  let cut := with_stdout env
               (take (Z.to_nat (maxFrames frameCount * (W * H * 3))) (stdout env)) in
  ∃ img, finalImage order env mode vertical fuel = Ok (img, (W, H)) ∧
         image.Dx (image.Bounds img) = (if vertical then W else maxFrames frameCount) ∧
         image.Dy (image.Bounds img) = (if vertical then maxFrames frameCount else H) ∧
         finalImage order cut mode vertical fuel = Ok (img, (W, H)) ∧
         (∀ resize, Generate order env mode vertical resize fuel =
                    Generate order cut mode vertical resize fuel) ∧
         (∀ addLegend base_name resize legend,
            GenerateWithLegend order addLegend env base_name mode vertical resize legend fuel =
            GenerateWithLegend order addLegend cut base_name mode vertical resize legend fuel).
Proof.
  intros Hrun Hlen HN Hfuel cut.
  destruct (valid_run_bounds _ _ _ _ _ Hrun) as (Hw & Hh & Hc).
  pose proof maxAlloc_int as Hint.
  pose proof (run_width_pos _ _ _ _ _ Hrun) as Hw1.
  pose proof (run_height_pos _ _ _ _ _ Hrun) as Hh1.
  pose proof (run_capacity_pos _ _ _ _ _ Hrun) as Hc1.
  destruct (run_fits _ _ _ _ _ Hrun) as [Hfs _].
  set (fs := W * H * 3) in *. assert (1 ≤ fs) by (unfold fs; nia).
  set (cap := maxFrames frameCount) in *.
  (* the run on the whole stream *)
  destruct (finalImage_crop order mode vertical env W H frameCount Hrun N 0 fuel)
    as (pixN & HpN & HfN); [lia | lia | lia | lia |].
  (* the run on the stream cut after [cap] frames *)
  assert (len (stdout cut) = Z.of_nat (Z.to_nat cap) * fs + 0) as Hlen'.
  { cbn [cut with_stdout stdout]. rewrite len_take by nia. lia. }
  destruct (finalImage_crop order mode vertical cut W H frameCount
              (valid_run_with_stdout _ _ _ _ _ _ Hrun) (Z.to_nat cap) 0 fuel)
    as (pixC & HpC & HfC); [done | lia | lia | lia |].
  fold cap fs in HpN, HfN, HpC, HfC.
  (* both canvases hold the same pixels *)
  assert (pixN = pixC) as ->.
  { replace N with (Z.to_nat cap + (N - Z.to_nat cap))%nat in HpN by lia.
    rewrite process_frames_app in HpN by lia.
    rewrite (process_frames_prefix order mode vertical W H fs (Z.to_nat cap)
               (stdout env) (stdout cut)) in HpN.
    - rewrite HpC in HpN. simpl in HpN.
      unfold fs in HpN.
      rewrite process_frames_beyond in HpN; try lia.
      + by injection HpN.
      + fold fs. unfold len in *. rewrite length_drop. nia.
    - cbn [cut with_stdout stdout]. rewrite take_take. f_equal. nia. }
  exists (image.mkImage (crop_rect vertical W H cap) pixC).
  rewrite Z.min_l in HfN by lia. rewrite Z.min_l in HfC by lia.
  split; [done|]. cbn [image.Bounds].
  destruct (crop_rect_Dx vertical W H cap) as [-> ->]; [lia | lia | lia |].
  split; [done|]. split; [done|]. split; [done|]. split.
  - intros resize. apply Generate_same_crop; [congruence | done | done].
  - intros addLegend base_name resize legend.
    apply GenerateWithLegend_same_crop; [congruence | done | done].
Qed.

Lemma excess_frames_dropped_witness :
  let env := env_of 1 1 10 (replicate 75 x2a) in
  let cut := with_stdout env (take (Z.to_nat (maxFrames 10 * (1 * 1 * 3))) (stdout env)) in
  ∃ img, finalImage map_to_list env "average" false 26 = Ok (img, (1, 1)) ∧
         image.Dx (image.Bounds img) = maxFrames 10 ∧
         image.Dy (image.Bounds img) = 1 ∧
         finalImage map_to_list cut "average" false 26 = Ok (img, (1, 1)) ∧
         (∀ resize, Generate map_to_list env "average" false resize 26 =
                    Generate map_to_list cut "average" false resize 26) ∧
         (∀ addLegend base_name resize legend,
            GenerateWithLegend map_to_list addLegend env base_name "average" false resize
              legend 26 =
            GenerateWithLegend map_to_list addLegend cut base_name "average" false resize
              legend 26).
Proof.
  apply (excess_frames_dropped map_to_list "average" false
           (env_of 1 1 10 (replicate 75 x2a)) 1 1 10 25 26).
  - constructor; try done; try lia; vm_compute; done.
  - reflexivity.
  - vm_compute. split; [done | discriminate].
  - lia.
Defined.

(** C1 at the scenario of the specification: an estimate of 10 frames
    (capacity 21) and 25 frames streamed.  The run returns an image, 21
    lines long, and no error. *)
Lemma excess_frames_no_error :
  (∃ img, Generate map_to_list (env_of 1 1 10 (replicate 75 x2a)) "average" false
            ResizeNone 26 = Ok img ∧
          image.Bounds img = image.Rect 0 0 21 1) ∧
  (∃ img, GenerateWithLegend map_to_list (λ img _ _, img)
            (env_of 1 1 10 (replicate 75 x2a)) EmptyString "average" false
            ResizeNone (mkLegendConfig false 0 EmptyString) 26 = Ok img ∧
          image.Bounds img = image.Rect 0 0 21 1).
Proof.
  split; eexists; (split; [vm_compute; reflexivity | reflexivity]).
Qed.



(** C2 at a stream that ends within its first frame: no line is made of
    the two bytes, and the run fails as it does on the empty stream. *)
Example partial_frame_alone :
  Generate map_to_list (env_of 1 1 10 [x01; x02]) "average" false ResizeNone 2
  = Error ErrEncodePNG ∧
  Generate map_to_list (env_of 1 1 10 []) "average" false ResizeNone 2
  = Error ErrEncodePNG.
Proof. split; vm_compute; reflexivity. Qed.


(** The guard of [Generate]: a zero frame count or a zero height ends the
    run with "invalid video properties", before the decoder is started. *)
Lemma degenerate_rejected order env mode vertical resize fuel width height frameCount :
  info env = Some (width, height, frameCount) →
  frameCount = 0 ∨ height = 0 →
  finalImage order env mode vertical fuel = Error ErrInvalidProperties ∧
  Generate order env mode vertical resize fuel = Error ErrInvalidProperties.
Proof.
  intros Hinfo Hz.
  assert (finalImage order env mode vertical fuel = Error ErrInvalidProperties) as Hf.
  { unfold finalImage. rewrite Hinfo.
    destruct Hz as [-> | ->]; [done|]. by rewrite orb_true_r. }
  split; [done|]. unfold Generate. by rewrite Hf.
Qed.

(** C8 at a zero width (0 x 1 pixels, one frame): the guard tests the frame
    count and the height only, so the run goes on.  The decoder is started
    and the canvas allocated; every read of the zero-length frame succeeds
    at once, and in the "average" mode the first row divides by the zero
    width, while in the "min" mode the loop never ends. *)
Theorem zero_width_not_rejected (order : gmap Z Z → list (Z * Z)) (stream : list byte)
    (fuel : nat) :
  finalImage order (env_of 0 1 1 stream) "average" false (Datatypes.S fuel)
    = Panic IntegerDivideByZero ∧
  finalImage order (env_of 0 1 1 stream) "min" false fuel = OutOfFuel.
Proof.
  split.
  - unfold finalImage. cbn [info env_of]. simpl negb. cbv iota.
    change (maxFrames 1) with 11.
    rewrite NewRGBA_Rect by (unfold maxAlloc; lia).
    change (int_mul (int_mul 0 1) 3) with 0. simpl.
    rewrite ReadFull_full by (unfold len; lia). reflexivity.
  - unfold finalImage. cbn [info env_of]. simpl negb. cbv iota.
    change (maxFrames 1) with 11.
    rewrite NewRGBA_Rect by (unfold maxAlloc; lia).
    change (int_mul (int_mul 0 1) 3) with 0. simpl.
    assert (∀ img idx s, frame_loop order fuel "min" false 0 1 0 EndOfFile s img idx
                         = OutOfFuel) as ->; [|done].
    induction fuel as [|fuel IH]; intros img idx s; [done|].
    cbn [frame_loop]. rewrite ReadFull_full by (unfold len; lia).
    change (take (Z.to_nat 0) s) with (@nil byte).
    change (process_frame order "min" false 0 1 [] idx img)
      with (Ok (image.Set_ img idx 0 (mkRGBA 255 255 255 255))).
    simpl. apply IH.
Qed.

(** ** The capacity of the canvas *)

Lemma maxFrames_exact n :
  1 ≤ n → n + n / 10 + 10 ≤ max_int → maxFrames n = n + n / 10 + 10.
Proof.
  intros Hn Hmax. unfold maxFrames, int_quot.
  rewrite Z.quot_div_nonneg by lia.
  assert (0 ≤ n / 10) by (apply Z.div_pos; lia).
  rewrite (wrap_int_small (n / 10)) by (unfold min_int, max_int in *; lia).
  rewrite (int_add_small n) by (unfold min_int, max_int in *; lia).
  apply int_add_small. unfold min_int, max_int in *. lia.
Qed.

Lemma floor_capacity_eq n : floor_capacity n = n + n / 10 + 10.
Proof.
  unfold floor_capacity, Qfloor. simpl. change (Z.pos (1 * 10)) with 10.
  replace (n * 11) with (n + n * 10) by lia. rewrite Z.div_add by lia. lia.
Qed.

Lemma ceil_capacity_eq n : ceil_capacity n = n + (n + 9) / 10 + 10.
Proof.
  unfold ceil_capacity, Qceiling, Qfloor. simpl. change (Z.pos (1 * 10)) with 10.
  assert (- (- (n * 11) / 10) = n + (n + 9) / 10) as E; [|lia].
  pose proof (Z.div_mod (- (n * 11)) 10 ltac:(lia)).
  pose proof (Z.mod_pos_bound (- (n * 11)) 10 ltac:(lia)).
  pose proof (Z.div_mod (n + 9) 10 ltac:(lia)).
  pose proof (Z.mod_pos_bound (n + 9) 10 ltac:(lia)).
  lia.
Qed.

(** C4, as the code has it: for an estimate [n >= 1] (small enough for the
    sum to stay within [int]) the capacity is n + floor(n/10) + 10, which is
    floor(n * 1.1) + 10; it is ceil(n * 1.1) + 10 exactly when [n] is a
    multiple of 10, as for n = 10 with capacity 21. *)
Theorem capacity_is_floor n :
  1 ≤ n → n + n / 10 + 10 ≤ max_int →
  maxFrames n = n + n / 10 + 10 ∧
  maxFrames n = floor_capacity n ∧
  (maxFrames n = ceil_capacity n ↔ n mod 10 = 0) ∧
  maxFrames 10 = 21.
Proof.
  intros Hn Hmax. rewrite maxFrames_exact by done.
  rewrite floor_capacity_eq, ceil_capacity_eq.
  split; [done|]. split; [done|]. split; [|done].
  pose proof (Z.div_mod n 10 ltac:(lia)).
  pose proof (Z.mod_pos_bound n 10 ltac:(lia)).
  pose proof (Z.div_mod (n + 9) 10 ltac:(lia)).
  pose proof (Z.mod_pos_bound (n + 9) 10 ltac:(lia)).
  lia.
Qed.

Lemma capacity_is_floor_witness :
  maxFrames 13 = 13 + 13 / 10 + 10 ∧
  maxFrames 13 = floor_capacity 13 ∧
  (maxFrames 13 = ceil_capacity 13 ↔ 13 mod 10 = 0) ∧
  maxFrames 10 = 21.
Proof. apply (capacity_is_floor 13); [lia | vm_compute; discriminate]. Defined.

(** C4 at n = 1: the canvas has 11 lines, and ceil(1 * 1.1) + 10 is 12. *)
Lemma capacity_not_ceil : maxFrames 1 = 11 ∧ ceil_capacity 1 = 12.
Proof. split; reflexivity. Qed.

(** ** The reducers *)

(** C3: for a width of at least 1 and a row of at least 3*width bytes,
    AverageColor returns, channel by channel, the mean of the width samples
    of that channel with the quotient truncated toward zero, each within
    0..255 (and so does AverageColorCol over the height pixels of a column);
    on the 2 x 2 frame (0,0,0),(255,255,255) / (10,20,30),(20,10,0) row 0
    gives (127,127,127) and row 1 gives (15,15,15). *)
Theorem AverageColor_truncated_mean :
  (∀ (row : list byte) (width : Z),
     slice_ok row → 1 ≤ width → 3 * width ≤ len row →
     ∃ c, AverageColor row width = Ok c ∧
          color.R c = mean (row_channel row width 0) ∧
          color.G c = mean (row_channel row width 1) ∧
          color.B c = mean (row_channel row width 2) ∧
          0 ≤ color.R c ≤ 255 ∧ 0 ≤ color.G c ≤ 255 ∧ 0 ≤ color.B c ≤ 255) ∧
  (∀ (buf : list byte) (x width height : Z),
     slice_ok buf → 1 ≤ height → 0 ≤ x < width → width * height * 3 ≤ len buf →
     ∃ c, AverageColorCol buf x width height = Ok c ∧
          color.R c = mean (col_channel buf x width height 0) ∧
          color.G c = mean (col_channel buf x width height 1) ∧
          color.B c = mean (col_channel buf x width height 2) ∧
          0 ≤ color.R c ≤ 255 ∧ 0 ≤ color.G c ≤ 255 ∧ 0 ≤ color.B c ≤ 255) ∧
  (let frame := bytes_of [0; 0; 0; 255; 255; 255; 10; 20; 30; 20; 10; 0] in
   (row ← slice frame 0 6; AverageColor row 2) = Ok (mkRGBA 127 127 127 255) ∧
   (row ← slice frame 6 12; AverageColor row 2) = Ok (mkRGBA 15 15 15 255)).
Proof.
  split; [|split].
  - intros row width Hs Hw Hl.
    destruct (AverageColor_spec row width Hs Hw Hl) as (E & Hr & Hg & Hb).
    eexists. split; [exact E|]. simpl. done.
  - intros buf x width height Hs Hh Hx Hl.
    destruct (AverageColorCol_spec buf x width height Hs Hh Hx Hl) as (E & Hr & Hg & Hb).
    eexists. split; [exact E|]. simpl. done.
  - split; reflexivity.
Qed.

Lemma AverageColor_truncated_mean_witness :
  ∃ c, AverageColor (bytes_of [10; 20; 30; 20; 10; 0; 7; 7; 7]) 2 = Ok c ∧
       color.R c = mean (row_channel (bytes_of [10; 20; 30; 20; 10; 0; 7; 7; 7]) 2 0) ∧
       color.G c = mean (row_channel (bytes_of [10; 20; 30; 20; 10; 0; 7; 7; 7]) 2 1) ∧
       color.B c = mean (row_channel (bytes_of [10; 20; 30; 20; 10; 0; 7; 7; 7]) 2 2) ∧
       0 ≤ color.R c ≤ 255 ∧ 0 ≤ color.G c ≤ 255 ∧ 0 ≤ color.B c ≤ 255.
Proof.
  apply (proj1 AverageColor_truncated_mean).
  - vm_compute. discriminate.
  - lia.
  - vm_compute. discriminate.
Defined.

Example AverageColor_row :
  AverageColor (bytes_of [10; 20; 30; 20; 10; 0; 7; 7; 7]) 2 = Ok (mkRGBA 15 15 15 255).
Proof. reflexivity. Qed.

Example AverageColorCol_column :
  AverageColorCol (bytes_of [0; 0; 0; 255; 255; 255; 10; 20; 30; 20; 10; 0]) 1 2 2
  = Ok (mkRGBA 137 132 127 255).
Proof. reflexivity. Qed.

(** C9: for a width (a height) of at least 1 and a buffer that holds the
    pixels, MinColor returns per channel the minimum of that channel over the
    samples and MaxColor the maximum; MinColorCol and MaxColorCol compute the
    same over the height pixels at the byte offsets (y*width + x)*3, for y
    from 0 up to height. *)
Theorem Min_Max_per_channel :
  (∀ (row : list byte) (width : Z),
     slice_ok row → 1 ≤ width → 3 * width ≤ len row →
     MinColor row width =
       Ok (mkRGBA (minimum (row_channel row width 0)) (minimum (row_channel row width 1))
                  (minimum (row_channel row width 2)) 255) ∧
     MaxColor row width =
       Ok (mkRGBA (maximum (row_channel row width 0)) (maximum (row_channel row width 1))
                  (maximum (row_channel row width 2)) 255)) ∧
  (∀ (buf : list byte) (x width height : Z),
     slice_ok buf → 1 ≤ height → 0 ≤ x < width → width * height * 3 ≤ len buf →
     MinColorCol buf x width height =
       Ok (mkRGBA (minimum (col_channel buf x width height 0))
                  (minimum (col_channel buf x width height 1))
                  (minimum (col_channel buf x width height 2)) 255) ∧
     MaxColorCol buf x width height =
       Ok (mkRGBA (maximum (col_channel buf x width height 0))
                  (maximum (col_channel buf x width height 1))
                  (maximum (col_channel buf x width height 2)) 255)).
Proof.
  split.
  - intros row width Hs Hw Hl. split.
    + by apply MinColor_spec.
    + by apply MaxColor_spec.
  - intros buf x width height Hs Hh Hx Hl. split.
    + by apply MinColorCol_spec.
    + by apply MaxColorCol_spec.
Qed.

Lemma Min_Max_per_channel_witness :
  (MinColor (bytes_of [10; 20; 30; 20; 10; 0]) 2 =
     Ok (mkRGBA (minimum (row_channel (bytes_of [10; 20; 30; 20; 10; 0]) 2 0))
                (minimum (row_channel (bytes_of [10; 20; 30; 20; 10; 0]) 2 1))
                (minimum (row_channel (bytes_of [10; 20; 30; 20; 10; 0]) 2 2)) 255) ∧
   MaxColor (bytes_of [10; 20; 30; 20; 10; 0]) 2 =
     Ok (mkRGBA (maximum (row_channel (bytes_of [10; 20; 30; 20; 10; 0]) 2 0))
                (maximum (row_channel (bytes_of [10; 20; 30; 20; 10; 0]) 2 1))
                (maximum (row_channel (bytes_of [10; 20; 30; 20; 10; 0]) 2 2)) 255)) ∧
  (MinColorCol (bytes_of [0; 0; 0; 255; 255; 255; 10; 20; 30; 20; 10; 0]) 1 2 2 =
     Ok (mkRGBA
           (minimum (col_channel (bytes_of [0; 0; 0; 255; 255; 255; 10; 20; 30; 20; 10; 0]) 1 2 2 0))
           (minimum (col_channel (bytes_of [0; 0; 0; 255; 255; 255; 10; 20; 30; 20; 10; 0]) 1 2 2 1))
           (minimum (col_channel (bytes_of [0; 0; 0; 255; 255; 255; 10; 20; 30; 20; 10; 0]) 1 2 2 2))
           255) ∧
   MaxColorCol (bytes_of [0; 0; 0; 255; 255; 255; 10; 20; 30; 20; 10; 0]) 1 2 2 =
     Ok (mkRGBA
           (maximum (col_channel (bytes_of [0; 0; 0; 255; 255; 255; 10; 20; 30; 20; 10; 0]) 1 2 2 0))
           (maximum (col_channel (bytes_of [0; 0; 0; 255; 255; 255; 10; 20; 30; 20; 10; 0]) 1 2 2 1))
           (maximum (col_channel (bytes_of [0; 0; 0; 255; 255; 255; 10; 20; 30; 20; 10; 0]) 1 2 2 2))
           255)).
Proof.
  split.
  - apply (proj1 Min_Max_per_channel); [vm_compute; discriminate | lia | vm_compute; discriminate].
  - apply (proj2 Min_Max_per_channel);
      [vm_compute; discriminate | lia | lia | vm_compute; discriminate].
Defined.

Example MinColor_row : MinColor (bytes_of [10; 20; 30; 20; 10; 0]) 2 = Ok (mkRGBA 10 10 0 255).
Proof. reflexivity. Qed.

Example MaxColorCol_column :
  MaxColorCol (bytes_of [0; 0; 0; 255; 255; 255; 10; 20; 30; 20; 10; 0]) 1 2 2
  = Ok (mkRGBA 255 255 255 255).
Proof. reflexivity. Qed.

(** C10: with a width of at least 1 and a row of at least 3*width bytes,
    every index the four row reducers use lies within the row and no division
    has a zero divisor, so that none of them panics; with a width of 0 the
    division of AverageColor has the divisor zero. *)
Theorem row_reducers_safe :
  (∀ (order : gmap Z Z → list (Z * Z)) (row : list byte) (width : Z),
     slice_ok row → 1 ≤ width → 3 * width ≤ len row →
     (∀ x, 0 ≤ x < width →
           0 ≤ row_off x ∧ int_add (row_off x) 2 < len row ∧
           ∃ r g b, index row (row_off x) = Ok r ∧
                    index row (int_add (row_off x) 1) = Ok g ∧
                    index row (int_add (row_off x) 2) = Ok b) ∧
     to_uint64 width ≠ 0 ∧
     (∃ c, AverageColor row width = Ok c) ∧
     (∃ c, MinColor row width = Ok c) ∧
     (∃ c, MaxColor row width = Ok c) ∧
     (∃ c, MostCommonColor order row width = Ok c)) ∧
  (∀ row : list byte,
     to_uint64 0 = 0 ∧ AverageColor row 0 = Panic IntegerDivideByZero).
Proof.
  split.
  - intros order row width Hs Hw Hl. split; [|split; [|repeat split]].
    + intros x Hx.
      destruct (row_off_ok row width x Hs Hl Hx) as (E & H0 & H3).
      destruct (read3 row row_off row_offset width Hs
                  (λ k Hk, row_off_ok row width k Hs Hl Hk) x Hx) as (Hr & Hg & Hb).
      split; [lia|]. split; [|eauto 7].
      apply index_Ok_inv in Hb. lia.
    + pose proof (row_bounds row width Hs Hl). unfold maxAlloc in *.
      rewrite to_uint64_small; lia.
    + eexists. apply AverageColor_spec; done.
    + eexists. apply MinColor_spec; done.
    + eexists. apply MaxColor_spec; done.
    + destruct (switch_mode_row_ok order "common" row width Hs Hw Hl) as (c & Hc).
      exists c. exact Hc.
  - intros row. split; reflexivity.
Qed.

Lemma row_reducers_safe_witness :
  (∀ x, 0 ≤ x < 2 →
        0 ≤ row_off x ∧ int_add (row_off x) 2 < len (bytes_of [10; 20; 30; 20; 10; 0]) ∧
        ∃ r g b, index (bytes_of [10; 20; 30; 20; 10; 0]) (row_off x) = Ok r ∧
                 index (bytes_of [10; 20; 30; 20; 10; 0]) (int_add (row_off x) 1) = Ok g ∧
                 index (bytes_of [10; 20; 30; 20; 10; 0]) (int_add (row_off x) 2) = Ok b) ∧
  to_uint64 2 ≠ 0 ∧
  (∃ c, AverageColor (bytes_of [10; 20; 30; 20; 10; 0]) 2 = Ok c) ∧
  (∃ c, MinColor (bytes_of [10; 20; 30; 20; 10; 0]) 2 = Ok c) ∧
  (∃ c, MaxColor (bytes_of [10; 20; 30; 20; 10; 0]) 2 = Ok c) ∧
  (∃ c, MostCommonColor map_to_list (bytes_of [10; 20; 30; 20; 10; 0]) 2 = Ok c).
Proof.
  apply (proj1 row_reducers_safe map_to_list (bytes_of [10; 20; 30; 20; 10; 0]) 2).
  - vm_compute. discriminate.
  - lia.
  - vm_compute. discriminate.
Defined.

Lemma MostCommonColor_key order row width :
  range_order_valid order → slice_ok row → 1 ≤ width → 3 * width ≤ len row →
  ∃ key, MostCommonColor order row width = Ok (unpack key) ∧
         key ∈ packed_pixels row row_offset width ∧
         ∀ key', occurrences key' (packed_pixels row row_offset width)
                 ≤ occurrences key (packed_pixels row row_offset width).
Proof.
  intros Ho Hs Hw Hl. pose proof (row_bounds row width Hs Hl) as Hn.
  destruct (most_common_loops order row row_off row_offset width Ho Hs) as (key & E & Hin & Hmax).
  { lia. }
  { intros k Hk. by apply (row_off_ok row width). }
  exists key. by rewrite MostCommonColor_unfold.
Qed.

(** C5, as the code has it: for a width of at least 1, a row that holds the
    pixels and whatever order the map is ranged over, MostCommonColor returns
    a colour of the row whose packed key has the highest count.  The colour
    is the same for every order when one key has a count above all others;
    between keys of equal highest count the order decides. *)
Theorem MostCommonColor_highest_count order row width :
  range_order_valid order → slice_ok row → 1 ≤ width → 3 * width ≤ len row →
  ∃ c, MostCommonColor order row width = Ok c ∧
       (let key := pack (color.R c) (color.G c) (color.B c) in
        key ∈ packed_pixels row row_offset width ∧
        ∀ key', occurrences key' (packed_pixels row row_offset width)
                ≤ occurrences key (packed_pixels row row_offset width)) ∧
       ((∃ top, ∀ key', key' ≠ top →
                  occurrences key' (packed_pixels row row_offset width)
                  < occurrences top (packed_pixels row row_offset width)) →
        ∀ order', range_order_valid order' → MostCommonColor order' row width = Ok c).
Proof.
  intros Ho Hs Hw Hl.
  destruct (MostCommonColor_spec order row width Ho Hs Hw Hl) as (c & Hc & Hmax).
  exists c. split; [done|]. split; [done|].
  intros (top & Htop) order' Ho'.
  destruct (MostCommonColor_key order row width Ho Hs Hw Hl) as (k1 & E1 & _ & Hm1).
  destruct (MostCommonColor_key order' row width Ho' Hs Hw Hl) as (k2 & E2 & _ & Hm2).
  assert (k1 = top) as ->.
  { destruct (decide (k1 = top)) as [|Hne]; [done|].
    specialize (Htop k1 Hne). specialize (Hm1 top). lia. }
  assert (k2 = top) as ->.
  { destruct (decide (k2 = top)) as [|Hne]; [done|].
    specialize (Htop k2 Hne). specialize (Hm2 top). lia. }
  congruence.
Qed.

Lemma range_order_valid_map_to_list : range_order_valid map_to_list.
Proof. intros m. done. Qed.

Lemma range_order_valid_reverse : range_order_valid (λ m, reverse (map_to_list m)).
Proof. intros m. apply reverse_Permutation. Qed.

Lemma MostCommonColor_highest_count_witness :
  ∃ c, MostCommonColor map_to_list (bytes_of [255; 0; 0; 0; 0; 255; 255; 0; 0]) 3 = Ok c ∧
       (let key := pack (color.R c) (color.G c) (color.B c) in
        key ∈ packed_pixels (bytes_of [255; 0; 0; 0; 0; 255; 255; 0; 0]) row_offset 3 ∧
        ∀ key', occurrences key'
                  (packed_pixels (bytes_of [255; 0; 0; 0; 0; 255; 255; 0; 0]) row_offset 3)
                ≤ occurrences key
                    (packed_pixels (bytes_of [255; 0; 0; 0; 0; 255; 255; 0; 0]) row_offset 3)) ∧
       ((∃ top, ∀ key', key' ≠ top →
                  occurrences key'
                    (packed_pixels (bytes_of [255; 0; 0; 0; 0; 255; 255; 0; 0]) row_offset 3)
                  < occurrences top
                      (packed_pixels (bytes_of [255; 0; 0; 0; 0; 255; 255; 0; 0]) row_offset 3)) →
        ∀ order', range_order_valid order' →
                  MostCommonColor order' (bytes_of [255; 0; 0; 0; 0; 255; 255; 0; 0]) 3 = Ok c).
Proof.
  apply (MostCommonColor_highest_count map_to_list
           (bytes_of [255; 0; 0; 0; 0; 255; 255; 0; 0]) 3).
  - apply range_order_valid_map_to_list.
  - vm_compute. discriminate.
  - lia.
  - vm_compute. discriminate.
Defined.

Example MostCommonColor_majority :
  MostCommonColor map_to_list (bytes_of [255; 0; 0; 0; 0; 255; 255; 0; 0]) 3
  = Ok (mkRGBA 255 0 0 255).
Proof. vm_compute. reflexivity. Qed.

(** C5 at a tie: a row of one red and one blue pixel.  Ranging over the map
    in one order gives blue, in the reverse order red: two evaluations on
    the same row return different colours. *)
Lemma MostCommonColor_tie_by_order :
  range_order_valid map_to_list ∧
  range_order_valid (λ m, reverse (map_to_list m)) ∧
  MostCommonColor map_to_list (bytes_of [255; 0; 0; 0; 0; 255]) 2
    = Ok (mkRGBA 0 0 255 255) ∧
  MostCommonColor (λ m, reverse (map_to_list m)) (bytes_of [255; 0; 0; 0; 0; 255]) 2
    = Ok (mkRGBA 255 0 0 255).
Proof.
  split; [apply range_order_valid_map_to_list|].
  split; [apply range_order_valid_reverse|].
  split; vm_compute; reflexivity.
Qed.

(** ** float64: integers below 2^53 are exact *)

Lemma Qred_inject_Z n : Qred (inject_Z n) = inject_Z n.
Proof. apply Qred_identity. simpl. apply Z.gcd_1_r. Qed.

Lemma round_comp q q' : (q == q')%Q → float64.round q = float64.round q'.
Proof. intros E. unfold float64.round. by rewrite (Qred_complete q q' E). Qed.

Lemma pow2_pos_exp k : 0 ≤ k → float64.pow2 k = inject_Z (2 ^ k).
Proof. intros Hk. unfold float64.pow2. destruct (Z.leb_spec 0 k); [done | lia]. Qed.

Lemma pow2_inv k : 0 ≤ k → (float64.pow2 (- k) * inject_Z (2 ^ k) == 1)%Q.
Proof.
  intros Hk. destruct (decide (k = 0)) as [->|Hne]; [reflexivity|].
  unfold float64.pow2. destruct (Z.leb_spec 0 (- k)); [lia|].
  rewrite Z.opp_involutive.
  assert (0 < 2 ^ k) by (apply Z.pow_pos_nonneg; lia).
  unfold Qeq, Qmult, inject_Z. simpl. rewrite Pos.mul_1_r, Z2Pos.id by lia. lia.
Qed.

Lemma round_half_even_int q k : (q == inject_Z k)%Q → float64.round_half_even q = k.
Proof.
  intros E. unfold float64.round_half_even.
  rewrite (Qfloor_comp _ _ E), Qfloor_Z.
  assert (Qcompare (q - inject_Z k) (1 # 2) = Lt) as ->; [|done].
  apply Qlt_alt. rewrite E. unfold Qminus. rewrite Qplus_opp_r. reflexivity.
Qed.

Lemma ilog2_int n : 0 < n → float64.ilog2 (inject_Z n) = Z.log2 n.
Proof.
  intros Hn. unfold float64.ilog2. simpl. rewrite Z.sub_0_r.
  rewrite pow2_pos_exp by apply Z.log2_nonneg.
  assert (Qle_bool (inject_Z (2 ^ Z.log2 n)) (inject_Z n) = true) as ->; [|done].
  apply Qle_bool_iff. rewrite <- Zle_Qle. apply Z.log2_spec. done.
Qed.

Lemma round_int n : 0 ≤ n < 2 ^ 53 → float64.round (inject_Z n) = inject_Z n.
Proof.
  intros Hn. unfold float64.round. rewrite Qred_inject_Z. cbv zeta.
  destruct (decide (n = 0)) as [->|Hne]; [reflexivity|].
  assert (Qeq_bool (inject_Z n) 0 = false) as ->.
  { apply not_true_is_false. intros E. apply Qeq_bool_iff in E.
    unfold Qeq in E. simpl in E. lia. }
  assert (Qabs (inject_Z n) = inject_Z n) as ->.
  { unfold Qabs, inject_Z. by rewrite Z.abs_eq by lia. }
  rewrite ilog2_int by lia.
  assert (Qle_bool 0 (inject_Z n) = true) as ->.
  { apply Qle_bool_iff. unfold Qle. simpl. lia. }
  assert (Z.log2 n < 53) as Hlog by (apply Z.log2_lt_pow2; lia).
  pose proof (Z.log2_nonneg n).
  set (k := 52 - Z.log2 n).
  replace (Z.log2 n - 52) with (- k) by lia.
  assert (0 ≤ k) by lia.
  pose proof (pow2_inv k ltac:(done)) as Hinv.
  assert (0 < 2 ^ k) by (apply Z.pow_pos_nonneg; lia).
  assert (¬ (float64.pow2 (- k) == 0)%Q) as Hnz.
  { intros E. rewrite E in Hinv. by rewrite Qmult_0_l in Hinv. }
  rewrite (round_half_even_int _ (n * 2 ^ k)).
  - transitivity (Qred (inject_Z n)); [|apply Qred_inject_Z]. apply Qred_complete.
    rewrite inject_Z_mult. rewrite <- Qmult_assoc, (Qmult_comm (inject_Z (2 ^ k))), Hinv.
    apply Qmult_1_r.
  - rewrite inject_Z_mult. unfold Qdiv.
    assert (/ float64.pow2 (- k) == inject_Z (2 ^ k))%Q as ->; [|reflexivity].
    apply (Qmult_inj_l _ _ (float64.pow2 (- k)) Hnz).
    rewrite Qmult_inv_r by done. symmetry. exact Hinv.
Qed.


Lemma of_int_exact n : 0 ≤ n < 2 ^ 53 → float64.of_int n = inject_Z n.
Proof. apply round_int. Qed.

Lemma mul_exact a b :
  0 ≤ a * b < 2 ^ 53 → float64.mul (inject_Z a) (inject_Z b) = inject_Z (a * b).
Proof.
  intros H. unfold float64.mul. rewrite <- inject_Z_mult. by apply round_int.
Qed.






Lemma widen_shift v : 0 ≤ v ≤ 255 → to_uint8 (Z.shiftr (color.widen v) 8) = v.
Proof.
  intros Hv.
  assert (forallb (λ v, to_uint8 (Z.shiftr (color.widen v) 8) =? v) (seqZ 0 256) = true)
    as Hall by (vm_compute; reflexivity).
  rewrite forallb_forall in Hall. apply Z.eqb_eq, Hall.
  apply list_elem_of_In, elem_of_seqZ. lia.
Qed.

(** ** resizeImage at the size of its source *)

Lemma At_Set p x y c x' y' :
  image.At (image.Set_ p x y c) x' y' =
  if decide ((x, y) = (x', y')) then
    (if image.In x y (image.Bounds p) then c else image.At p x' y')
  else image.At p x' y'.
Proof.
  unfold image.At, image.Set_.
  destruct (image.In x y (image.Bounds p)) eqn:Hin; cbn [image.Bounds image.Pix].
  - destruct (decide ((x, y) = (x', y'))) as [[= <- <-]|Hne].
    + rewrite Hin. by rewrite lookup_insert_eq.
    + by rewrite lookup_insert_ne.
  - by destruct (decide ((x, y) = (x', y'))).
Qed.

(** The two nested loops of resizeImage store [f x y] at every [(x, y)] of
    the target rectangle. *)
Lemma fill_loops (f : Z → Z → RGBA) W H dst0 :
  0 ≤ W → 0 ≤ H → image.Bounds dst0 = image.Rect 0 0 W H →
  ∃ dst,
    for_loop H (λ y dst, for_loop W (λ x dst, Ok (image.Set_ dst x y (f x y))) dst) dst0
      = Ok dst ∧
    image.Bounds dst = image.Rect 0 0 W H ∧
    ∀ x y, 0 ≤ x < W → 0 ≤ y < H → image.At dst x y = f x y.
Proof.
  intros HW HH Hb.
  destruct (for_loop_inv
    (λ k t, image.Bounds t = image.Rect 0 0 W H ∧
            ∀ x y, 0 ≤ x < W → 0 ≤ y < k → image.At t x y = f x y)
    (λ y dst, for_loop W (λ x dst, Ok (image.Set_ dst x y (f x y))) dst) H dst0 HH)
    as (dst & Hdst & Hbd & Hat).
  - split; [done|]. intros x y Hx Hy. lia.
  - intros k t Hk [Hbt Ht].
    destruct (for_loop_inv
      (λ j u, image.Bounds u = image.Rect 0 0 W H ∧
              (∀ x y, 0 ≤ x < W → 0 ≤ y < k → image.At u x y = f x y) ∧
              (∀ x, 0 ≤ x < j → image.At u x k = f x k))
      (λ x dst, Ok (image.Set_ dst x k (f x k))) W t HW)
      as (u & Hu & Hbu & Hrows & Hrow).
    + split; [done|]. split; [done|]. intros x Hx. lia.
    + intros j u Hj (Hbu & Hrows & Hrow). eexists. split; [done|].
      rewrite Set_Bounds. split; [done|]. split.
      * intros x y Hx Hy. rewrite At_Set.
        destruct (decide ((j, k) = (x, y))) as [[= <- <-]|Hne]; [lia|]. by apply Hrows.
      * intros x Hx. rewrite At_Set.
        destruct (decide ((j, k) = (x, k))) as [[= <-]|Hne].
        -- rewrite Hbu, In_Rect by lia.
           destruct (Z.leb_spec 0 j), (Z.ltb_spec j W), (Z.leb_spec 0 k), (Z.ltb_spec k H);
             try lia. done.
        -- apply Hrow. destruct (decide (x = j)) as [->|]; [done | lia].
    + exists u. split; [done|]. split; [done|].
      intros x y Hx Hy. destruct (decide (y = k)) as [->|Hne].
      * apply Hrow. lia.
      * apply Hrows; lia.
  - exists dst. done.
Qed.

Lemma NewRGBA_Rect0 w h :
  0 ≤ w ≤ maxAlloc → 0 ≤ h ≤ maxAlloc → 4 * w * h ≤ maxAlloc →
  image.NewRGBA (image.Rect 0 0 w h) = Ok (image.mkImage (image.Rect 0 0 w h) ∅).
Proof.
  intros Hw Hh Hfit. unfold image.NewRGBA. unfold maxAlloc in *.
  rewrite Dx_Rect, Dy_Rect by (unfold max_int; lia).
  destruct (Z.ltb_spec w 0), (Z.ltb_spec h 0), (Z.gtb_spec (4 * w * h) (2 ^ 48));
    try lia. done.
Qed.

Lemma resizeImage_pixels src targetW targetH :
  0 ≤ targetW ≤ maxAlloc → 0 ≤ targetH ≤ maxAlloc → 4 * targetW * targetH ≤ maxAlloc →
  ∃ dst, resizeImage src targetW targetH = Ok dst ∧
         image.Bounds dst = image.Rect 0 0 targetW targetH ∧
         ∀ x y, 0 ≤ x < targetW → 0 ≤ y < targetH →
                image.At dst x y = resizePixel src targetW targetH x y.
Proof.
  intros HW HH Hfit. unfold resizeImage. rewrite NewRGBA_Rect0 by done. simpl.
  apply (fill_loops (resizePixel src targetW targetH)); [lia | lia | done].
Qed.

Section Identity.

Context (src : image.RGBA) (minX minY W H : Z).
Hypothesis src_bounds :
  image.Bounds src = image.mkRectangle (image.Pt minX minY) (image.Pt (minX + W) (minY + H)).
Hypothesis minX_int : min_int ≤ minX.
Hypothesis maxX_int : minX + W ≤ max_int.
Hypothesis minY_int : min_int ≤ minY.
Hypothesis maxY_int : minY + H ≤ max_int.
Hypothesis W_small : 0 ≤ W ≤ 2 ^ 26.
Hypothesis H_small : 0 ≤ H ≤ 2 ^ 26.

Lemma src_Dx : image.Dx (image.Bounds src) = W.
Proof using src_bounds W_small.
  rewrite src_bounds. unfold image.Dx. cbn [image.X image.Max image.Min].
  rewrite int_sub_small; unfold min_int, max_int; lia.
Qed.

Lemma src_Dy : image.Dy (image.Bounds src) = H.
Proof using src_bounds H_small.
  rewrite src_bounds. unfold image.Dy. cbn [image.Y image.Max image.Min].
  rewrite int_sub_small; unfold min_int, max_int; lia.
Qed.


End Identity.

Lemma At_channels_8bit p x y : well_formed p → channels_8bit (image.At p x y).
Proof.
  intros Hwf. unfold image.At.
  destruct (image.In x y (image.Bounds p)); [|repeat split; simpl; lia].
  destruct (image.Pix p !! (x, y)) as [c|] eqn:E; simpl.
  - exact (wf_pixels p Hwf (x, y) c E).
  - repeat split; simpl; lia.
Qed.


Lemma two_pixels_well_formed : well_formed two_pixels.
Proof.
  constructor; try (vm_compute; discriminate).
  unfold two_pixels. cbn [image.Pix].
  apply map_Forall_insert_2; [repeat split; simpl; lia|].
  apply map_Forall_insert_2; [repeat split; simpl; lia|].
  apply map_Forall_empty.
Qed.


(** resizeImage from 2 x 1 to 4 x 1: the pixels between the two sources are
    blended half and half, the last one is clamped to the edge. *)
Example resizeImage_doubles :
  ∃ dst, resizeImage two_pixels 4 1 = Ok dst ∧
         image.At dst 0 0 = mkRGBA 255 0 0 255 ∧
         image.At dst 1 0 = mkRGBA 127 0 127 255 ∧
         image.At dst 2 0 = mkRGBA 0 0 255 255 ∧
         image.At dst 3 0 = mkRGBA 0 0 255 255.
Proof. eexists. split; [vm_compute; reflexivity|]. repeat split; vm_compute; reflexivity. Qed.

(** ** The pipeline on small inputs *)

(** One 2 x 2 frame, horizontal: one column of two row averages. *)
Example Generate_horizontal :
  ∃ img, Generate map_to_list
           (env_of 2 2 1 (bytes_of [0; 0; 0; 255; 255; 255; 10; 20; 30; 20; 10; 0]))
           "average" false ResizeNone 2 = Ok img ∧
         image.Bounds img = image.Rect 0 0 1 2 ∧
         image.At img 0 0 = mkRGBA 127 127 127 255 ∧
         image.At img 0 1 = mkRGBA 15 15 15 255.
Proof. eexists. split; [vm_compute; reflexivity|]. repeat split. Qed.

(** The same frame, vertical: one row of two column averages. *)
Example Generate_vertical :
  ∃ img, Generate map_to_list
           (env_of 2 2 1 (bytes_of [0; 0; 0; 255; 255; 255; 10; 20; 30; 20; 10; 0]))
           "average" true ResizeNone 2 = Ok img ∧
         image.Bounds img = image.Rect 0 0 2 1 ∧
         image.At img 0 0 = mkRGBA 5 10 15 255 ∧
         image.At img 1 0 = mkRGBA 137 132 127 255.
Proof. eexists. split; [vm_compute; reflexivity|]. repeat split. Qed.

(** Two frames of one pixel, with the border lines of GenerateWithLegend
    drawn over the only row. *)
Example GenerateWithLegend_border :
  ∃ img, GenerateWithLegend map_to_list (λ img _ _, img)
           (env_of 1 1 2 (bytes_of [1; 2; 3; 4; 5; 6])) EmptyString
           "max" false ResizeNone (mkLegendConfig false 0 EmptyString) 3 = Ok img ∧
         image.Bounds img = image.Rect 0 0 2 1 ∧
         image.At img 0 0 = mkRGBA 80 80 80 255 ∧
         image.At img 1 0 = mkRGBA 80 80 80 255.
Proof. eexists. split; [vm_compute; reflexivity|]. repeat split. Qed.

(** A read error of the pipe, a timeout and a failed probe end the run with
    the error of that step. *)
Example Generate_errors :
  Generate map_to_list
    (mkEnv (Some (1, 1, 1)) true true [x01] ReadFailure false false true true)
    "average" false ResizeNone 2 = Error ErrReadFrame ∧
  Generate map_to_list
    (mkEnv (Some (1, 1, 1)) true true [x01; x02; x03] EndOfFile true true true true)
    "average" false ResizeNone 2 = Error ErrTimeout ∧
  Generate map_to_list
    (mkEnv None true true [] EndOfFile false false true true)
    "average" false ResizeNone 2 = Error ErrProbe.
Proof. repeat split. Qed.
(** * Further properties of the code *)

(** ** Loops that stop early, and loops with equal bodies *)

Lemma for_from_ext {S : Type} (f g : Z → S → res S) count : ∀ start s,
  (∀ k t, start ≤ k < start + Z.of_nat count → f k t = g k t) →
  for_from start count f s = for_from start count g s.
Proof.
  induction count as [|count IH]; intros start s Hfg; [done|].
  simpl. rewrite Hfg by lia. destruct (g start s) as [s'| | |]; simpl; try done.
  apply IH. intros k t Hk. apply Hfg. lia.
Qed.

Lemma for_loop_ext {S : Type} (f g : Z → S → res S) n s :
  (∀ k t, 0 ≤ k < n → f k t = g k t) → for_loop n f s = for_loop n g s.
Proof.
  intros Hfg. unfold for_loop. apply for_from_ext. intros k t Hk. apply Hfg. lia.
Qed.

Lemma for_from_app {S : Type} (body : Z → S → res S) c1 c2 : ∀ start s,
  for_from start (c1 + c2) body s =
  s' ← for_from start c1 body s; for_from (start + Z.of_nat c1) c2 body s'.
Proof.
  induction c1 as [|c1 IH]; intros start s.
  - simpl. by rewrite Z.add_0_r.
  - simpl. destruct (body start s) as [s'| | |]; simpl; try done.
    rewrite IH. by replace (start + 1 + Z.of_nat c1) with (start + Z.pos (Pos.of_succ_nat c1)) by lia.
Qed.

(** A loop whose pass [j] panics: the passes before it run, the panic is
    the outcome. *)
Lemma for_loop_panic {S : Type} (body : Z → S → res S) n j s s' p :
  0 ≤ j < n → for_loop j body s = Ok s' → body j s' = Panic p →
  for_loop n body s = Panic p.
Proof.
  intros Hj Hpre Hp. unfold for_loop in *.
  replace (Z.to_nat n) with (Z.to_nat j + Datatypes.S (Z.to_nat (n - j - 1)))%nat by lia.
  rewrite for_from_app, Hpre. simpl. rewrite Z2Nat.id, Z.add_0_l by lia.
  by rewrite Hp.
Qed.

Lemma for_loop_nonpos {S : Type} (body : Z → S → res S) n s :
  n ≤ 0 → for_loop n body s = Ok s.
Proof. intros Hn. unfold for_loop. by replace (Z.to_nat n) with O by lia. Qed.

(** ** The reducers on a row that is too short, and on no pixel at all *)

Lemma index_out s i : len s ≤ i → index s i = Panic IndexOutOfRange.
Proof.
  intros Hi. unfold index. destruct (Z.leb_spec 0 i), (Z.ltb_spec i (len s)); try done. lia.
Qed.

Lemma index_cases s i : (∃ v, index s i = Ok v) ∨ index s i = Panic IndexOutOfRange.
Proof.
  unfold index. destruct ((0 <=? i) && (i <? len s)); [|by right].
  destruct (s !! Z.to_nat i); [left; by eexists | by right].
Qed.

(** The three reads of a pixel of which the last lies beyond the slice. *)
Lemma read3_short {A : Type} (row : list byte) i (k : Z → Z → Z → res A) :
  0 ≤ i → len row ≤ i + 2 → i + 2 ≤ max_int →
  (r ← index row i; g ← index row (int_add i 1); b ← index row (int_add i 2); k r g b)
  = Panic IndexOutOfRange.
Proof.
  intros H0 Hl Hmax.
  rewrite !int_add_small by (unfold min_int, max_int in *; lia).
  destruct (index_cases row i) as [[r ->]| ->]; [simpl|done].
  destruct (index_cases row (i + 1)) as [[g ->]| ->]; [simpl|done].
  by rewrite (index_out row (i + 2)) by lia.
Qed.

Section ShortRow.

Context (row : list byte) (width : Z).
Hypothesis row_ok : slice_ok row.
Hypothesis row_short : len row < 3 * width.

(** The first pixel that does not lie within the row. *)
Local Abbreviation j := (len row / 3).

Lemma short_row_pixel : 0 ≤ j < width ∧ 3 * j ≤ len row ∧ len row ≤ 3 * j + 2.
Proof using row_short.
  pose proof (Z.div_mod (len row) 3 ltac:(lia)).
  pose proof (Z.mod_pos_bound (len row) 3 ltac:(lia)).
  assert (0 ≤ len row) by (unfold len; lia).
  assert (0 ≤ len row / 3) by (apply Z.div_pos; lia). lia.
Qed.

Lemma short_row_offsets k :
  0 ≤ k < j → row_off k = row_offset k ∧ 0 ≤ row_offset k ∧ row_offset k + 3 ≤ len row.
Proof using row_ok row_short.
  intros Hk. destruct short_row_pixel as (Hj & Hlo & Hhi).
  apply (row_off_ok row j); [done | lia | done].
Qed.

Lemma short_row_off : row_off j = 3 * j ∧ 0 ≤ 3 * j ∧ 3 * j + 2 ≤ max_int.
Proof using row_ok row_short.
  destruct short_row_pixel as (Hj & Hlo & Hhi).
  unfold slice_ok, maxAlloc in row_ok. unfold row_off.
  rewrite int_mul_small by (unfold min_int, max_int; lia).
  unfold max_int. lia.
Qed.

Lemma AverageColor_short : AverageColor row width = Panic IndexOutOfRange.
Proof using row_ok row_short.
  destruct short_row_pixel as (Hj & Hlo & Hhi), short_row_off as (Eo & Ho0 & Homax).
  rewrite AverageColor_unfold.
  rewrite (for_loop_panic _ width j (0, 0, 0) _ IndexOutOfRange Hj
             (sum_loop row row_off row_offset j row_ok ltac:(unfold slice_ok in *; lia)
                short_row_offsets ltac:(lia))); [done|].
  unfold sum_step. rewrite Eo. apply read3_short; lia.
Qed.

Lemma MinColor_short : MinColor row width = Panic IndexOutOfRange.
Proof using row_ok row_short.
  destruct short_row_pixel as (Hj & Hlo & Hhi), short_row_off as (Eo & Ho0 & Homax).
  rewrite MinColor_unfold.
  rewrite (for_loop_panic _ width j (255, 255, 255) _ IndexOutOfRange Hj
             (min_loop row row_off row_offset j row_ok short_row_offsets ltac:(lia)));
    [done|].
  unfold min_step. rewrite Eo.
  apply (read3_short row (3 * j)
           (λ r g b, Ok (if r <? _ then r else _, if g <? _ then g else _,
                         if b <? _ then b else _))); lia.
Qed.

Lemma MaxColor_short : MaxColor row width = Panic IndexOutOfRange.
Proof using row_ok row_short.
  destruct short_row_pixel as (Hj & Hlo & Hhi), short_row_off as (Eo & Ho0 & Homax).
  rewrite MaxColor_unfold.
  rewrite (for_loop_panic _ width j (0, 0, 0) _ IndexOutOfRange Hj
             (max_loop row row_off row_offset j row_ok short_row_offsets ltac:(lia)));
    [done|].
  unfold max_step. rewrite Eo.
  apply (read3_short row (3 * j)
           (λ r g b, Ok (if r >? _ then r else _, if g >? _ then g else _,
                         if b >? _ then b else _))); lia.
Qed.

Lemma MostCommonColor_short order : MostCommonColor order row width = Panic IndexOutOfRange.
Proof using row_ok row_short.
  destruct short_row_pixel as (Hj & Hlo & Hhi), short_row_off as (Eo & Ho0 & Homax).
  rewrite MostCommonColor_unfold.
  destruct (count_loop row row_off row_offset j row_ok ltac:(unfold slice_ok in *; lia)
              short_row_offsets ltac:(lia)) as (m & Hm & _).
  rewrite (for_loop_panic _ width j ∅ m IndexOutOfRange Hj Hm); [done|].
  unfold count_step. rewrite Eo. apply read3_short; lia.
Qed.

End ShortRow.

(** X1: a row that is shorter than 3*width bytes makes each of the four row
    reducers panic with an index out of range, at the first pixel that does
    not lie within the row. *)
Theorem row_reducers_short_row order row width :
  slice_ok row → len row < 3 * width →
  AverageColor row width = Panic IndexOutOfRange ∧
  MinColor row width = Panic IndexOutOfRange ∧
  MaxColor row width = Panic IndexOutOfRange ∧
  MostCommonColor order row width = Panic IndexOutOfRange.
Proof.
  intros Hs Hl.
  auto using AverageColor_short, MinColor_short, MaxColor_short, MostCommonColor_short.
Qed.

Lemma row_reducers_short_row_witness :
  AverageColor (bytes_of [10; 20; 30; 20; 10]) 2 = Panic IndexOutOfRange ∧
  MinColor (bytes_of [10; 20; 30; 20; 10]) 2 = Panic IndexOutOfRange ∧
  MaxColor (bytes_of [10; 20; 30; 20; 10]) 2 = Panic IndexOutOfRange ∧
  MostCommonColor map_to_list (bytes_of [10; 20; 30; 20; 10]) 2 = Panic IndexOutOfRange.
Proof.
  apply (row_reducers_short_row map_to_list (bytes_of [10; 20; 30; 20; 10]) 2).
  - vm_compute. discriminate.
  - vm_compute. reflexivity.
Defined.

(** X2: with a width of zero or less no pixel is read, whatever the row
    holds: MinColor returns white, MaxColor and MostCommonColor return black,
    and so does AverageColor for a negative width, where the divisor
    [uint64(width)] is a large positive number. *)
Theorem reducers_nonpositive_width order row width :
  range_order_valid order → min_int ≤ width → width ≤ 0 →
  MinColor row width = Ok (mkRGBA 255 255 255 255) ∧
  MaxColor row width = Ok (mkRGBA 0 0 0 255) ∧
  MostCommonColor order row width = Ok (mkRGBA 0 0 0 255) ∧
  (width < 0 → AverageColor row width = Ok (mkRGBA 0 0 0 255)).
Proof.
  intros Ho Hmin Hw. repeat split.
  - rewrite MinColor_unfold, for_loop_nonpos by done. reflexivity.
  - rewrite MaxColor_unfold, for_loop_nonpos by done. reflexivity.
  - rewrite MostCommonColor_unfold, for_loop_nonpos by done. simpl.
    assert (order ∅ = []) as ->; [|reflexivity].
    apply Permutation_nil_r. rewrite (Ho ∅). by rewrite map_to_list_empty.
  - intros Hneg. rewrite AverageColor_unfold, for_loop_nonpos by done. simpl.
    unfold sum_finish, u64_div, to_uint64.
    assert (width mod 2 ^ 64 = width + 2 ^ 64) as ->.
    { symmetry. apply (Z.mod_unique _ _ (-1)); unfold min_int in *; lia. }
    destruct (Z.eqb_spec (width + 2 ^ 64) 0); [unfold min_int in *; lia|].
    simpl. rewrite Z.div_0_l by (unfold min_int in *; lia). reflexivity.
Qed.

Lemma reducers_nonpositive_width_witness :
  MinColor (bytes_of [1; 2; 3]) (-1) = Ok (mkRGBA 255 255 255 255) ∧
  MaxColor (bytes_of [1; 2; 3]) (-1) = Ok (mkRGBA 0 0 0 255) ∧
  MostCommonColor map_to_list (bytes_of [1; 2; 3]) (-1) = Ok (mkRGBA 0 0 0 255) ∧
  (-1 < 0 → AverageColor (bytes_of [1; 2; 3]) (-1) = Ok (mkRGBA 0 0 0 255)).
Proof.
  apply (reducers_nonpositive_width map_to_list (bytes_of [1; 2; 3]) (-1)).
  - apply range_order_valid_map_to_list.
  - vm_compute. discriminate.
  - lia.
Defined.

(** ** How the results of the reducers relate *)





(** ** A row of one colour *)

Lemma samples_uniform buf off n c v :
  (∀ k, 0 ≤ k < n → byte_at buf (off k + c) = v) →
  samples buf off n c = replicate (Z.to_nat n) v.
Proof.
  intros H. unfold samples. apply list_eq. intros i.
  rewrite list_lookup_fmap. destruct (decide (i < Z.to_nat n)%nat) as [Hi|Hi].
  - rewrite lookup_seqZ_lt by lia. simpl. rewrite lookup_replicate_2 by done.
    f_equal. apply H. lia.
  - rewrite lookup_seqZ_ge by lia. simpl. symmetry. apply lookup_replicate_None. lia.
Qed.

Lemma sumZ_replicate n v : sumZ (replicate n v) = Z.of_nat n * v.
Proof.
  induction n as [|n IH]; [done|].
  change (sumZ (replicate (Datatypes.S n) v)) with (v + sumZ (replicate n v)). lia.
Qed.

Lemma replicate_uniform n (v : Z) :
  (0 < n)%nat →
  mean (replicate n v) = v ∧ minimum (replicate n v) = v ∧ maximum (replicate n v) = v.
Proof.
  intros Hn. assert (replicate n v ≠ []) as Hne by (destruct n; [lia | done]).
  destruct (minimum_spec _ Hne) as [Hmin _], (maximum_spec _ Hne) as [Hmax _].
  apply elem_of_replicate in Hmin as [-> _]. apply elem_of_replicate in Hmax as [-> _].
  split; [|done]. unfold mean. rewrite sumZ_replicate, length_replicate.
  rewrite Z.mul_comm. apply Z.quot_mul. lia.
Qed.

(** X4: a row whose pixels all have the colour (r, g, b) is reduced to that
    colour, fully opaque, by each of the four row reducers. *)
Theorem uniform_row order row width r g b :
  range_order_valid order → slice_ok row → 1 ≤ width → 3 * width ≤ len row →
  (∀ x, 0 ≤ x < width →
        byte_at row (x * 3) = r ∧ byte_at row (x * 3 + 1) = g ∧ byte_at row (x * 3 + 2) = b) →
  AverageColor row width = Ok (mkRGBA r g b 255) ∧
  MinColor row width = Ok (mkRGBA r g b 255) ∧
  MaxColor row width = Ok (mkRGBA r g b 255) ∧
  MostCommonColor order row width = Ok (mkRGBA r g b 255).
Proof.
  intros Ho Hs Hw Hl Hpix.
  assert (row_channel row width 0 = replicate (Z.to_nat width) r ∧
          row_channel row width 1 = replicate (Z.to_nat width) g ∧
          row_channel row width 2 = replicate (Z.to_nat width) b) as (E0 & E1 & E2).
  { unfold row_channel, row_offset.
    repeat split; apply samples_uniform; intros k Hk; destruct (Hpix k Hk) as (Hr & Hg & Hb);
      rewrite ?Z.add_0_r; done. }
  destruct (replicate_uniform (Z.to_nat width) r) as (Mr & Lr & Ur); [lia|].
  destruct (replicate_uniform (Z.to_nat width) g) as (Mg & Lg & Ug); [lia|].
  destruct (replicate_uniform (Z.to_nat width) b) as (Mb & Lb & Ub); [lia|].
  split; [|split; [|split]].
  - destruct (AverageColor_spec row width Hs Hw Hl) as [-> _]. by rewrite E0, E1, E2, Mr, Mg, Mb.
  - rewrite MinColor_spec by done. by rewrite E0, E1, E2, Lr, Lg, Lb.
  - rewrite MaxColor_spec by done. by rewrite E0, E1, E2, Ur, Ug, Ub.
  - destruct (MostCommonColor_key order row width Ho Hs Hw Hl) as (key & -> & Hin & _).
    apply elem_of_packed_pixels in Hin as (k & Hk & ->).
    destruct (Hpix k Hk) as (Hr & Hg & Hb).
    unfold packed_at, row_offset. rewrite Z.add_0_r, Hr, Hg, Hb.
    rewrite unpack_pack; [done| | |].
    + rewrite <- Hr. apply byte_at_range.
    + rewrite <- Hg. apply byte_at_range.
    + rewrite <- Hb. apply byte_at_range.
Qed.

Lemma uniform_row_witness :
  AverageColor (bytes_of [7; 8; 9; 7; 8; 9]) 2 = Ok (mkRGBA 7 8 9 255) ∧
  MinColor (bytes_of [7; 8; 9; 7; 8; 9]) 2 = Ok (mkRGBA 7 8 9 255) ∧
  MaxColor (bytes_of [7; 8; 9; 7; 8; 9]) 2 = Ok (mkRGBA 7 8 9 255) ∧
  MostCommonColor map_to_list (bytes_of [7; 8; 9; 7; 8; 9]) 2 = Ok (mkRGBA 7 8 9 255).
Proof.
  apply (uniform_row map_to_list (bytes_of [7; 8; 9; 7; 8; 9]) 2 7 8 9).
  - apply range_order_valid_map_to_list.
  - vm_compute. discriminate.
  - lia.
  - vm_compute. discriminate.
  - intros x Hx. assert (x = 0 ∨ x = 1) as [-> | ->] by lia; vm_compute; done.
Defined.

(** ** MostCommonColorCol *)

Lemma MostCommonColorCol_key order buf col width height :
  range_order_valid order → slice_ok buf → 1 ≤ height → 0 ≤ col < width →
  width * height * 3 ≤ len buf →
  ∃ key, MostCommonColorCol order buf col width height = Ok (unpack key) ∧
         key ∈ packed_pixels buf (col_offset width col) height ∧
         ∀ key', occurrences key' (packed_pixels buf (col_offset width col) height)
                 ≤ occurrences key (packed_pixels buf (col_offset width col) height).
Proof.
  intros Ho Hs Hh Hc Hl. pose proof (col_bounds buf col width height Hs Hc Hh Hl) as Hn.
  destruct (most_common_loops order buf (col_off width col) (col_offset width col)
              height Ho Hs) as (key & E & Hin & Hmax).
  { lia. }
  { intros k Hk. by apply (col_off_ok buf col width height). }
  exists key. by rewrite MostCommonColorCol_unfold.
Qed.

(** X5: for a frame buffer that holds width*height pixels and a column
    within the width, MostCommonColorCol returns a colour of that column
    whose packed key no other key of the column outnumbers, in whatever order
    the map is ranged over; when one key outnumbers all others the result is
    the same for every order. *)
Theorem MostCommonColorCol_highest_count order buf col width height :
  range_order_valid order → slice_ok buf → 1 ≤ height → 0 ≤ col < width →
  width * height * 3 ≤ len buf →
  ∃ c, MostCommonColorCol order buf col width height = Ok c ∧
       (let key := pack (color.R c) (color.G c) (color.B c) in
        key ∈ packed_pixels buf (col_offset width col) height ∧
        ∀ key', occurrences key' (packed_pixels buf (col_offset width col) height)
                ≤ occurrences key (packed_pixels buf (col_offset width col) height)) ∧
       ((∃ top, ∀ key', key' ≠ top →
                  occurrences key' (packed_pixels buf (col_offset width col) height)
                  < occurrences top (packed_pixels buf (col_offset width col) height)) →
        ∀ order', range_order_valid order' →
                  MostCommonColorCol order' buf col width height = Ok c).
Proof.
  intros Ho Hs Hh Hc Hl.
  destruct (MostCommonColorCol_spec order buf col width height Ho Hs Hh Hc Hl) as (c & Ec & Hmax).
  exists c. split; [done|]. split; [done|].
  intros (top & Htop) order' Ho'.
  destruct (MostCommonColorCol_key order buf col width height Ho Hs Hh Hc Hl)
    as (k1 & E1 & _ & Hm1).
  destruct (MostCommonColorCol_key order' buf col width height Ho' Hs Hh Hc Hl)
    as (k2 & E2 & _ & Hm2).
  assert (k1 = top) as ->.
  { destruct (decide (k1 = top)) as [|Hne]; [done|].
    specialize (Htop k1 Hne). specialize (Hm1 top). lia. }
  assert (k2 = top) as ->.
  { destruct (decide (k2 = top)) as [|Hne]; [done|].
    specialize (Htop k2 Hne). specialize (Hm2 top). lia. }
  congruence.
Qed.

Lemma MostCommonColorCol_highest_count_witness :
  ∃ c, MostCommonColorCol map_to_list (bytes_of [1; 2; 3; 9; 9; 9; 1; 2; 3; 8; 8; 8]) 0 2 2 = Ok c ∧
       (let key := pack (color.R c) (color.G c) (color.B c) in
        key ∈ packed_pixels (bytes_of [1; 2; 3; 9; 9; 9; 1; 2; 3; 8; 8; 8]) (col_offset 2 0) 2 ∧
        ∀ key', occurrences key'
                  (packed_pixels (bytes_of [1; 2; 3; 9; 9; 9; 1; 2; 3; 8; 8; 8]) (col_offset 2 0) 2)
                ≤ occurrences key
                  (packed_pixels (bytes_of [1; 2; 3; 9; 9; 9; 1; 2; 3; 8; 8; 8]) (col_offset 2 0) 2)) ∧
       ((∃ top, ∀ key', key' ≠ top →
                  occurrences key'
                    (packed_pixels (bytes_of [1; 2; 3; 9; 9; 9; 1; 2; 3; 8; 8; 8]) (col_offset 2 0) 2)
                  < occurrences top
                    (packed_pixels (bytes_of [1; 2; 3; 9; 9; 9; 1; 2; 3; 8; 8; 8]) (col_offset 2 0) 2)) →
        ∀ order', range_order_valid order' →
                  MostCommonColorCol order' (bytes_of [1; 2; 3; 9; 9; 9; 1; 2; 3; 8; 8; 8]) 0 2 2
                  = Ok c).
Proof.
  apply (MostCommonColorCol_highest_count map_to_list
           (bytes_of [1; 2; 3; 9; 9; 9; 1; 2; 3; 8; 8; 8]) 0 2 2).
  - apply range_order_valid_map_to_list.
  - vm_compute. discriminate.
  - lia.
  - lia.
  - vm_compute. discriminate.
Defined.

(** ** Packed keys and colours *)

(** X6: the 24-bit key of MostCommonColor determines the colour: unpacking
    the key of three bytes gives these bytes back with full opacity, so two
    pixels share a key only when they have the same colour. *)
Theorem pack_round_trip r g b r' g' b' :
  0 ≤ r ≤ 255 → 0 ≤ g ≤ 255 → 0 ≤ b ≤ 255 →
  0 ≤ r' ≤ 255 → 0 ≤ g' ≤ 255 → 0 ≤ b' ≤ 255 →
  unpack (pack r g b) = mkRGBA r g b 255 ∧
  0 ≤ pack r g b < 2 ^ 24 ∧
  (pack r g b = pack r' g' b' → r = r' ∧ g = g' ∧ b = b').
Proof.
  intros Hr Hg Hb Hr' Hg' Hb'. split; [by apply unpack_pack|]. split.
  - rewrite pack_value by done. rewrite !Z.shiftl_mul_pow2 by lia.
    assert (∀ a c, 0 ≤ a < 2 ^ 24 → 0 ≤ c < 2 ^ 24 → 0 ≤ Z.lor a c < 2 ^ 24) as Hlor.
    { intros a c Ha Hc. split; [apply Z.lor_nonneg; lia|].
      destruct (decide (Z.lor a c = 0)) as [->|Hne]; [lia|].
      assert (0 ≤ Z.lor a c) by (apply Z.lor_nonneg; lia).
      apply Z.log2_lt_pow2; [lia|]. rewrite Z.log2_lor by lia.
      apply Z.max_lub_lt.
      - destruct (decide (a = 0)) as [->|?]; [simpl; lia|]. apply Z.log2_lt_pow2; lia.
      - destruct (decide (c = 0)) as [->|?]; [simpl; lia|]. apply Z.log2_lt_pow2; lia. }
    apply Hlor; [apply Hlor|]; lia.
  - intros E. apply (f_equal unpack) in E. rewrite !unpack_pack in E by done.
    by injection E.
Qed.

Lemma pack_round_trip_witness :
  unpack (pack 1 2 3) = mkRGBA 1 2 3 255 ∧
  0 ≤ pack 1 2 3 < 2 ^ 24 ∧
  (pack 1 2 3 = pack 1 2 3 → 1 = 1 ∧ 2 = 2 ∧ 3 = 3).
Proof. apply (pack_round_trip 1 2 3 1 2 3); lia. Defined.

(** ** Rows and columns *)

Lemma col_off_width_1 y : 0 ≤ y ≤ max_int → col_off 1 0 y = row_off y.
Proof.
  intros Hy. unfold col_off, row_off.
  rewrite (int_mul_small y 1) by (unfold min_int, max_int in *; lia).
  rewrite int_add_small by (unfold min_int, max_int in *; lia).
  by rewrite Z.mul_1_r, Z.add_0_r.
Qed.

(** X7: on a frame that is one pixel wide the column reducers are the row
    reducers: for every buffer and height, each column reducer at column 0
    and width 1 has the outcome, value or panic, of the row reducer on the
    same buffer with the height for its width. *)
Theorem column_of_narrow_frame order buf height :
  height ≤ max_int →
  AverageColorCol buf 0 1 height = AverageColor buf height ∧
  MinColorCol buf 0 1 height = MinColor buf height ∧
  MaxColorCol buf 0 1 height = MaxColor buf height ∧
  MostCommonColorCol order buf 0 1 height = MostCommonColor order buf height.
Proof.
  intros Hh.
  rewrite AverageColorCol_unfold, AverageColor_unfold, MinColorCol_unfold, MinColor_unfold,
    MaxColorCol_unfold, MaxColor_unfold, MostCommonColorCol_unfold, MostCommonColor_unfold.
  repeat split; f_equal; apply for_loop_ext; intros k t Hk; by rewrite col_off_width_1 by lia.
Qed.

Lemma column_of_narrow_frame_witness :
  AverageColorCol (bytes_of [1; 2; 3; 5; 6; 7]) 0 1 2 = AverageColor (bytes_of [1; 2; 3; 5; 6; 7]) 2 ∧
  MinColorCol (bytes_of [1; 2; 3; 5; 6; 7]) 0 1 2 = MinColor (bytes_of [1; 2; 3; 5; 6; 7]) 2 ∧
  MaxColorCol (bytes_of [1; 2; 3; 5; 6; 7]) 0 1 2 = MaxColor (bytes_of [1; 2; 3; 5; 6; 7]) 2 ∧
  MostCommonColorCol map_to_list (bytes_of [1; 2; 3; 5; 6; 7]) 0 1 2
    = MostCommonColor map_to_list (bytes_of [1; 2; 3; 5; 6; 7]) 2.
Proof.
  apply (column_of_narrow_frame map_to_list (bytes_of [1; 2; 3; 5; 6; 7]) 2).
  vm_compute. discriminate.
Defined.

Lemma index_app_l s extra i : 0 ≤ i < len s → index (s ++ extra) i = index s i.
Proof.
  intros Hi. unfold index, len in *. rewrite length_app.
  destruct (Z.leb_spec 0 i), (Z.ltb_spec i (Z.of_nat (length s))),
    (Z.ltb_spec i (Z.of_nat (length s + length extra))); try lia.
  simpl. by rewrite lookup_app_l by lia.
Qed.

(** X8: the row reducers read the first 3*width bytes of the row and
    nothing else: bytes that follow them do not change the outcome. *)
Theorem row_reducers_read_prefix order row extra width :
  slice_ok row → 3 * width ≤ len row →
  AverageColor (row ++ extra) width = AverageColor row width ∧
  MinColor (row ++ extra) width = MinColor row width ∧
  MaxColor (row ++ extra) width = MaxColor row width ∧
  MostCommonColor order (row ++ extra) width = MostCommonColor order row width.
Proof.
  intros Hs Hl.
  assert (∀ k, 0 ≤ k < width →
            index (row ++ extra) (row_off k) = index row (row_off k) ∧
            index (row ++ extra) (int_add (row_off k) 1) = index row (int_add (row_off k) 1) ∧
            index (row ++ extra) (int_add (row_off k) 2) = index row (int_add (row_off k) 2))
    as Hread.
  { intros k Hk. destruct (row_off_ok row width k Hs Hl Hk) as (-> & H0 & H3).
    unfold slice_ok, maxAlloc in Hs.
    rewrite !int_add_small by (unfold min_int, max_int; lia).
    repeat split; apply index_app_l; lia. }
  rewrite !AverageColor_unfold, !MinColor_unfold, !MaxColor_unfold, !MostCommonColor_unfold.
  repeat split; f_equal; apply for_loop_ext; intros k t Hk;
    destruct (Hread k Hk) as (Hr & Hg & Hb).
  - unfold sum_step. by rewrite Hr, Hg, Hb.
  - unfold min_step. by rewrite Hr, Hg, Hb.
  - unfold max_step. by rewrite Hr, Hg, Hb.
  - unfold count_step. by rewrite Hr, Hg, Hb.
Qed.

Lemma row_reducers_read_prefix_witness :
  AverageColor (bytes_of [1; 2; 3] ++ bytes_of [9; 9]) 1 = AverageColor (bytes_of [1; 2; 3]) 1 ∧
  MinColor (bytes_of [1; 2; 3] ++ bytes_of [9; 9]) 1 = MinColor (bytes_of [1; 2; 3]) 1 ∧
  MaxColor (bytes_of [1; 2; 3] ++ bytes_of [9; 9]) 1 = MaxColor (bytes_of [1; 2; 3]) 1 ∧
  MostCommonColor map_to_list (bytes_of [1; 2; 3] ++ bytes_of [9; 9]) 1
    = MostCommonColor map_to_list (bytes_of [1; 2; 3]) 1.
Proof.
  apply (row_reducers_read_prefix map_to_list (bytes_of [1; 2; 3]) (bytes_of [9; 9]) 1).
  - vm_compute. discriminate.
  - vm_compute. discriminate.
Defined.

(** ** The pixels of the image *)

Lemma frame_of_0 stream fs : frame_of stream fs 0 = take (Z.to_nat fs) stream.
Proof. unfold frame_of. by rewrite Z.mul_0_l. Qed.

Lemma frame_of_drop stream fs i :
  0 ≤ fs → 0 ≤ i →
  frame_of (drop (Z.to_nat fs) stream) fs i = frame_of stream fs (i + 1).
Proof.
  intros Hfs Hi. unfold frame_of. rewrite drop_drop. do 2 f_equal. nia.
Qed.

Section FramePixels.

Context (order : gmap Z Z → list (Z * Z)) (mode : string) (vertical : bool).
Context (width height : Z).
Hypothesis width_pos : 1 ≤ width.
Hypothesis height_pos : 1 ≤ height.
Hypothesis frame_fits : width * height * 3 ≤ maxAlloc.

(** One pass of the frame loop writes the colours of the frame's line into
    line [frameIdx] and leaves every other line as it is. *)
Lemma process_frame_pixels frameBuf frameIdx img :
  len frameBuf = width * height * 3 →
  ∃ img', process_frame order mode vertical width height frameBuf frameIdx img = Ok img' ∧
          image.Bounds img' = image.Bounds img ∧
          (∀ i k, i ≠ frameIdx → line_pixel vertical img' i k = line_pixel vertical img i k) ∧
          (∀ k, 0 ≤ k < line_length vertical width height →
                line_in vertical img frameIdx k = true →
                line_color order mode vertical width height frameBuf k
                  = Ok (line_pixel vertical img' frameIdx k)).
Proof using width_pos height_pos frame_fits.
  intros Hlen. unfold process_frame, line_color, line_pixel, line_in, line_length.
  assert (slice_ok frameBuf) as Hs by (unfold slice_ok; lia).
  destruct vertical.
  - apply (for_loop_inv
      (λ j t, image.Bounds t = image.Bounds img ∧
              (∀ i k, i ≠ frameIdx → image.At t k i = image.At img k i) ∧
              (∀ k, 0 ≤ k < j → image.In k frameIdx (image.Bounds img) = true →
                    switch_mode_col order mode frameBuf k width height
                      = Ok (image.At t k frameIdx)))); [lia | |].
    { split; [done|]. split; [done|]. intros k Hk. lia. }
    intros x t Hx (Hb & Hother & Hline).
    destruct (switch_mode_col_ok order mode frameBuf x width height) as (c & Hc);
      [done | done | done | lia |].
    rewrite Hc. simpl. eexists. split; [done|]. rewrite Set_Bounds. split; [done|]. split.
    + intros i k Hi. rewrite At_Set.
      destruct (decide ((x, frameIdx) = (k, i))) as [[= <- <-]|_]; [done | by apply Hother].
    + intros k Hk Hin. rewrite At_Set.
      destruct (decide ((x, frameIdx) = (k, frameIdx))) as [[= <-]|Hne].
      * by rewrite Hb, Hin.
      * apply Hline; [|done]. destruct (decide (k = x)) as [->|]; [done | lia].
  - apply (for_loop_inv
      (λ j t, image.Bounds t = image.Bounds img ∧
              (∀ i k, i ≠ frameIdx → image.At t i k = image.At img i k) ∧
              (∀ k, 0 ≤ k < j → image.In frameIdx k (image.Bounds img) = true →
                    switch_mode_row order mode (row_of frameBuf width k) width
                      = Ok (image.At t frameIdx k)))); [lia | |].
    { split; [done|]. split; [done|]. intros k Hk. lia. }
    intros y t Hy (Hb & Hother & Hline).
    assert (0 ≤ y * width) by nia.
    assert (y * width * 3 + width * 3 ≤ width * height * 3) by nia.
    unfold maxAlloc in frame_fits.
    rewrite (int_mul_small y), (int_mul_small (y * width)), (int_mul_small width),
      int_add_small by (unfold min_int, max_int; lia).
    destruct (slice_spec frameBuf (y * width * 3) (y * width * 3 + width * 3))
      as [-> Hrow]; [lia | lia |].
    replace (y * width * 3 + width * 3 - y * width * 3) with (width * 3) in * by lia.
    fold (row_of frameBuf width y). fold (row_of frameBuf width y) in Hrow.
    simpl.
    destruct (switch_mode_row_ok order mode (row_of frameBuf width y) width) as (c & Hc).
    { unfold slice_ok, maxAlloc. lia. }
    { done. }
    { lia. }
    rewrite Hc. simpl. eexists. split; [done|]. rewrite Set_Bounds. split; [done|]. split.
    + intros i k Hi. rewrite At_Set.
      destruct (decide ((frameIdx, y) = (i, k))) as [[= <- <-]|_]; [done | by apply Hother].
    + intros k Hk Hin. rewrite At_Set.
      destruct (decide ((frameIdx, y) = (frameIdx, k))) as [[= <-]|Hne].
      * by rewrite Hb, Hin.
      * apply Hline; [|done]. destruct (decide (k = y)) as [->|]; [done | lia].
Qed.

(** [M] passes: frame [i - idx] of the stream is in line [i], for every
    line of the canvas from [idx] on; the lines before [idx] stay. *)
Lemma process_frames_pixels (M : nat) : ∀ stream idx img,
  Z.of_nat M * (width * height * 3) ≤ len stream → 0 ≤ idx → idx + Z.of_nat M ≤ max_int →
  ∃ img', process_frames order mode vertical width height (width * height * 3)
            M stream idx img = Ok img' ∧
          image.Bounds img' = image.Bounds img ∧
          (∀ i k, i < idx → line_pixel vertical img' i k = line_pixel vertical img i k) ∧
          (∀ i k, idx ≤ i < idx + Z.of_nat M → 0 ≤ k < line_length vertical width height →
                  line_in vertical img i k = true →
                  line_color order mode vertical width height
                    (frame_of stream (width * height * 3) (i - idx)) k
                  = Ok (line_pixel vertical img' i k)).
Proof using width_pos height_pos frame_fits.
  induction M as [|M IH]; intros stream idx img Hlen Hidx Hmax.
  - exists img. split; [done|]. split; [done|]. split; [done|]. intros i k Hi. lia.
  - cbn [process_frames].
    destruct (process_frame_pixels (take (Z.to_nat (width * height * 3)) stream) idx img)
      as (img1 & -> & Hb1 & Ho1 & Hl1).
    { apply len_take. nia. }
    simpl. rewrite int_add_small by (unfold min_int, max_int in *; lia).
    destruct (IH (drop (Z.to_nat (width * height * 3)) stream) (idx + 1) img1)
      as (img2 & -> & Hb2 & Ho2 & Hl2).
    { rewrite len_drop by nia. nia. }
    { lia. }
    { lia. }
    exists img2. split; [done|]. split; [congruence|]. split.
    + intros i k Hi. rewrite Ho2 by lia. apply Ho1. lia.
    + intros i k Hi Hk Hin. destruct (decide (i = idx)) as [->|Hne].
      * rewrite Z.sub_diag, frame_of_0. rewrite Ho2 by lia. by apply Hl1.
      * replace (i - idx) with (i - (idx + 1) + 1) by lia.
        rewrite <- frame_of_drop by nia. apply Hl2; [lia | done |].
        unfold line_in in *. by rewrite Hb1.
Qed.

End FramePixels.

Lemma line_pixel_crop vertical width height frameCount n pix i k :
  1 ≤ width → 1 ≤ height → 1 ≤ maxFrames frameCount →
  0 ≤ i < Z.min n (maxFrames frameCount) → 0 ≤ k < line_length vertical width height →
  let canvas := image.mkImage (canvas_rect vertical width height frameCount) pix in
  line_in vertical canvas i k = true ∧
  line_pixel vertical (image.SubImage canvas (crop_rect vertical width height n)) i k
    = line_pixel vertical canvas i k.
Proof.
  intros Hw Hh Hc Hi Hk. cbv zeta.
  unfold line_in, line_pixel, line_length, crop_rect, canvas_rect in *.
  set (cap := maxFrames frameCount) in *. destruct vertical.
  - rewrite SubImage_Rect by lia. unfold image.At. cbn [image.Bounds image.Pix].
    rewrite !In_Rect by lia.
    destruct (Z.leb_spec 0 k), (Z.ltb_spec k width), (Z.leb_spec 0 i), (Z.ltb_spec i cap),
      (Z.ltb_spec k (Z.min width width)), (Z.ltb_spec i (Z.min cap n)); try lia. done.
  - rewrite SubImage_Rect by lia. unfold image.At. cbn [image.Bounds image.Pix].
    rewrite !In_Rect by lia.
    destruct (Z.leb_spec 0 k), (Z.ltb_spec k height), (Z.leb_spec 0 i), (Z.ltb_spec i cap),
      (Z.ltb_spec k (Z.min height height)), (Z.ltb_spec i (Z.min cap n)); try lia. done.
Qed.

(** X9: what the image shows.  For a run on [N] full frames, line [i] of the
    cropped canvas holds, at each position [k], the colour that the reducer
    of the mode returns for row [k] of frame [i] (for column [k] when
    vertical), for every frame that has a line in the canvas. *)
Theorem finalImage_pixels order mode vertical env W H frameCount (N : nat) p fuel :
  valid_run env vertical W H frameCount →
  len (stdout env) = Z.of_nat N * (W * H * 3) + p → 0 ≤ p < W * H * 3 →
  (N < fuel)%nat → Z.of_nat N ≤ max_int →
  ∃ img,
    finalImage order env mode vertical fuel = Ok (img, (W, H)) ∧
    ∀ i k, 0 ≤ i < Z.min (Z.of_nat N) (maxFrames frameCount) →
           0 ≤ k < line_length vertical W H →
           line_color order mode vertical W H (frame_of (stdout env) (W * H * 3) i) k
             = Ok (line_pixel vertical img i k).
Proof.
  intros Hrun Hlen Hp Hfuel HN.
  destruct (finalImage_run order mode vertical env W H frameCount Hrun N p fuel Hlen Hp Hfuel HN)
    as (canvas & Hc & Hb & Hf).
  exists (image.SubImage canvas (crop_rect vertical W H (Z.of_nat N))). split; [done|].
  intros i k Hi Hk.
  destruct Hrun as [_ _ _ Hw Hh Hcap [Hfs _] _ _].
  destruct (process_frames_pixels order mode vertical W H Hw Hh Hfs N (stdout env) 0
              (image.mkImage (canvas_rect vertical W H frameCount) ∅))
    as (canvas' & Hc' & _ & _ & Hpix); [nia | lia | lia |].
  rewrite Hc in Hc'. injection Hc' as <-.
  destruct canvas as [bounds pix]. simpl in Hb. subst bounds.
  destruct (line_pixel_crop vertical W H frameCount (Z.of_nat N) pix i k)
    as [Hin ->]; try done.
  rewrite <- (Hpix i k); [by rewrite Z.sub_0_r | lia | done |].
  destruct (line_pixel_crop vertical W H frameCount (Z.of_nat N) ∅ i k)
    as [Hin' _]; done.
Qed.

Lemma finalImage_pixels_witness :
  ∃ img,
    finalImage map_to_list
      (env_of 2 2 1 (bytes_of [0; 0; 0; 255; 255; 255; 10; 20; 30; 20; 10; 0]))
      "average" false 2 = Ok (img, (2, 2)) ∧
    ∀ i k, 0 ≤ i < Z.min (Z.of_nat 1) (maxFrames 1) →
           0 ≤ k < line_length false 2 2 →
           line_color map_to_list "average" false 2 2
             (frame_of (stdout (env_of 2 2 1
                          (bytes_of [0; 0; 0; 255; 255; 255; 10; 20; 30; 20; 10; 0])))
                       (2 * 2 * 3) i) k
             = Ok (line_pixel false img i k).
Proof.
  apply (finalImage_pixels map_to_list "average" false
           (env_of 2 2 1 (bytes_of [0; 0; 0; 255; 255; 255; 10; 20; 30; 20; 10; 0]))
           2 2 1 1 0 2).
  - constructor; try done; try lia; vm_compute; try done; split; discriminate.
  - vm_compute. reflexivity.
  - lia.
  - lia.
  - vm_compute. discriminate.
Defined.

(** ** Errors of the run *)

(** The frame loop on a pipe that fails after [M] full frames and [p]
    further bytes. *)
Lemma frame_loop_read_failure order mode vertical W H (M : nat) p fuel stream img :
  1 ≤ W → 1 ≤ H → W * H * 3 ≤ maxAlloc →
  len stream = Z.of_nat M * (W * H * 3) + p → 0 ≤ p < W * H * 3 →
  (M < fuel)%nat → Z.of_nat M ≤ max_int →
  frame_loop order fuel mode vertical W H (W * H * 3) ReadFailure stream img 0
    = Error ErrReadFrame.
Proof.
  intros Hw Hh Hfs Hlen Hp Hfuel HM.
  replace fuel with (M + Datatypes.S (fuel - M - 1))%nat by lia.
  rewrite frame_loop_frames by lia.
  destruct (process_frames_ok order mode vertical W H M Hw Hh Hfs stream 0 img)
    as (img' & -> & _); [lia | lia | lia |].
  simpl. unfold ReadFull.
  destruct (Z.leb_spec (W * H * 3) (len (drop (M * Z.to_nat (W * H * 3)) stream))) as [Hle|];
    [|done].
  unfold len in *. rewrite length_drop in Hle. nia.
Qed.

(** X10: when the pipe of the decoder fails instead of ending, the run has no
    result, however many frames had been read before: both entry points
    return the error "failed to read frame". *)
Theorem read_failure_aborts order addLegend base_name legend mode vertical resize
    env W H frameCount (N : nat) p fuel :
  valid_run env vertical W H frameCount →
  len (stdout env) = Z.of_nat N * (W * H * 3) + p → 0 ≤ p < W * H * 3 →
  (N < fuel)%nat → Z.of_nat N ≤ max_int →
  Generate order (with_stdout_end env ReadFailure) mode vertical resize fuel
    = Error ErrReadFrame ∧
  GenerateWithLegend order addLegend (with_stdout_end env ReadFailure) base_name
    mode vertical resize legend fuel = Error ErrReadFrame.
Proof.
  intros Hrun Hlen Hp Hfuel HN.
  assert (finalImage order (with_stdout_end env ReadFailure) mode vertical fuel
          = Error ErrReadFrame) as Hf.
  { destruct Hrun as [probed frames_nonzero [Hpipe Hstart] width_pos height_pos capacity_pos
                        [Hfs Hcanvas] clean_end in_time].
    unfold finalImage. cbn [info pipe_ok start_ok stdout stdout_end with_stdout_end].
    rewrite probed.
    destruct (Z.eqb_spec frameCount 0); [done|].
    destruct (Z.eqb_spec H 0); [lia|]. simpl.
    rewrite Hpipe, Hstart. simpl.
    assert (W * H ≤ W * H * 3) by nia.
    assert ((if vertical
             then image.NewRGBA (image.Rect 0 0 W (maxFrames frameCount))
             else image.NewRGBA (image.Rect 0 0 (maxFrames frameCount) H))
            = Ok (image.mkImage (canvas_rect vertical W H frameCount) ∅)) as ->.
    { unfold canvas_rect. destruct vertical; apply NewRGBA_Rect; lia. }
    simpl. unfold maxAlloc in Hfs.
    rewrite (int_mul_small W), int_mul_small by (unfold min_int, max_int; lia).
    assert (make_bytes (W * H * 3) = Ok ()) as ->.
    { unfold make_bytes, maxAlloc.
      destruct (Z.ltb_spec (W * H * 3) 0), (Z.gtb_spec (W * H * 3) (2 ^ 48)); try lia. done. }
    simpl.
    by rewrite (frame_loop_read_failure order mode vertical W H N p fuel). }
  unfold Generate, GenerateWithLegend. by rewrite Hf.
Qed.

Lemma read_failure_aborts_witness :
  Generate map_to_list (with_stdout_end (env_of 1 1 2 (bytes_of [1; 2; 3; 4])) ReadFailure)
    "max" false ResizeNone 2 = Error ErrReadFrame ∧
  GenerateWithLegend map_to_list (λ img _ _, img)
    (with_stdout_end (env_of 1 1 2 (bytes_of [1; 2; 3; 4])) ReadFailure) EmptyString
    "max" false ResizeNone (mkLegendConfig true 24 EmptyString) 2 = Error ErrReadFrame.
Proof.
  apply (read_failure_aborts map_to_list (λ img _ _, img) EmptyString
           (mkLegendConfig true 24 EmptyString) "max" false ResizeNone
           (env_of 1 1 2 (bytes_of [1; 2; 3; 4])) 1 1 2 1 1 2).
  - constructor; try done; try lia; vm_compute; try done; split; discriminate.
  - vm_compute. reflexivity.
  - lia.
  - lia.
  - vm_compute. discriminate.
Defined.

(** The outcome of cmd.Wait is looked at after the loop, and only together
    with the deadline. *)
Lemma finalImage_with_wait order env mode vertical fuel failed deadline :
  finalImage order (with_wait env failed deadline) mode vertical fuel =
  match finalImage order (with_wait env false false) mode vertical fuel with
  | Ok r => if failed && deadline then Error ErrTimeout else Ok r
  | other => other
  end.
Proof.
  unfold finalImage. cbn [info pipe_ok start_ok stdout stdout_end wait_err deadline_exceeded
                          with_wait].
  destruct (info env) as [[[width height] frameCount]|]; [|done].
  destruct ((frameCount =? 0) || (height =? 0)); [done|].
  destruct (negb (pipe_ok env)); [done|]. destruct (negb (start_ok env)); [done|].
  destruct (if vertical then _ else _) as [dnaImage| | |]; simpl; try done.
  destruct (make_bytes _); simpl; try done.
  destruct (frame_loop _ _ _ _ _ _ _ _ _ _ _) as [[img idx]| | |]; simpl; try done.
Qed.

Lemma with_wait_in_time env :
  wait_err env && deadline_exceeded env = false →
  ∀ order mode vertical fuel,
    finalImage order env mode vertical fuel
    = finalImage order (with_wait env false false) mode vertical fuel.
Proof.
  intros Ht order mode vertical fuel.
  replace env with (with_wait env (wait_err env) (deadline_exceeded env)) at 1
    by (by destruct env).
  rewrite finalImage_with_wait, Ht. by destruct (finalImage _ _ _ _ _).
Qed.

(** X11: the exit of the decoder.  When the decoder ends with an error and
    the deadline has passed, the run returns the timeout error although every
    frame of the stream has been read into the canvas; when it ends with an
    error and the deadline has not passed, the error is dropped, and the run
    returns what it returns for a decoder that ends well. *)
Theorem decoder_exit_status order mode vertical resize env W H frameCount (N : nat) p fuel :
  valid_run env vertical W H frameCount →
  len (stdout env) = Z.of_nat N * (W * H * 3) + p → 0 ≤ p < W * H * 3 →
  (N < fuel)%nat → Z.of_nat N ≤ max_int →
  Generate order (with_wait env true true) mode vertical resize fuel = Error ErrTimeout ∧
  Generate order (with_wait env true false) mode vertical resize fuel
    = Generate order env mode vertical resize fuel.
Proof.
  intros Hrun Hlen Hp Hfuel HN.
  destruct (finalImage_run order mode vertical env W H frameCount Hrun N p fuel Hlen Hp Hfuel HN)
    as (canvas & _ & _ & Hf).
  rewrite (with_wait_in_time env (run_in_time _ _ _ _ _ Hrun)) in Hf.
  split.
  - unfold Generate. by rewrite finalImage_with_wait, Hf.
  - apply Generate_same_crop; [|done|done].
    rewrite finalImage_with_wait, Hf. simpl.
    by rewrite (with_wait_in_time env (run_in_time _ _ _ _ _ Hrun)).
Qed.

Lemma decoder_exit_status_witness :
  Generate map_to_list (with_wait (env_of 1 1 2 (bytes_of [1; 2; 3; 4])) true true)
    "max" false ResizeNone 2 = Error ErrTimeout ∧
  Generate map_to_list (with_wait (env_of 1 1 2 (bytes_of [1; 2; 3; 4])) true false)
    "max" false ResizeNone 2
    = Generate map_to_list (env_of 1 1 2 (bytes_of [1; 2; 3; 4])) "max" false ResizeNone 2.
Proof.
  apply (decoder_exit_status map_to_list "max" false ResizeNone
           (env_of 1 1 2 (bytes_of [1; 2; 3; 4])) 1 1 2 1 1 2).
  - constructor; try done; try lia; vm_compute; try done; split; discriminate.
  - vm_compute. reflexivity.
  - lia.
  - lia.
  - vm_compute. discriminate.
Defined.

(** ** The size of a resized result *)



(** A target of zero width: the resize returns an empty image, which the
    encoder refuses. *)
Example Generate_resize_zero_width :
  Generate map_to_list (env_of 1 1 2 (bytes_of [1; 2; 3; 4])) "max" false
    (ResizeTo 0 3) 2 = Error ErrEncodePNG.
Proof. vm_compute. reflexivity. Qed.

(** ** addBorderLines *)

Ltac bool_cases :=
  repeat match goal with
         | |- context [?a <=? ?b] => destruct (Z.leb_spec a b)
         | |- context [?a <? ?b] => destruct (Z.ltb_spec a b)
         | |- context [?a =? ?b] => destruct (Z.eqb_spec a b)
         end; simpl; try done; try lia.

Lemma border_loop (f : Z → Z → RGBA) w h dst0 :
  0 ≤ w → 0 ≤ h ≤ max_int → image.Bounds dst0 = image.Rect 0 0 w h →
  (∀ x y, 0 ≤ x < w → 0 ≤ y < h → image.At dst0 x y = f x y) →
  ∃ dst,
    for_loop w (λ x dst,
      let dst := image.Set_ dst x 0 (mkRGBA 80 80 80 255) in
      Ok (image.Set_ dst x (int_sub h 1) (mkRGBA 80 80 80 255))) dst0 = Ok dst ∧
    image.Bounds dst = image.Rect 0 0 w h ∧
    ∀ x y, 0 ≤ x < w → 0 ≤ y < h →
           image.At dst x y = if (y =? 0) || (y =? h - 1) then borderColor else f x y.
Proof.
  intros Hw Hh Hb Hf.
  destruct (for_loop_inv
    (λ j t, image.Bounds t = image.Rect 0 0 w h ∧
            ∀ x y, 0 ≤ x < w → 0 ≤ y < h →
                   image.At t x y =
                   if (x <? j) && ((y =? 0) || (y =? h - 1)) then borderColor else f x y)
    (λ x dst, let dst := image.Set_ dst x 0 (mkRGBA 80 80 80 255) in
              Ok (image.Set_ dst x (int_sub h 1) (mkRGBA 80 80 80 255))) w dst0 Hw)
    as (dst & Hdst & Hbd & Hat).
  - split; [done|]. intros x y Hx Hy. rewrite Hf by done.
    destruct (Z.ltb_spec x 0); [lia | done].
  - intros j t Hj [Hbt Ht]. eexists. split; [done|]. cbv zeta.
    rewrite !Set_Bounds. split; [done|].
    intros x y Hx Hy. rewrite int_sub_small by (unfold min_int, max_int in *; lia).
    rewrite !At_Set, Set_Bounds, Hbt, !In_Rect by lia. rewrite Ht by done.
    repeat case_decide; simplify_eq; bool_cases.
    all: exfalso;
      match goal with Hne : (?u, ?a) ≠ (?v, ?b) |- _ => apply Hne; f_equal; lia end.
  - exists dst. split; [done|]. split; [done|].
    intros x y Hx Hy. rewrite Hat by done.
    destruct (Z.ltb_spec x w); [done | lia].
Qed.

Lemma addBorderLines_spec src minX minY w h :
  image.Bounds src = image.mkRectangle (image.Pt minX minY) (image.Pt (minX + w) (minY + h)) →
  min_int ≤ minX → minX + w ≤ max_int → min_int ≤ minY → minY + h ≤ max_int →
  0 ≤ w ≤ maxAlloc → 0 ≤ h ≤ maxAlloc → 4 * w * h ≤ maxAlloc →
  ∃ dst,
    addBorderLines src = Ok dst ∧
    image.Bounds dst = image.Rect 0 0 w h ∧
    ∀ x y, 0 ≤ x < w → 0 ≤ y < h →
           image.At dst x y =
           if (y =? 0) || (y =? h - 1) then borderColor
           else image.At src (minX + x) (minY + y).
Proof.
  intros Hb HminX HmaxX HminY HmaxY Hw Hh Hfit.
  pose proof maxAlloc_int as Hmax.
  assert (image.Dx (image.Bounds src) = w) as EW.
  { rewrite Hb. unfold image.Dx. cbn [image.X image.Max image.Min].
    rewrite int_sub_small; unfold min_int, max_int in *; lia. }
  assert (image.Dy (image.Bounds src) = h) as EH.
  { rewrite Hb. unfold image.Dy. cbn [image.Y image.Max image.Min].
    rewrite int_sub_small; unfold min_int, max_int in *; lia. }
  unfold addBorderLines. rewrite EW, EH. rewrite Hb. cbn [image.X image.Y image.Min].
  rewrite NewRGBA_Rect0 by lia. simpl.
  destruct (fill_loops (λ x y, image.At src (int_add minX x) (int_add minY y)) w h
              (image.mkImage (image.Rect 0 0 w h) ∅)) as (dst1 & -> & Hb1 & Hpix1);
    [lia | lia | done |].
  destruct (border_loop (λ x y, image.At src (int_add minX x) (int_add minY y)) w h dst1)
    as (dst & Hdst & Hbd & Hpix); [lia | lia | done | done |].
  exists dst. split; [exact Hdst|]. split; [done|].
  intros x y Hx Hy. rewrite Hpix by done.
  by rewrite !int_add_small by (unfold min_int, max_int in *; lia).
Qed.

(** X13: addBorderLines returns an image of the size of its source, moved to
    the origin, in which the first and the last row are grey (80, 80, 80) and
    every other pixel is the pixel of the source: the two lines are drawn
    over rows of the picture, not added to it, and a picture of one or two
    rows comes out grey all over. *)
Theorem addBorderLines_pixels src :
  well_formed src → image_width src ≤ maxAlloc → image_height src ≤ maxAlloc →
  ∃ dst,
    addBorderLines src = Ok dst ∧
    image.Bounds dst = image.Rect 0 0 (image_width src) (image_height src) ∧
    (∀ x y, 0 ≤ x < image_width src → 0 ≤ y < image_height src →
            image.At dst x y =
            if (y =? 0) || (y =? image_height src - 1) then borderColor
            else image.At src (image.X (image.Min (image.Bounds src)) + x)
                              (image.Y (image.Min (image.Bounds src)) + y)) ∧
    (image_height src ≤ 2 →
     ∀ x y, 0 ≤ x < image_width src → 0 ≤ y < image_height src →
            image.At dst x y = borderColor).
Proof.
  intros Hwf HW HH. pose proof Hwf as [H1 H2 H3 H4 H5 H6 H7 H8].
  unfold image_width, image_height in *.
  set (minX := image.X (image.Min (image.Bounds src))) in *.
  set (minY := image.Y (image.Min (image.Bounds src))) in *.
  set (w := image.X (image.Max (image.Bounds src)) - minX) in *.
  set (h := image.Y (image.Max (image.Bounds src)) - minY) in *.
  destruct (addBorderLines_spec src minX minY w h) as (dst & Hdst & Hb & Hpix); try lia.
  { unfold w, h, minX, minY. destruct (image.Bounds src) as [[a b] [c d]].
    cbn [image.X image.Y image.Min image.Max]. do 2 f_equal; lia. }
  exists dst. split; [done|]. split; [done|]. split; [done|].
  intros Hh2 x y Hx Hy. rewrite Hpix by done.
  destruct (Z.eqb_spec y 0), (Z.eqb_spec y (h - 1)); simpl; try done. lia.
Qed.

Lemma addBorderLines_pixels_witness :
  ∃ dst,
    addBorderLines two_pixels = Ok dst ∧
    image.Bounds dst = image.Rect 0 0 (image_width two_pixels) (image_height two_pixels) ∧
    (∀ x y, 0 ≤ x < image_width two_pixels → 0 ≤ y < image_height two_pixels →
            image.At dst x y =
            if (y =? 0) || (y =? image_height two_pixels - 1) then borderColor
            else image.At two_pixels (image.X (image.Min (image.Bounds two_pixels)) + x)
                                     (image.Y (image.Min (image.Bounds two_pixels)) + y)) ∧
    (image_height two_pixels ≤ 2 →
     ∀ x y, 0 ≤ x < image_width two_pixels → 0 ≤ y < image_height two_pixels →
            image.At dst x y = borderColor).
Proof.
  apply (addBorderLines_pixels two_pixels).
  - apply two_pixels_well_formed.
  - vm_compute. discriminate.
  - vm_compute. discriminate.
Defined.



(** ** The resize argument *)

Lemma digit_digit_char d : 0 ≤ d ≤ 9 → digit (digit_char d) = Some d.
Proof.
  intros Hd.
  assert (d = 0 ∨ d = 1 ∨ d = 2 ∨ d = 3 ∨ d = 4 ∨ d = 5 ∨ d = 6 ∨ d = 7 ∨ d = 8 ∨ d = 9)
    as Hcases by lia.
  repeat destruct Hcases as [->|Hcases]; try subst d; reflexivity.
Qed.

Lemma digits_value_app s1 s2 n :
  digits_value (s1 +:+ s2) n = digits_value s1 n ≫= digits_value s2.
Proof.
  revert n. induction s1 as [|c s1 IH]; intros n; [done|].
  simpl. destruct (digit c) as [d|]; simpl; [apply IH | done].
Qed.

Lemma length_app_string (s1 s2 : string) :
  String.length (s1 +:+ s2) = (String.length s1 + String.length s2)%nat.
Proof. induction s1 as [|c s1 IH]; simpl; [done | by rewrite IH]. Qed.

(** The numeral of [n] reads back as [n]. *)
Lemma numeral_value fuel : ∀ n a,
  0 ≤ n < 10 ^ Z.of_nat fuel →
  digits_value (numeral fuel n) a = Some (a * 10 ^ Z.of_nat (String.length (numeral fuel n)) + n).
Proof.
  induction fuel as [|fuel IH]; intros n a Hn.
  - simpl in Hn. assert (n = 0) as -> by lia. simpl. f_equal. lia.
  - cbn [numeral]. destruct (Z.ltb_spec n 10) as [Hlt|Hge].
    + simpl. rewrite digit_digit_char by lia. simpl. f_equal; lia.
    + pose proof (Z.div_mod n 10 ltac:(lia)) as Hdm.
      pose proof (Z.mod_pos_bound n 10 ltac:(lia)) as Hmod.
      assert (0 ≤ n / 10 < 10 ^ Z.of_nat fuel) as Hq.
      { split; [apply Z.div_pos; lia|]. apply Z.div_lt_upper_bound; [lia|].
        rewrite Nat2Z.inj_succ, Z.pow_succ_r in Hn by lia. lia. }
      rewrite digits_value_app, (IH (n / 10) a Hq). simpl.
      rewrite digit_digit_char by lia. simpl. f_equal.
      rewrite length_app_string. simpl String.length.
      rewrite Nat2Z.inj_add. change (Z.of_nat 1) with 1.
      rewrite Z.pow_add_r by lia. lia.
Qed.

Lemma is_digit_digit_char d : 0 ≤ d ≤ 9 → is_digit (digit_char d) = true.
Proof.
  intros Hd. unfold is_digit. apply bool_decide_eq_true.
  rewrite digit_digit_char by done. by eexists.
Qed.

Lemma string_forall_app P s1 s2 :
  string_forall P (s1 +:+ s2) = string_forall P s1 && string_forall P s2.
Proof. induction s1 as [|c s1 IH]; simpl; [done | by rewrite IH, andb_assoc]. Qed.

Lemma numeral_digits fuel : ∀ n,
  0 ≤ n → string_forall is_digit (numeral (Datatypes.S fuel) n) = true ∧
          numeral (Datatypes.S fuel) n ≠ EmptyString.
Proof.
  induction fuel as [|fuel IH]; intros n Hn.
  - cbn [numeral]. destruct (Z.ltb_spec n 10).
    + simpl. rewrite is_digit_digit_char by lia. done.
    + pose proof (Z.mod_pos_bound n 10 ltac:(lia)).
      simpl. rewrite is_digit_digit_char by lia. done.
  - remember (Datatypes.S fuel) as f eqn:Ef. cbn [numeral].
    destruct (Z.ltb_spec n 10).
    + simpl. rewrite is_digit_digit_char by lia. done.
    + pose proof (Z.mod_pos_bound n 10 ltac:(lia)).
      destruct (IH (n / 10)) as [Hd Hne]; [apply Z.div_pos; lia|].
      rewrite string_forall_app, Hd. simpl. rewrite is_digit_digit_char by lia.
      split; [done|]. destruct (numeral f (n / 10)); [done | discriminate].
Qed.

Lemma string_forall_impl (P Q : ascii → bool) s :
  (∀ c, P c = true → Q c = true) → string_forall P s = true → string_forall Q s = true.
Proof.
  intros HPQ. induction s as [|c s IH]; [done|]. simpl.
  intros [Hc Hs]%andb_prop. by rewrite (HPQ c Hc), IH.
Qed.

Lemma is_digit_cases c :
  is_digit c = true →
  is_ascii c = true ∧ lower_ascii c = c ∧ c ≠ "x"%char ∧ c ≠ "-"%char ∧ c ≠ "+"%char ∧
  c ≠ "i"%char.
Proof.
  unfold is_digit. intros [d Hd]%bool_decide_eq_true. unfold digit in Hd.
  destruct (Z.leb_spec 0 (code c - 48)), (Z.leb_spec (code c - 48) 9); try done.
  unfold is_ascii, lower_ascii.
  destruct (Z.ltb_spec (code c) 128), (Z.leb_spec 65 (code c)), (Z.leb_spec (code c) 90);
    try lia; simpl; repeat split; try done; intros ->; unfold code in *; simpl in *; lia.
Qed.

Lemma is_numeric_cases c :
  is_numeric c = true → is_ascii c = true ∧ lower_ascii c = c ∧ c ≠ "x"%char.
Proof.
  unfold is_numeric. intros [Hd| ->%bool_decide_eq_true]%orb_prop.
  - destruct (is_digit_cases c Hd) as (? & ? & ? & _). done.
  - done.
Qed.

Lemma numeral_20 n :
  0 ≤ n → string_forall is_digit (numeral 20 n) = true ∧ numeral 20 n ≠ EmptyString.
Proof. apply (numeral_digits 19). Qed.

Lemma Itoa_numeric n : string_forall is_numeric (Itoa n) = true.
Proof.
  assert (∀ m, 0 ≤ m → string_forall is_numeric (numeral 20 m) = true) as Hnum.
  { intros m Hm. apply (string_forall_impl is_digit); [|by apply numeral_20].
    intros c Hc. unfold is_numeric. by rewrite Hc. }
  unfold Itoa. destruct (Z.ltb_spec n 0).
  - cbn [string_forall]. apply andb_true_intro. split; [reflexivity|]. apply Hnum. lia.
  - apply Hnum. lia.
Qed.

Lemma Itoa_head n : ∃ c s, Itoa n = String c s ∧ is_numeric c = true.
Proof.
  pose proof (Itoa_numeric n) as Hn. unfold Itoa in *. destruct (Z.ltb_spec n 0).
  - by eexists _, _.
  - destruct (numeral_20 n) as [_ Hne]; [lia|].
    destruct (numeral 20 n) as [|c s]; [done|]. cbn [string_forall] in Hn.
    apply andb_prop in Hn as [Hc _]. by eexists _, _.
Qed.

(** Atoi reads the numeral of an [int] back. *)
Lemma Atoi_Itoa n : min_int ≤ n ≤ max_int → Atoi (Itoa n) = Some n.
Proof.
  intros Hn. unfold Itoa. destruct (Z.ltb_spec n 0) as [Hneg|Hpos].
  - destruct (numeral_20 (- n)) as [_ Hne]; [lia|].
    unfold Atoi. rewrite decide_True by done.
    pose proof (numeral_value 20 (- n) 0) as Hv.
    destruct (numeral 20 (- n)) as [|c s]; [done|].
    rewrite Hv by (unfold min_int in *; lia). cbn [mbind option_bind].
    rewrite Z.mul_0_l, Z.add_0_l, Z.opp_involutive.
    destruct (Z.leb_spec min_int n), (Z.leb_spec n max_int); try lia. done.
  - destruct (numeral_20 n) as [Hd Hne]; [lia|].
    pose proof (numeral_value 20 n 0) as Hv.
    destruct (numeral 20 n) as [|c s]; [done|].
    cbn [string_forall] in Hd. apply andb_prop in Hd as [Hc _].
    destruct (is_digit_cases c Hc) as (_ & _ & _ & Hminus & Hplus & _).
    unfold Atoi. rewrite decide_False, decide_False by done.
    rewrite Hv by (unfold max_int in *; lia). cbn [mbind option_bind].
    rewrite Z.mul_0_l, Z.add_0_l.
    destruct (Z.leb_spec min_int n), (Z.leb_spec n max_int); try lia. done.
Qed.

Lemma string_map_app f s1 s2 :
  string_map f (s1 +:+ s2) = (string_map f s1 +:+ string_map f s2)%string.
Proof. induction s1 as [|c s1 IH]; simpl; [done | by rewrite IH]. Qed.

Lemma string_map_numeric s :
  string_forall is_numeric s = true →
  string_forall is_ascii s = true ∧ string_map lower_ascii s = s ∧
  string_forall (λ c, bool_decide (c ≠ "x"%char)) s = true.
Proof.
  induction s as [|c s IH]; [done|]. simpl. intros [Hc Hs]%andb_prop.
  destruct (is_numeric_cases c Hc) as (Ha & Hl & Hx), (IH Hs) as (IHa & IHl & IHx).
  rewrite Ha, IHa, Hl, IHl, IHx, bool_decide_eq_true_2 by done. done.
Qed.

Lemma Split_no_sep s sep :
  string_forall (λ c, bool_decide (c ≠ sep)) s = true → Split s sep = [s].
Proof.
  induction s as [|c s IH]; [done|]. simpl.
  intros [Hc%bool_decide_eq_true Hs]%andb_prop.
  rewrite decide_False by done. by rewrite IH.
Qed.

Lemma Split_app s1 s2 sep :
  string_forall (λ c, bool_decide (c ≠ sep)) s1 = true →
  Split (s1 +:+ String sep s2) sep = s1 :: Split s2 sep.
Proof.
  induction s1 as [|c s1 IH]; simpl.
  - intros _. by rewrite decide_True.
  - intros [Hc%bool_decide_eq_true Hs]%andb_prop.
    rewrite decide_False by done. by rewrite IH.
Qed.

(** X15: a resize argument written as two decimal numerals with an [x] of
    either case between them is read as that width and that height, for all
    [int] values, negative ones and zero included. *)
Theorem parse_resize_numerals unicode_ToLower w h :
  min_int ≤ w ≤ max_int → min_int ≤ h ≤ max_int →
  parse_resize unicode_ToLower (Itoa w +:+ String "x" (Itoa h)) = ResizeTo w h ∧
  parse_resize unicode_ToLower (Itoa w +:+ String "X" (Itoa h)) = ResizeTo w h.
Proof.
  intros Hw Hh.
  destruct (string_map_numeric _ (Itoa_numeric w)) as (Haw & Hlw & Hxw).
  destruct (string_map_numeric _ (Itoa_numeric h)) as (Hah & Hlh & Hxh).
  destruct (Itoa_head w) as (c & s & Ew & Hc).
  assert (∀ sep, Itoa w +:+ String sep (Itoa h) ≠ EmptyString ∧
                 Itoa w +:+ String sep (Itoa h) ≠ "input"%string) as Hne.
  { intros sep. rewrite Ew. simpl. split; [done|]. intros [= -> _].
    vm_compute in Hc. discriminate. }
  assert (∀ sep, is_ascii sep = true → lower_ascii sep = "x"%char →
            parse_resize unicode_ToLower (Itoa w +:+ String sep (Itoa h)) = ResizeTo w h)
    as Hparse.
  { intros sep Hsa Hsl. destruct (Hne sep) as [Hne1 Hne2].
    unfold parse_resize. rewrite decide_False, decide_False by done.
    unfold ToLower. rewrite string_forall_app. simpl. rewrite Haw, Hsa, Hah. simpl.
    rewrite string_map_app. simpl. rewrite Hlw, Hsl, Hlh.
    rewrite Split_app, Split_no_sep by done.
    by rewrite !Atoi_Itoa by done. }
  split; apply Hparse; reflexivity.
Qed.

Lemma parse_resize_numerals_witness :
  parse_resize id (Itoa 1920 +:+ String "x" (Itoa 1080)) = ResizeTo 1920 1080 ∧
  parse_resize id (Itoa 1920 +:+ String "X" (Itoa 1080)) = ResizeTo 1920 1080.
Proof.
  apply (parse_resize_numerals id 1920 1080); vm_compute; split; discriminate.
Defined.

Lemma length_Split_lower s :
  length (Split (string_map lower_ascii s) "x") = Datatypes.S (count_x s).
Proof.
  induction s as [|c s IH]; [done|]. cbn [string_map Split count_x].
  destruct (decide (lower_ascii c = "x"%char)).
  - simpl. by rewrite IH.
  - rewrite Nat.add_0_l, <- IH. by destruct (Split (string_map lower_ascii s) "x").
Qed.

(** X16: a resize argument of ASCII bytes other than the empty string and
    "input" is refused with the error of the format exactly when it does not
    hold one [x], of either case: none, as in "1920" or "INPUT", or several. *)
Theorem parse_resize_separator unicode_ToLower s :
  string_forall is_ascii s = true → s ≠ EmptyString → s ≠ "input"%string →
  parse_resize unicode_ToLower s = ResizeInvalid ErrResizeFormat ↔ count_x s ≠ 1%nat.
Proof.
  intros Ha Hne1 Hne2. unfold parse_resize. rewrite decide_False, decide_False by done.
  unfold ToLower. rewrite Ha. pose proof (length_Split_lower s) as Hlen.
  destruct (Split (string_map lower_ascii s) "x") as [|w [|h [|x l]]]; simpl in Hlen.
  - lia.
  - split; [lia | done].
  - split; [|lia]. destruct (Atoi w); [destruct (Atoi h)|]; discriminate.
  - split; [lia | done].
Qed.

Lemma parse_resize_separator_witness :
  parse_resize id "INPUT" = ResizeInvalid ErrResizeFormat ↔ count_x "INPUT" ≠ 1%nat.
Proof. apply (parse_resize_separator id "INPUT"); [reflexivity | discriminate | discriminate]. Defined.

(** ** resizeImage at its edges *)

Lemma for_loop_skip {S : Type} n (s : S) : for_loop n (λ _ t, Ok t) s = Ok s.
Proof.
  unfold for_loop. generalize 0. induction (Z.to_nat n) as [|c IH]; intros start; [done|].
  simpl. apply IH.
Qed.

(** X17: a target width or height of zero or less is not refused: no pixel is
    written, and the result is a blank image on the rectangle that
    [image.Rect] makes of the corners (0, 0) and (targetW, targetH). *)
Theorem resizeImage_nonpositive_target src targetW targetH :
  targetW ≤ 0 ∨ targetH ≤ 0 →
  Z.abs targetW ≤ maxAlloc → Z.abs targetH ≤ maxAlloc →
  4 * Z.abs targetW * Z.abs targetH ≤ maxAlloc →
  resizeImage src targetW targetH
    = Ok (image.mkImage (image.Rect 0 0 targetW targetH) ∅) ∧
  image.Dx (image.Rect 0 0 targetW targetH) = Z.abs targetW ∧
  image.Dy (image.Rect 0 0 targetW targetH) = Z.abs targetH.
Proof.
  intros Hneg HW HH Hfit. pose proof maxAlloc_int as Hmax.
  assert (image.Dx (image.Rect 0 0 targetW targetH) = Z.abs targetW ∧
          image.Dy (image.Rect 0 0 targetW targetH) = Z.abs targetH) as [EW EH].
  { unfold image.Rect, image.Dx, image.Dy.
    destruct (Z.gtb_spec 0 targetW), (Z.gtb_spec 0 targetH);
      cbn [image.X image.Y image.Min image.Max];
      split; rewrite int_sub_small; unfold min_int, max_int in *; lia. }
  split; [|done].
  unfold resizeImage, image.NewRGBA. rewrite EW, EH.
  destruct (Z.ltb_spec (Z.abs targetW) 0), (Z.ltb_spec (Z.abs targetH) 0),
    (Z.gtb_spec (4 * Z.abs targetW * Z.abs targetH) maxAlloc); try lia.
  simpl. destruct Hneg as [Hw|Hh].
  - rewrite (for_loop_ext _ (λ _ t, Ok t)); [apply for_loop_skip|].
    intros k t _. by apply for_loop_nonpos.
  - by apply for_loop_nonpos.
Qed.

Lemma resizeImage_nonpositive_target_witness :
  resizeImage two_pixels (-5) 3 = Ok (image.mkImage (image.Rect 0 0 (-5) 3) ∅) ∧
  image.Dx (image.Rect 0 0 (-5) 3) = Z.abs (-5) ∧
  image.Dy (image.Rect 0 0 (-5) 3) = Z.abs 3.
Proof.
  apply (resizeImage_nonpositive_target two_pixels (-5) 3).
  - left. lia.
  - vm_compute. discriminate.
  - vm_compute. discriminate.
  - vm_compute. discriminate.
Defined.


Lemma round_0 : float64.round 0 = 0%Q.
Proof. reflexivity. Qed.

Lemma mul_0_l q : float64.mul 0 q = 0%Q.
Proof.
  unfold float64.mul. rewrite <- round_0 at 2. apply round_comp. apply Qmult_0_l.
Qed.





(** ** The legend *)

Lemma touched_refl img lo hi c : touched img img lo hi c.
Proof. split; [done|]. intros px py. by left. Qed.

Lemma touched_trans img1 img2 img3 lo hi c :
  touched img1 img2 lo hi c → touched img2 img3 lo hi c → touched img1 img3 lo hi c.
Proof.
  intros [Hb1 H1] [Hb2 H2]. split; [congruence|]. intros px py.
  destruct (H2 px py) as [E2|[? E2]]; [|by right].
  rewrite E2. apply H1.
Qed.

Lemma Set_touched img x y c lo hi :
  lo ≤ y < hi → touched img (image.Set_ img x y c) lo hi c.
Proof.
  intros Hy. split; [apply Set_Bounds|]. intros px py. rewrite At_Set.
  destruct (decide ((x, y) = (px, py))) as [[= <- <-]|]; [|by left].
  destruct (image.In x y (image.Bounds img)); [by right | by left].
Qed.

Lemma draw_row_touched row : ∀ img x y dx c lo hi,
  lo ≤ y < hi → touched img (draw_row img row x y dx c) lo hi c.
Proof.
  induction row as [|pixel row IH]; intros img x y dx c lo hi Hy; [apply touched_refl|].
  cbn [draw_row]. eapply touched_trans; [|by apply IH].
  destruct (decide (pixel = "#"%char)); [by apply Set_touched | apply touched_refl].
Qed.

Lemma draw_pattern_touched pattern : ∀ img x y dy c lo hi,
  min_int ≤ y + dy → y + dy + Z.of_nat (length pattern) ≤ max_int →
  lo ≤ y + dy → y + dy + Z.of_nat (length pattern) ≤ hi →
  touched img (draw_pattern img pattern x y dy c) lo hi c.
Proof.
  induction pattern as [|row pattern IH]; intros img x y dy c lo hi Hmin Hmax Hlo Hhi;
    [apply touched_refl|].
  cbn [draw_pattern]. rewrite length_cons in *.
  apply (touched_trans _ (draw_row img row x (int_add y dy) 0 c)).
  - apply draw_row_touched. rewrite int_add_small by (unfold min_int, max_int in *; lia). lia.
  - apply IH; lia.
Qed.

Lemma bitmapFont_rows : map_Forall (λ _ pattern, length pattern = 7%nat) bitmapFont.
Proof. apply (bool_decide_unpack _). vm_compute. exact I. Qed.

(** drawText returns, and touches the seven rows from [y] on only. *)
Lemma drawText_touched runes : ∀ img x y c,
  min_int ≤ y → y + 7 ≤ max_int →
  ∃ img', drawText img runes x y c = Ok img' ∧ touched img img' y (y + 7) c.
Proof.
  induction runes as [|ch runes IH]; intros img x y c Hmin Hmax.
  - exists img. split; [done | apply touched_refl].
  - cbn [drawText]. destruct (bitmapFont !! byte_of_rune ch) as [pattern|] eqn:E.
    + pose proof (bitmapFont_rows _ _ E) as Hrows. cbv beta in Hrows.
      destruct pattern as [|row0 pattern']; [done|].
      destruct (IH (draw_pattern img (row0 :: pattern') x y 0 c)
                   (int_add x (int_add (Z.of_nat (String.length row0)) 1)) y c Hmin Hmax)
        as (img' & -> & Ht).
      exists img'. split; [done|]. eapply touched_trans; [|exact Ht].
      apply draw_pattern_touched; lia.
    + apply IH; done.
Qed.

(** Two nested loops that store [f x y] at [(x, gy y)], for the [nx] by
    [ny] pixels of a rectangle that starts [off] rows into the image. *)
Lemma fill_rect (f : Z → Z → RGBA) (gy : Z → Z) Wb Hb nx ny off dst0 :
  0 ≤ nx ≤ Wb → 0 ≤ ny → 0 ≤ off → off + ny ≤ Hb →
  (∀ y, 0 ≤ y < ny → gy y = off + y) →
  image.Bounds dst0 = image.Rect 0 0 Wb Hb →
  ∃ dst,
    for_loop ny (λ y dst, for_loop nx (λ x dst, Ok (image.Set_ dst x (gy y) (f x y))) dst) dst0
      = Ok dst ∧
    image.Bounds dst = image.Rect 0 0 Wb Hb ∧
    (∀ x y, 0 ≤ x < nx → 0 ≤ y < ny → image.At dst x (off + y) = f x y) ∧
    (∀ px py, ¬ (0 ≤ px < nx ∧ off ≤ py < off + ny) →
              image.At dst px py = image.At dst0 px py).
Proof.
  intros Hnx Hny Hoff Hfit Hgy Hbounds.
  destruct (for_loop_inv
    (λ k t, image.Bounds t = image.Rect 0 0 Wb Hb ∧
            (∀ x y, 0 ≤ x < nx → 0 ≤ y < k → image.At t x (off + y) = f x y) ∧
            (∀ px py, ¬ (0 ≤ px < nx ∧ off ≤ py < off + k) →
                      image.At t px py = image.At dst0 px py))
    (λ y dst, for_loop nx (λ x dst, Ok (image.Set_ dst x (gy y) (f x y))) dst) ny dst0 Hny)
    as (dst & Hdst & Hbd & Hat & Hout).
  - split; [done|]. split; [|done]. intros x y Hx Hy. lia.
  - intros k t Hk (Hbt & Ht & Hto). rewrite (Hgy k Hk).
    destruct (for_loop_inv
      (λ j u, image.Bounds u = image.Rect 0 0 Wb Hb ∧
              (∀ x y, 0 ≤ x < nx → 0 ≤ y < k → image.At u x (off + y) = f x y) ∧
              (∀ x, 0 ≤ x < j → image.At u x (off + k) = f x k) ∧
              (∀ px py, ¬ (0 ≤ px < nx ∧ off ≤ py < off + (k + 1)) →
                        image.At u px py = image.At dst0 px py))
      (λ x dst, Ok (image.Set_ dst x (off + k) (f x k))) nx t (proj1 Hnx))
      as (u & Hu & Hbu & Hrows & Hrow & Huo).
    + split; [done|]. split; [done|]. split; [intros x Hx; lia|].
      intros px py Hp. apply Hto. lia.
    + intros j u Hj (Hbu & Hrows & Hrow & Huo). eexists. split; [done|].
      rewrite Set_Bounds. split; [done|]. split; [|split].
      * intros x y Hx Hy. rewrite At_Set.
        destruct (decide ((j, off + k) = (x, off + y))) as [[= <- E]|Hne]; [lia|].
        by apply Hrows.
      * intros x Hx. rewrite At_Set.
        destruct (decide ((j, off + k) = (x, off + k))) as [[= <-]|Hne].
        -- rewrite Hbu, In_Rect by lia.
           destruct (Z.leb_spec 0 j), (Z.ltb_spec j Wb), (Z.leb_spec 0 (off + k)),
             (Z.ltb_spec (off + k) Hb); try lia. done.
        -- apply Hrow. destruct (decide (x = j)) as [->|]; [done | lia].
      * intros px py Hp. rewrite At_Set.
        destruct (decide ((j, off + k) = (px, py))) as [[= <- <-]|Hne]; [lia|].
        by apply Huo.
    + exists u. split; [done|]. split; [done|]. split; [|done].
      intros x y Hx Hy. destruct (decide (y = k)) as [->|Hne].
      * apply Hrow. lia.
      * apply Hrows; lia.
  - exists dst. done.
Qed.

Lemma RGBA_8bit_round_trip (s : RGBA) :
  channels_8bit s →
  (let '(r, g, b, a) := color.RGBA_values s in
   mkRGBA (to_uint8 (Z.shiftr r 8)) (to_uint8 (Z.shiftr g 8))
          (to_uint8 (Z.shiftr b 8)) (to_uint8 (Z.shiftr a 8))) = s.
Proof.
  intros (Hr & Hg & Hb & Ha). destruct s as [r g b a]. simpl in *.
  unfold color.RGBA_values. cbn [color.R color.G color.B color.A].
  by rewrite !widen_shift by done.
Qed.

Section AddLegend.

Context (Sprintf_1f : Q → string) (lower_runes : string → list Z).
Context (src : image.RGBA) (minX minY w h : Z).
Hypothesis src_bounds :
  image.Bounds src = image.mkRectangle (image.Pt minX minY) (image.Pt (minX + w) (minY + h)).
Hypothesis minX_int : min_int ≤ minX.
Hypothesis maxX_int : minX + w ≤ max_int.
Hypothesis minY_int : min_int ≤ minY.
Hypothesis maxY_int : minY + h ≤ max_int.
Hypothesis w_ok : 0 ≤ w ≤ maxAlloc.
Hypothesis h_ok : 0 ≤ h.

Lemma addLegend_spec legendHeight name info :
  7 ≤ legendHeight → h + legendHeight ≤ maxAlloc → 4 * w * (h + legendHeight) ≤ maxAlloc →
  ∃ dst,
    addLegend Sprintf_1f lower_runes src legendHeight name info = Ok dst ∧
    image.Bounds dst = image.Rect 0 0 w (h + legendHeight) ∧
    (∀ x y, 0 ≤ x < w → 0 ≤ y < h →
            image.At dst x (legendHeight + y) =
            let '(r, g, b, a) := color.RGBA_values (image.At src (minX + x) (minY + y)) in
            mkRGBA (to_uint8 (Z.shiftr r 8)) (to_uint8 (Z.shiftr g 8))
                   (to_uint8 (Z.shiftr b 8)) (to_uint8 (Z.shiftr a 8))) ∧
    (∀ x y, 0 ≤ x < w → 0 ≤ y < legendHeight →
            image.At dst x y = labelBg ∨ image.At dst x y = textColor).
Proof using All.
  intros HL Hsum Hfit. pose proof maxAlloc_int as Hmax.
  assert (image.Dx (image.Bounds src) = w) as EW.
  { rewrite src_bounds. unfold image.Dx. cbn [image.X image.Max image.Min].
    rewrite int_sub_small; unfold min_int, max_int in *; lia. }
  assert (image.Dy (image.Bounds src) = h) as EH.
  { rewrite src_bounds. unfold image.Dy. cbn [image.Y image.Max image.Min].
    rewrite int_sub_small; unfold min_int, max_int in *; lia. }
  unfold addLegend. rewrite EW, EH, src_bounds. cbn [image.X image.Y image.Min].
  rewrite (int_add_small h) by (unfold min_int, max_int in *; lia).
  rewrite NewRGBA_Rect0 by lia.
  set (f := λ x y : Z,
         let '(r, g, b, a) :=
           color.RGBA_values (image.At src (int_add minX x) (int_add minY y)) in
         mkRGBA (to_uint8 (Z.shiftr r 8)) (to_uint8 (Z.shiftr g 8))
                (to_uint8 (Z.shiftr b 8)) (to_uint8 (Z.shiftr a 8))).
  destruct (fill_rect (λ _ _, labelBg) (λ y, y) w (h + legendHeight) w legendHeight 0
              (image.mkImage (image.Rect 0 0 w (h + legendHeight)) ∅))
    as (dst1 & Hdst1 & Hb1 & Hband & _); [lia | lia | lia | lia | intros; lia | done |].
  destruct (fill_rect f (λ y, int_add y legendHeight) w (h + legendHeight) w h legendHeight dst1)
    as (dst2 & Hdst2 & Hb2 & Hpic & Hrest); [lia | lia | lia | lia | | done |].
  { intros y Hy. rewrite int_add_small by (unfold min_int, max_int in *; lia). lia. }
  assert (int_quot (int_sub legendHeight 7) 2 = (legendHeight - 7) / 2) as EyText.
  { rewrite int_sub_small by (unfold min_int, max_int in *; lia).
    unfold int_quot. rewrite Z.quot_div_nonneg by lia.
    assert (0 ≤ (legendHeight - 7) / 2 ≤ legendHeight - 7).
    { split; [apply Z.div_pos; lia | apply Z.div_le_upper_bound; lia]. }
    apply wrap_int_small. unfold min_int, max_int in *. lia. }
  assert (0 ≤ (legendHeight - 7) / 2 ∧ (legendHeight - 7) / 2 + 7 ≤ legendHeight) as [Hy0 Hy7].
  { split; [apply Z.div_pos; lia|].
    assert ((legendHeight - 7) / 2 ≤ legendHeight - 7) by (apply Z.div_le_upper_bound; lia).
    lia. }
  destruct (drawText_touched (lower_runes (legendText Sprintf_1f name info)) dst2 8
              ((legendHeight - 7) / 2) textColor) as (dst & Hdst & Hb & Htouch);
    [unfold min_int; lia | unfold max_int in *; lia |].
  exists dst. split; [|split; [|split]].
  - cbn [mbind res_bind]. etransitivity; [|exact Hdst].
    change (for_loop legendHeight _ _) with
      (for_loop legendHeight
         (λ y dst, for_loop w (λ x dst, Ok (image.Set_ dst x y labelBg)) dst)
         (image.mkImage (image.Rect 0 0 w (h + legendHeight)) ∅)).
    rewrite Hdst1. cbn [mbind res_bind].
    change (for_loop h _ dst1) with
      (for_loop h (λ y dst, for_loop w (λ x dst,
         Ok (image.Set_ dst x (int_add y legendHeight) (f x y))) dst) dst1).
    rewrite Hdst2. cbn [mbind res_bind]. by rewrite EyText.
  - by rewrite Hb, Hb2.
  - intros x y Hx Hy. destruct (Htouch x (legendHeight + y)) as [->|[? _]]; [|lia].
    rewrite Hpic by done. unfold f.
    by rewrite !int_add_small by (unfold min_int, max_int in *; lia).
  - intros x y Hx Hy. destruct (Htouch x y) as [->|[_ ->]]; [|by right].
    left. rewrite Hrest by lia. rewrite <- (Z.add_0_l y). by apply Hband.
Qed.

End AddLegend.

(** X19: the layout of addLegend for a bar of at least 7 rows, the height of
    the font: the result is the source with [legendHeight] rows on top; the
    rows below the bar are the pixels of the source, none of them drawn
    over by the text, and each pixel of the bar has the colour of the bar or
    the colour of the text. *)
Theorem addLegend_layout Sprintf_1f lower_runes src legendHeight name info :
  well_formed src → image_width src ≤ maxAlloc →
  7 ≤ legendHeight → image_height src + legendHeight ≤ maxAlloc →
  4 * image_width src * (image_height src + legendHeight) ≤ maxAlloc →
  ∃ dst,
    addLegend Sprintf_1f lower_runes src legendHeight name info = Ok dst ∧
    image.Bounds dst
      = image.Rect 0 0 (image_width src) (image_height src + legendHeight) ∧
    (∀ x y, 0 ≤ x < image_width src → 0 ≤ y < image_height src →
            image.At dst x (legendHeight + y)
            = image.At src (image.X (image.Min (image.Bounds src)) + x)
                           (image.Y (image.Min (image.Bounds src)) + y)) ∧
    (∀ x y, 0 ≤ x < image_width src → 0 ≤ y < legendHeight →
            image.At dst x y = labelBg ∨ image.At dst x y = textColor).
Proof.
  intros Hwf HW HL Hsum Hfit. pose proof Hwf as [H1 H2 H3 H4 H5 H6 H7 H8].
  unfold image_width, image_height in *.
  set (minX := image.X (image.Min (image.Bounds src))) in *.
  set (minY := image.Y (image.Min (image.Bounds src))) in *.
  set (w := image.X (image.Max (image.Bounds src)) - minX) in *.
  set (h := image.Y (image.Max (image.Bounds src)) - minY) in *.
  destruct (addLegend_spec Sprintf_1f lower_runes src minX minY w h) with
    (legendHeight := legendHeight) (name := name) (info := info)
    as (dst & Hdst & Hb & Hpic & Hbar); try lia.
  { unfold w, h, minX, minY. destruct (image.Bounds src) as [[a b] [c d]].
    cbn [image.X image.Y image.Min image.Max]. do 2 f_equal; lia. }
  exists dst. split; [done|]. split; [done|]. split; [|done].
  intros x y Hx Hy. rewrite Hpic by done.
  apply RGBA_8bit_round_trip. by apply At_channels_8bit.
Qed.

Lemma addLegend_layout_witness :
  ∃ dst,
    addLegend (λ _, "0.0"%string) ascii_runes two_pixels 24 "clip"
      (video.mkInfo 2 1 1 0 0 EmptyString) = Ok dst ∧
    image.Bounds dst
      = image.Rect 0 0 (image_width two_pixels) (image_height two_pixels + 24) ∧
    (∀ x y, 0 ≤ x < image_width two_pixels → 0 ≤ y < image_height two_pixels →
            image.At dst x (24 + y)
            = image.At two_pixels (image.X (image.Min (image.Bounds two_pixels)) + x)
                                  (image.Y (image.Min (image.Bounds two_pixels)) + y)) ∧
    (∀ x y, 0 ≤ x < image_width two_pixels → 0 ≤ y < 24 →
            image.At dst x y = labelBg ∨ image.At dst x y = textColor).
Proof.
  apply (addLegend_layout (λ _, "0.0"%string) ascii_runes two_pixels 24 "clip"
           (video.mkInfo 2 1 1 0 0 EmptyString)).
  - apply two_pixels_well_formed.
  - vm_compute. discriminate.
  - lia.
  - vm_compute. discriminate.
  - vm_compute. discriminate.
Defined.

(** With a bar lower than the font the text starts above the image and
    ends in the picture: a bar of one row over a blank picture of 16 by 8,
    and the letter [i] of the name in rows 1 to 3 of the result. *)
Example addLegend_low_bar :
  ∃ dst,
    addLegend (λ _, "0.0"%string) ascii_runes (image.mkImage (image.Rect 0 0 16 8) ∅) 1 "i"
      (video.mkInfo 0 0 0 0 0 EmptyString) = Ok dst ∧
    image.Bounds dst = image.Rect 0 0 16 9 ∧
    image.At dst 10 1 = textColor ∧ image.At dst 10 2 = textColor ∧
    image.At dst 9 3 = textColor ∧ image.At dst 11 3 = textColor.
Proof.
  eexists. split; [vm_compute; reflexivity|].
  repeat (split; [vm_compute; reflexivity|]). vm_compute. reflexivity.
Qed.

(** ** The extent of a text *)

Lemma touched_box_refl img x0 x1 y0 y1 c : touched_box img img x0 x1 y0 y1 c.
Proof. split; [done|]. intros px py. by left. Qed.

Lemma touched_box_trans img1 img2 img3 x0 x1 y0 y1 c :
  touched_box img1 img2 x0 x1 y0 y1 c → touched_box img2 img3 x0 x1 y0 y1 c →
  touched_box img1 img3 x0 x1 y0 y1 c.
Proof.
  intros [Hb1 H1] [Hb2 H2]. split; [congruence|]. intros px py.
  destruct (H2 px py) as [E2|(? & ? & E2)]; [|by right].
  rewrite E2. apply H1.
Qed.

Lemma touched_box_weaken img img' x0 x1 y0 y1 x0' x1' c :
  x0' ≤ x0 → x1 ≤ x1' → touched_box img img' x0 x1 y0 y1 c →
  touched_box img img' x0' x1' y0 y1 c.
Proof.
  intros H0 H1 [Hb H]. split; [done|]. intros px py.
  destruct (H px py) as [E|(? & ? & E)]; [by left|]. right. repeat split; try done; lia.
Qed.

Lemma draw_row_box row : ∀ img x y dx c x0 x1 y0 y1,
  min_int ≤ x + dx → x + dx + Z.of_nat (String.length row) ≤ max_int →
  x0 ≤ x + dx → x + dx + Z.of_nat (String.length row) ≤ x1 → y0 ≤ y < y1 →
  touched_box img (draw_row img row x y dx c) x0 x1 y0 y1 c.
Proof.
  induction row as [|pixel row IH]; intros img x y dx c x0 x1 y0 y1 Hmin Hmax Hx0 Hx1 Hy;
    [apply touched_box_refl|].
  cbn [draw_row String.length] in *.
  eapply touched_box_trans; [|apply IH; lia].
  destruct (decide (pixel = "#"%char)); [|apply touched_box_refl].
  split; [apply Set_Bounds|]. intros px py. rewrite At_Set.
  rewrite int_add_small by (unfold min_int, max_int in *; lia).
  destruct (decide ((x + dx, y) = (px, py))) as [[= <- <-]|]; [|by left].
  destruct (image.In (x + dx) y (image.Bounds img)); [|by left].
  right. repeat split; try done; lia.
Qed.

Lemma draw_pattern_box pattern : ∀ img x y dy c x0 x1 y0 y1,
  Forall (λ row, String.length row = 5%nat) pattern →
  min_int ≤ x → x + 5 ≤ max_int → x0 ≤ x → x + 5 ≤ x1 →
  min_int ≤ y + dy → y + dy + Z.of_nat (length pattern) ≤ max_int →
  y0 ≤ y + dy → y + dy + Z.of_nat (length pattern) ≤ y1 →
  touched_box img (draw_pattern img pattern x y dy c) x0 x1 y0 y1 c.
Proof.
  induction pattern as [|row pattern IH];
    intros img x y dy c x0 x1 y0 y1 Hrows Hxmin Hxmax Hx0 Hx1 Hmin Hmax Hy0 Hy1;
    [apply touched_box_refl|].
  apply Forall_cons in Hrows as [Hrow Hrows].
  cbn [draw_pattern]. rewrite length_cons in *.
  apply (touched_box_trans _ (draw_row img row x (int_add y dy) 0 c)).
  - rewrite int_add_small by (unfold min_int, max_int in *; lia).
    apply draw_row_box; rewrite ?Hrow; lia.
  - apply IH; try done; lia.
Qed.

Lemma bitmapFont_glyphs :
  map_Forall (λ _ pattern, length pattern = 7%nat ∧
                           Forall (λ row, String.length row = 5%nat) pattern) bitmapFont.
Proof. apply (bool_decide_unpack _). vm_compute. exact I. Qed.

(** X20: the extent of a text.  drawText always returns; it keeps the bounds
    of the image and changes only pixels within the seven rows from [y] on
    and within six columns a rune from [x] on, each to the colour [c]: a
    glyph is five pixels wide, the pen moves on by six after a glyph and by
    four after a byte the font does not have. *)
Theorem drawText_extent img runes x y c :
  min_int ≤ x → x + 6 * Z.of_nat (length runes) ≤ max_int →
  min_int ≤ y → y + 7 ≤ max_int →
  ∃ img',
    drawText img runes x y c = Ok img' ∧
    image.Bounds img' = image.Bounds img ∧
    ∀ px py, image.At img' px py = image.At img px py ∨
             (x ≤ px < x + 6 * Z.of_nat (length runes) ∧ y ≤ py < y + 7 ∧
              image.At img' px py = c).
Proof.
  intros Hxmin Hxmax Hymin Hymax.
  change (∃ img', drawText img runes x y c = Ok img' ∧
                  touched_box img img' x (x + 6 * Z.of_nat (length runes)) y (y + 7) c).
  revert img x Hxmin Hxmax. induction runes as [|ch runes IH]; intros img x Hxmin Hxmax.
  - exists img. split; [done | apply touched_box_refl].
  - cbn [drawText]. rewrite length_cons in *.
    destruct (bitmapFont !! byte_of_rune ch) as [pattern|] eqn:E.
    + destruct (bitmapFont_glyphs _ _ E) as [Hlen Hrows]. cbv beta in Hlen, Hrows.
      destruct pattern as [|row0 pattern']; [done|].
      pose proof (Forall_inv Hrows) as Hrow0. cbv beta in Hrow0. rewrite Hrow0.
      change (int_add (Z.of_nat 5) 1) with 6.
      rewrite int_add_small by (unfold min_int, max_int in *; lia).
      destruct (IH (draw_pattern img (row0 :: pattern') x y 0 c) (x + 6))
        as (img' & -> & Ht); [lia | lia |].
      exists img'. split; [done|].
      apply (touched_box_trans _ (draw_pattern img (row0 :: pattern') x y 0 c)).
      * apply draw_pattern_box; try done; rewrite ?Hlen; lia.
      * eapply touched_box_weaken; [| |exact Ht]; lia.
    + rewrite int_add_small by (unfold min_int, max_int in *; lia).
      destruct (IH img (x + 4)) as (img' & -> & Ht); [lia | lia |].
      exists img'. split; [done|].
      eapply touched_box_weaken; [| |exact Ht]; lia.
Qed.

Lemma drawText_extent_witness :
  ∃ img',
    drawText two_pixels (ascii_runes "hi") 0 0 textColor = Ok img' ∧
    image.Bounds img' = image.Bounds two_pixels ∧
    ∀ px py, image.At img' px py = image.At two_pixels px py ∨
             (0 ≤ px < 0 + 6 * Z.of_nat (length (ascii_runes "hi")) ∧ 0 ≤ py < 0 + 7 ∧
              image.At img' px py = textColor).
Proof.
  apply (drawText_extent two_pixels (ascii_runes "hi") 0 0 textColor).
  - vm_compute. discriminate.
  - vm_compute. discriminate.
  - vm_compute. discriminate.
  - vm_compute. discriminate.
Defined.

(** ** Stems and their labels *)

(** X21: The labels of the stems are aligned with their paths.  GetStemPaths
    and GetStemLabels return lists of one length, and the label at an index
    names the field the path at that index comes from, which is not empty;
    the paths and labels that the audio [Generate] goes on with have one
    length as well and hold at least one stem, so that [stemLabels[i]] is
    within range for every path and the division by the number of stems has
    no zero divisor. *)
Theorem stem_labels_aligned (s : audio.StemFiles) (stemFiles : option audio.StemFiles)
    (inputPath : string) :
  length (audio.GetStemPaths s) = length (audio.GetStemLabels s) ∧
  (∀ i path, audio.GetStemPaths s !! i = Some path →
             path ≠ EmptyString ∧
             ∃ label, audio.GetStemLabels s !! i = Some label ∧
                      audio.stem_path s label = Some path) ∧
  (let '(stemPaths, stemLabels) := audiodna.stems stemFiles inputPath in
   length stemPaths = length stemLabels ∧ (1 ≤ length stemPaths)%nat).
Proof.
  assert (∀ s : audio.StemFiles,
            length (audio.GetStemPaths s) = length (audio.GetStemLabels s)) as Hlen.
  { intros [v d b o p g]. unfold audio.GetStemPaths, audio.GetStemLabels, audio.append_if_set.
    cbn [audio.Vocals audio.Drums audio.Bass audio.Other audio.Piano audio.Guitar].
    repeat case_decide; reflexivity. }
  split; [apply Hlen|]. split.
  - intros i path Hi. destruct s as [v d b o p g].
    unfold audio.GetStemPaths, audio.GetStemLabels, audio.stem_path, audio.append_if_set in *.
    cbn [audio.Vocals audio.Drums audio.Bass audio.Other audio.Piano audio.Guitar] in *.
    repeat case_decide; subst; simpl in *;
      repeat (destruct i as [|i]; simpl in Hi; simplify_eq; try done;
              try (split; [done|]; eexists; split; [reflexivity|]; reflexivity)).
  - unfold audiodna.stems. destruct stemFiles as [s'|]; [|simpl; lia].
    destruct (decide (length (audio.GetStemPaths s') = 0%nat)) as [|Hne]; [simpl; lia|].
    split; [apply Hlen | lia].
Qed.


(** ** float64: rounding, its error and its order *)

Section Rounding.

Local Open Scope Q_scope.

Lemma inject_Z_pow2_pos n : (0 ≤ n)%Z → 0 < inject_Z (2 ^ n).
Proof.
  intros Hn. change 0 with (inject_Z 0). rewrite <- Zlt_Qlt. by apply Z.pow_pos_nonneg.
Qed.

(** [pow2 k] scaled by a power of two that clears its denominator. *)
Lemma pow2_scale k n :
  (0 ≤ n)%Z → (0 ≤ n + k)%Z → float64.pow2 k * inject_Z (2 ^ n) == inject_Z (2 ^ (n + k)).
Proof.
  intros Hn Hnk. unfold float64.pow2. destruct (Z.leb_spec 0 k) as [Hk|Hk].
  - rewrite <- inject_Z_mult. rewrite <- Z.pow_add_r by lia. by rewrite Z.add_comm.
  - assert (0 < 2 ^ (- k))%Z by (apply Z.pow_pos_nonneg; lia).
    unfold Qeq, Qmult, inject_Z. simpl. rewrite Pos.mul_1_r, Z2Pos.id by lia.
    rewrite Z.mul_1_l, Z.mul_1_r.
    rewrite <- Z.pow_add_r by lia. f_equal. lia.
Qed.

Lemma pow2_pos k : 0 < float64.pow2 k.
Proof.
  unfold float64.pow2. destruct (Z.leb_spec 0 k); [by apply inject_Z_pow2_pos|].
  reflexivity.
Qed.

Lemma pow2_add a b : float64.pow2 (a + b) == float64.pow2 a * float64.pow2 b.
Proof.
  set (n := (Z.abs a + Z.abs b)%Z).
  assert (¬ inject_Z (2 ^ n) * inject_Z (2 ^ n) == 0) as Hnz.
  { pose proof (inject_Z_pow2_pos n ltac:(lia)). nra. }
  apply (Qmult_inj_r _ _ _ Hnz).
  transitivity (inject_Z (2 ^ (n + n + (a + b)))).
  - rewrite <- inject_Z_mult, <- Z.pow_add_r by lia. apply pow2_scale; lia.
  - transitivity ((float64.pow2 a * inject_Z (2 ^ n)) * (float64.pow2 b * inject_Z (2 ^ n)));
      [|ring].
    rewrite !pow2_scale by lia. rewrite <- inject_Z_mult, <- Z.pow_add_r by lia.
    apply inject_Z_injective. f_equal. lia.
Qed.

Lemma pow2_0 : float64.pow2 0 == 1.
Proof. reflexivity. Qed.

Lemma pow2_succ k : float64.pow2 (k + 1) == 2 * float64.pow2 k.
Proof. rewrite pow2_add. change (float64.pow2 1) with 2. ring. Qed.

Lemma pow2_le a b : (a ≤ b)%Z → float64.pow2 a <= float64.pow2 b.
Proof.
  intros Hab. replace b with (a + (b - a))%Z by lia. rewrite pow2_add.
  assert (1 <= float64.pow2 (b - a)) as H1.
  { unfold float64.pow2. destruct (Z.leb_spec 0 (b - a)); [|lia].
    change 1 with (inject_Z 1). rewrite <- Zle_Qle.
    assert (0 < 2 ^ (b - a))%Z by (apply Z.pow_pos_nonneg; lia). lia. }
  pose proof (pow2_pos a). nra.
Qed.

Lemma pow2_lt_inv a b : float64.pow2 a < float64.pow2 b → (a < b)%Z.
Proof.
  intros Hlt. destruct (Z.lt_ge_cases a b) as [|Hge]; [done|].
  pose proof (pow2_le b a Hge). lra.
Qed.

Lemma Qnum_den q : q * inject_Z (Zpos (Qden q)) == inject_Z (Qnum q).
Proof. destruct q as [n d]. unfold Qeq, Qmult, inject_Z. simpl. lia. Qed.

(** The exponent that [ilog2] returns is not above the number. *)
Lemma ilog2_le q : 0 < q → float64.pow2 (float64.ilog2 q) <= q.
Proof.
  intros Hq. unfold float64.ilog2.
  set (ln := Z.log2 (Qnum q)). set (ld := Z.log2 (Z.pos (Qden q))).
  destruct (Qle_bool (float64.pow2 (ln - ld)) q) eqn:E; [by apply Qle_bool_iff|].
  assert (0 < Qnum q)%Z as Hn by (destruct q as [n d]; unfold Qlt in Hq; simpl in *; lia).
  pose proof (Z.log2_spec (Qnum q) Hn) as [Hn1 _]. fold ln in Hn1.
  pose proof (Z.log2_spec (Z.pos (Qden q)) ltac:(lia)) as [_ Hd2]. fold ld in Hd2.
  pose proof (Z.log2_nonneg (Qnum q)) as Hln. fold ln in Hln.
  pose proof (Z.log2_nonneg (Z.pos (Qden q))) as Hld. fold ld in Hld.
  pose proof (pow2_scale (ln - ld - 1) (ld + 1) ltac:(lia) ltac:(lia)) as Hs.
  replace (ld + 1 + (ln - ld - 1))%Z with ln in Hs by lia.
  pose proof (Qnum_den q) as Hq'.
  pose proof (pow2_pos (ln - ld - 1)) as Hp.
  assert (inject_Z (2 ^ ln) <= inject_Z (Qnum q)) as H1 by (by rewrite <- Zle_Qle).
  assert (inject_Z (Z.pos (Qden q)) < inject_Z (2 ^ Z.succ ld)) as H2 by (by rewrite <- Zlt_Qlt).
  rewrite <- Z.add_1_r in H2.
  assert (0 < inject_Z (Z.pos (Qden q))) as H3.
  { change 0 with (inject_Z 0). rewrite <- Zlt_Qlt. lia. }
  set (p := float64.pow2 (ln - ld - 1)) in *.
  set (D := inject_Z (Z.pos (Qden q))) in *.
  set (P := inject_Z (2 ^ (ld + 1))) in *.
  assert (p * D <= q * D) as H4 by nra.
  nra.
Qed.

Lemma round_half_even_error q :
  Qabs (inject_Z (float64.round_half_even q) - q) <= 1 # 2.
Proof.
  unfold float64.round_half_even.
  pose proof (Qfloor_le q) as Hlo. pose proof (Qlt_floor q) as Hhi.
  rewrite inject_Z_plus in Hhi. change (inject_Z 1) with 1 in Hhi.
  apply Qabs_Qle_condition.
  destruct (Qcompare (q - inject_Z (Qfloor q)) (1 # 2)) eqn:E.
  - apply Qeq_alt in E. destruct (Z.even (Qfloor q)).
    + lra.
    + rewrite inject_Z_plus. change (inject_Z 1) with 1. lra.
  - apply Qlt_alt in E. lra.
  - apply Qgt_alt in E. rewrite inject_Z_plus. change (inject_Z 1) with 1. lra.
Qed.

Lemma round_half_even_le q n : q <= inject_Z n → (float64.round_half_even q ≤ n)%Z.
Proof.
  intros Hq. unfold float64.round_half_even.
  pose proof (Qfloor_le q) as Hlo.
  assert (Qfloor q ≤ n)%Z as Hf.
  { rewrite <- (Qfloor_Z n). by apply Qfloor_resp_le. }
  destruct (decide (Qfloor q = n)) as [Efl|Hne].
  - assert (Qcompare (q - inject_Z (Qfloor q)) (1 # 2) = Lt) as ->; [|lia].
    apply (proj1 (Qlt_alt _ _)). rewrite Efl. lra.
  - destruct (Qcompare _ _); [destruct (Z.even _)| |]; lia.
Qed.

Lemma round_half_even_nonneg q : 0 <= q → (0 ≤ float64.round_half_even q)%Z.
Proof.
  intros Hq. unfold float64.round_half_even.
  assert (0 ≤ Qfloor q)%Z as Hf.
  { change 0%Z with (Qfloor 0). by apply Qfloor_resp_le. }
  destruct (Qcompare _ _); [destruct (Z.even _)| |]; lia.
Qed.

(** What [round] returns for a number other than zero: a multiple [m] of
    the unit in the last place of the number's binade. *)
Lemma round_spec q :
  ¬ q == 0 →
  ∃ e m,
    float64.pow2 e <= Qabs q ∧ (0 ≤ m)%Z ∧
    Qabs (inject_Z m * float64.pow2 (e - 52) - Qabs q) <= float64.pow2 (e - 53) ∧
    (∀ n, Qabs q <= inject_Z n * float64.pow2 (e - 52) → (m ≤ n)%Z) ∧
    float64.round q ==
      (if Qle_bool 0 q then inject_Z m * float64.pow2 (e - 52)
       else - (inject_Z m * float64.pow2 (e - 52))).
Proof.
  intros Hnz. unfold float64.round. cbv zeta.
  pose proof (Qred_correct q) as Hred.
  assert (Qeq_bool (Qred q) 0 = false) as ->.
  { apply not_true_is_false. intros E. apply Qeq_bool_iff in E. apply Hnz.
    by rewrite <- Hred. }
  assert (Qabs (Qred q) == Qabs q) as Habs by (by rewrite Hred).
  assert (0 < Qabs q) as Hpos.
  { pose proof (Qabs_nonneg q). destruct (Qlt_le_dec 0 (Qabs q)) as [|Hle]; [done|].
    exfalso. apply Hnz. apply Qabs_Qle_condition in Hle. lra. }
  set (e := float64.ilog2 (Qabs (Qred q))).
  pose proof (ilog2_le (Qabs (Qred q)) ltac:(by rewrite Habs)) as He. fold e in He.
  rewrite Habs in He.
  pose proof (pow2_pos (e - 52)) as Hulp.
  set (ulp := float64.pow2 (e - 52)) in *.
  set (m := float64.round_half_even (Qabs (Qred q) / ulp)).
  assert (Qabs (Qred q) / ulp * ulp == Qabs q) as Hdiv.
  { rewrite Habs. field. lra. }
  exists e, m. split; [done|]. split; [|split; [|split]].
  - apply round_half_even_nonneg. apply Qle_shift_div_l; [done|]. rewrite Habs. lra.
  - pose proof (round_half_even_error (Qabs (Qred q) / ulp)) as Herr. fold m in Herr.
    assert (float64.pow2 (e - 53) * 2 == ulp) as Hhalf.
    { unfold ulp. replace (e - 52)%Z with (e - 53 + 1)%Z by lia. rewrite pow2_succ. ring. }
    apply Qabs_Qle_condition in Herr. apply Qabs_Qle_condition.
    set (t := Qabs (Qred q) / ulp) in *. set (h := float64.pow2 (e - 53)) in *.
    set (M := inject_Z m) in *. destruct Herr as [Hl Hu].
    assert ((M - t) * ulp <= (1 # 2) * ulp) as H1 by (apply Qmult_le_compat_r; lra).
    assert (- (1 # 2) * ulp <= (M - t) * ulp) as H2 by (apply Qmult_le_compat_r; lra).
    assert ((M - t) * ulp == M * ulp - Qabs q) as H3 by (rewrite <- Hdiv; ring).
    fold ulp. lra.
  - intros n Hn. apply round_half_even_le. apply Qle_shift_div_r; [done|].
    by rewrite Habs.
  - rewrite Qred_correct.
    assert (Qle_bool 0 (Qred q) = Qle_bool 0 q) as ->; [|reflexivity].
    destruct (Qle_bool 0 q) eqn:E.
    + apply Qle_bool_iff. apply Qle_bool_iff in E. by rewrite Hred.
    + apply not_true_is_false. intros E'. apply Qle_bool_iff in E'.
      rewrite Hred in E'. apply Qle_bool_iff in E'. congruence.
Qed.

Lemma round_nonneg q : 0 <= q → 0 <= float64.round q.
Proof.
  intros Hq. destruct (Qeq_dec q 0) as [E|Hnz].
  - rewrite (round_comp q 0 E). by rewrite round_0.
  - destruct (round_spec q Hnz) as (e & m & _ & Hm & _ & _ & ->).
    assert (Qle_bool 0 q = true) as -> by (by apply Qle_bool_iff).
    pose proof (pow2_pos (e - 52)).
    assert (0 <= inject_Z m) by (change 0 with (inject_Z 0); by rewrite <- Zle_Qle).
    nra.
Qed.

(** The error of a rounding, for a number of at most 2^b in size. *)
Lemma round_error q b :
  Qabs q <= float64.pow2 b → Qabs (float64.round q - q) <= float64.pow2 (b - 53).
Proof.
  intros Hb. destruct (Qeq_dec q 0) as [E|Hnz].
  - rewrite (round_comp q 0 E), round_0, E. pose proof (pow2_pos (b - 53)).
    apply Qabs_Qle_condition. lra.
  - destruct (round_spec q Hnz) as (e & m & He & Hm & Herr & _ & ->).
    assert (e ≤ b)%Z as Heb.
    { destruct (Z.le_gt_cases e b) as [|Hgt]; [done|]. exfalso.
      pose proof (pow2_le (b + 1) e ltac:(lia)) as H1. rewrite pow2_succ in H1.
      pose proof (pow2_pos b). lra. }
    pose proof (pow2_le (e - 53) (b - 53) ltac:(lia)) as Hle.
    apply Qabs_Qle_condition in Herr. apply Qabs_Qle_condition.
    destruct (Qle_bool 0 q) eqn:E.
    + apply Qle_bool_iff in E. rewrite (Qabs_pos q E) in Herr. lra.
    + assert (q < 0) as Hneg.
      { destruct (Qlt_le_dec q 0) as [|Hle']; [done|].
        apply Qle_bool_iff in Hle'. congruence. }
      rewrite (Qabs_neg q) in Herr by lra. lra.
Qed.

(** Rounding does not cross a number that float64 holds: an integer of at
    most 53 bits scaled by a power of two. *)
Lemma round_le_repr q n k :
  (0 ≤ n < 2 ^ 53)%Z → q <= inject_Z n * float64.pow2 k →
  float64.round q <= inject_Z n * float64.pow2 k.
Proof.
  intros Hn Hq.
  assert (0 <= inject_Z n) as Hn0 by (change 0 with (inject_Z 0); rewrite <- Zle_Qle; lia).
  pose proof (pow2_pos k) as Hk.
  destruct (Qlt_le_dec 0 q) as [Hpos|Hle].
  - assert (¬ q == 0) as Hnz by lra.
    destruct (round_spec q Hnz) as (e & m & He & Hm & _ & Hmax & ->).
    assert (Qle_bool 0 q = true) as -> by (apply Qle_bool_iff; lra).
    rewrite (Qabs_pos q) in * by lra.
    assert (e - 52 ≤ k)%Z as Hek.
    { destruct (Z.le_gt_cases (e - 52) k) as [|Hgt]; [done|]. exfalso.
      pose proof (pow2_le k (e - 53) ltac:(lia)) as H1.
      assert (inject_Z n + 1 <= inject_Z (2 ^ 53)) as H2.
      { change 1 with (inject_Z 1). rewrite <- inject_Z_plus, <- Zle_Qle. lia. }
      assert (float64.pow2 e == inject_Z (2 ^ 53) * float64.pow2 (e - 53)) as H3.
      { change (inject_Z (2 ^ 53)) with (float64.pow2 53). rewrite <- pow2_add.
        by replace (53 + (e - 53))%Z with e by lia. }
      pose proof (pow2_pos (e - 53)).
      set (N := inject_Z n) in *. set (P := inject_Z (2 ^ 53)) in *.
      assert (N * float64.pow2 k <= (P - 1) * float64.pow2 (e - 53)) by nra.
      nra. }
    assert (inject_Z n * float64.pow2 k
            == inject_Z (n * 2 ^ (k - (e - 52))) * float64.pow2 (e - 52)) as Hr.
    { rewrite inject_Z_mult.
      change (inject_Z (2 ^ (k - (e - 52)))) with (inject_Z (2 ^ (k - (e - 52)))).
      rewrite <- (pow2_pos_exp (k - (e - 52))) by lia.
      rewrite <- Qmult_assoc, <- pow2_add.
      by replace (k - (e - 52) + (e - 52))%Z with k by lia. }
    rewrite Hr. rewrite Hr in Hq.
    assert (Qabs q <= inject_Z (n * 2 ^ (k - (e - 52))) * float64.pow2 (e - 52)) as Hq'
      by (rewrite (Qabs_pos q) by lra; exact Hq).
    specialize (Hmax _ Hq').
    pose proof (pow2_pos (e - 52)).
    assert (inject_Z m <= inject_Z (n * 2 ^ (k - (e - 52)))) by (by rewrite <- Zle_Qle).
    nra.
  - destruct (Qeq_dec q 0) as [E|Hnz].
    + rewrite (round_comp q 0 E), round_0. nra.
    + destruct (round_spec q Hnz) as (e & m & _ & Hm & _ & _ & ->).
      assert (Qle_bool 0 q = false) as ->.
      { apply not_true_is_false. intros E. apply Qle_bool_iff in E. apply Hnz. lra. }
      pose proof (pow2_pos (e - 52)).
      assert (0 <= inject_Z m) by (change 0 with (inject_Z 0); by rewrite <- Zle_Qle).
      nra.
Qed.

(** The relative error of a rounding is at most 2^-53. *)
Lemma round_relative q :
  0 <= q →
  q - q * float64.pow2 (-53) <= float64.round q <= q + q * float64.pow2 (-53).
Proof.
  intros Hq0. destruct (Qeq_dec q 0) as [E|Hnz].
  { rewrite (round_comp q 0 E), round_0, E. lra. }
  destruct (round_spec q Hnz) as (e & m & He & Hm & Herr & _ & ->).
  assert (Qle_bool 0 q = true) as -> by (by apply Qle_bool_iff).
  rewrite (Qabs_pos q) in * by done.
  assert (float64.pow2 (e - 53) == float64.pow2 e * float64.pow2 (-53)) as Hu.
  { rewrite <- pow2_add. by replace (e + -53)%Z with (e - 53)%Z by lia. }
  pose proof (pow2_pos (-53)). apply Qabs_Qle_condition in Herr.
  assert (float64.pow2 e * float64.pow2 (-53) <= q * float64.pow2 (-53))
    by (apply Qmult_le_compat_r; lra).
  lra.
Qed.

End Rounding.

(** ** bilinear: the blend stays with its four values *)
Section Blend.
Local Open Scope Q_scope.

Lemma Qmul_unit a w : 0 <= a → 0 <= w <= 1 → 0 <= a * w <= a.
Proof. intros Ha Hw. nra. Qed.

Lemma Qmul_between lo c hi w : lo <= c <= hi → 0 <= w → lo * w <= c * w <= hi * w.
Proof. intros Hc Hw. nra. Qed.

Lemma Qmul_le_l a b c : 0 <= a → b <= c → a * b <= a * c.
Proof. intros Ha Hbc. nra. Qed.

(** The rounding error of a float64 operation on numbers of at most 2^17
    is at most 2^-36. *)
Lemma round_near q :
  - (131072 # 1) <= q <= 131072 # 1 →
  q - float64.pow2 (-36) <= float64.round q <= q + float64.pow2 (-36).
Proof.
  intros Hq.
  pose proof (round_error q 17) as Herr.
  change (float64.pow2 17) with (131072 # 1) in Herr.
  change (17 - 53)%Z with (-36)%Z in Herr.
  assert (Qabs q <= 131072 # 1) as Ha by (apply Qabs_Qle_condition; lra).
  specialize (Herr Ha). apply Qabs_Qle_condition in Herr. lra.
Qed.

Lemma pow2_36_small : 0 < float64.pow2 (-36) ∧ float64.pow2 (-36) <= 1 # 1000000.
Proof. split; [apply pow2_pos|]. unfold Qle. simpl. lia. Qed.

Lemma round_unit q : 0 <= q <= 1 → 0 <= float64.round q <= 1.
Proof.
  intros [Hq0 Hq1]. split; [by apply round_nonneg|].
  pose proof (round_le_repr q 1 0 ltac:(lia)) as H.
  change (inject_Z 1 * float64.pow2 0) with (1 * 1) in H.
  rewrite Qmult_1_l in H. by apply H.
Qed.

(** One line of [bilinear]: [a*(1-x) + b*x] for computed [a] and [b] that
    are within [d] of numbers between [lo] and [hi]. *)
Lemma mix_error a b a' b' x d lo hi :
  0 <= d → d <= 1 # 2 → 0 <= lo → hi <= 65535 # 1 →
  lo <= a' <= hi → lo <= b' <= hi →
  0 <= a → 0 <= b → a' - d <= a <= a' + d → b' - d <= b <= b' + d →
  0 <= x <= 1 →
  ∃ t, lo <= t <= hi ∧
       0 <= float64.add (float64.mul a (float64.sub 1 x)) (float64.mul b x) ∧
       t - (2 * d + (65538 # 1) * float64.pow2 (-36))
         <= float64.add (float64.mul a (float64.sub 1 x)) (float64.mul b x)
         <= t + (2 * d + (65538 # 1) * float64.pow2 (-36)).
Proof.
  intros Hd0 Hd1 Hlo Hhi Ha' Hb' Ha Hb Had Hbd Hx.
  destruct pow2_36_small as [HE0 HE1].
  unfold float64.add, float64.mul, float64.sub.
  set (E := float64.pow2 (-36)) in *.
  pose proof (round_unit (1 - x) ltac:(lra)) as Hu.
  pose proof (round_near (1 - x) ltac:(lra)) as Hu'. fold E in Hu'.
  set (u := float64.round (1 - x)) in *.
  pose proof (Qmul_unit a u Ha (conj (proj1 Hu) (proj2 Hu))) as Hau.
  pose proof (Qmul_unit b x Hb Hx) as Hbx.
  pose proof (round_nonneg (a * u) ltac:(lra)) as Hp1.
  pose proof (round_near (a * u) ltac:(lra)) as Hp1'. fold E in Hp1'.
  set (p1 := float64.round (a * u)) in *.
  pose proof (round_nonneg (b * x) ltac:(lra)) as Hp2.
  pose proof (round_near (b * x) ltac:(lra)) as Hp2'. fold E in Hp2'.
  set (p2 := float64.round (b * x)) in *.
  pose proof (round_nonneg (p1 + p2) ltac:(lra)) as Hr.
  pose proof (round_near (p1 + p2) ltac:(lra)) as Hr'. fold E in Hr'.
  set (r := float64.round (p1 + p2)) in *.
  assert (0 <= a' ∧ 0 <= b') as [Ha'0 Hb'0] by (split; lra).
  pose proof (Qmul_between lo a' hi (1 - x) Ha' ltac:(lra)) as Ka.
  pose proof (Qmul_between lo b' hi x Hb' ltac:(lra)) as Kb.
  exists (a' * (1 - x) + b' * x).
  split; [split; lra|]. split; [done|].
  pose proof (Qmul_between (a' - d) a (a' + d) u Had (proj1 Hu)) as K1.
  pose proof (Qmul_le_l a' (1 - x - E) u Ha'0 ltac:(lra)) as K2.
  pose proof (Qmul_le_l a' u (1 - x + E) Ha'0 ltac:(lra)) as K3.
  pose proof (Qmul_unit d u Hd0 Hu) as K4.
  pose proof (Qmul_between 0 a' (65535 # 1) E ltac:(lra) ltac:(lra)) as K5.
  pose proof (Qmul_between (b' - d) b (b' + d) x Hbd (proj1 Hx)) as K6.
  pose proof (Qmul_unit d x Hd0 Hx) as K7.
  lra.
Qed.


Lemma trunc_floor a : 0 <= a → float64.trunc a = Qfloor a.
Proof.
  destruct a as [n d]. unfold Qle, float64.trunc, Qfloor. simpl. intros Hn.
  apply Z.quot_div_nonneg; lia.
Qed.

Lemma floor_between q lo hi :
  inject_Z lo - 1 < q → q < inject_Z hi + 1 → 0 <= q →
  (0 ≤ Qfloor q ∧ lo - 1 ≤ Qfloor q ≤ hi)%Z.
Proof.
  intros Hlo Hhi H0.
  pose proof (Qfloor_le q) as Hf. pose proof (Qlt_floor q) as Hf'.
  rewrite inject_Z_plus in Hf'. change (inject_Z 1) with 1 in Hf'.
  split; [|split].
  - change 0%Z with (Qfloor 0). by apply Qfloor_resp_le.
  - assert (inject_Z (lo - 1) < inject_Z (Qfloor q + 1)) as H.
    { unfold Z.sub. rewrite !inject_Z_plus, inject_Z_opp.
      change (inject_Z 1) with 1. lra. }
    rewrite <- Zlt_Qlt in H. lia.
  - assert (inject_Z (Qfloor q) < inject_Z (hi + 1)) as H.
    { rewrite inject_Z_plus. change (inject_Z 1) with 1. lra. }
    rewrite <- Zlt_Qlt in H. lia.
Qed.

(** The blend of four 16-bit values is at most their largest and at least
    their smallest less one: the conversion to uint32 drops a fraction that
    the roundings may have pushed just below the smallest value. *)
Lemma bilinear_bounds v00 v10 v01 v11 xFrac yFrac lo hi :
  (0 ≤ lo)%Z → (hi ≤ 65535)%Z →
  (lo ≤ v00 ≤ hi)%Z → (lo ≤ v10 ≤ hi)%Z → (lo ≤ v01 ≤ hi)%Z → (lo ≤ v11 ≤ hi)%Z →
  0 <= xFrac <= 1 → 0 <= yFrac <= 1 →
  (0 ≤ bilinear v00 v10 v01 v11 xFrac yFrac ∧
   lo - 1 ≤ bilinear v00 v10 v01 v11 xFrac yFrac ≤ hi)%Z.
Proof.
  intros Hlo Hhi H00 H10 H01 H11 Hx Hy. unfold bilinear.
  rewrite !of_int_exact by lia.
  destruct pow2_36_small as [HE0 HE1].
  assert (0 <= inject_Z lo) as Hlo' by (change 0 with (inject_Z 0); rewrite <- Zle_Qle; lia).
  assert (inject_Z hi <= 65535 # 1) as Hhi'
    by (change (65535 # 1) with (inject_Z 65535); rewrite <- Zle_Qle; lia).
  assert (∀ v, (lo ≤ v ≤ hi)%Z → inject_Z lo <= inject_Z v <= inject_Z hi) as Hinj
    by (intros v Hv; rewrite <- !Zle_Qle; lia).
  destruct (mix_error (inject_Z v00) (inject_Z v10) (inject_Z v00) (inject_Z v10)
              xFrac 0 (inject_Z lo) (inject_Z hi))
    as (t0 & Ht0 & Hv0 & Hv0'); try (by auto); try lra.
  { pose proof (Hinj v00 H00). lra. }
  { pose proof (Hinj v10 H10). lra. }
  destruct (mix_error (inject_Z v01) (inject_Z v11) (inject_Z v01) (inject_Z v11)
              xFrac 0 (inject_Z lo) (inject_Z hi))
    as (t1 & Ht1 & Hv1 & Hv1'); try (by auto); try lra.
  { pose proof (Hinj v01 H01). lra. }
  { pose proof (Hinj v11 H11). lra. }
  set (v0 := float64.add _ _) in Hv0, Hv0' |- *.
  set (v1 := float64.add _ _) in Hv1, Hv1' |- *.
  destruct (mix_error v0 v1 t0 t1 yFrac ((65538 # 1) * float64.pow2 (-36))
              (inject_Z lo) (inject_Z hi))
    as (t & Ht & Hr & Hr'); try done; try lra.
  set (r := float64.add _ _) in Hr, Hr' |- *.
  rewrite trunc_floor by done.
  destruct (floor_between r lo hi) as (Hf0 & Hf1 & Hf2); [lra | lra | done |].
  rewrite to_uint32_small by lia. lia.
Qed.

End Blend.

(** ** resizeImage: the result stays within the colours of its source *)

(** The source coordinate of a target coordinate: its whole part is a
    coordinate of the source, its fraction a number from 0 to 1. *)
Lemma source_coordinate x W T :
  0 ≤ x < T → 1 ≤ W ≤ 2 ^ 26 → T ≤ 2 ^ 26 →
  let s := float64.div (float64.mul (float64.of_int x) (float64.of_int W))
                       (float64.of_int T) in
  let x0 := wrap_int (float64.trunc s) in
  0 ≤ x0 < W ∧ (0 <= float64.sub s (float64.of_int x0) <= 1)%Q.
Proof.
  intros Hx HW HT. cbv zeta.
  assert (x * W < 2 ^ 52) as HxW by nia.
  rewrite !of_int_exact by lia. rewrite mul_exact by nia.
  unfold float64.div.
  set (q := (inject_Z (x * W) / inject_Z T)%Q).
  assert (0 < inject_Z T)%Q as HT0 by (change 0%Q with (inject_Z 0); rewrite <- Zlt_Qlt; lia).
  assert (0 <= q)%Q as Hq0.
  { apply Qle_shift_div_l; [done|]. rewrite Qmult_0_l.
    change 0%Q with (inject_Z 0). rewrite <- Zle_Qle. nia. }
  assert (q <= inject_Z (W * 2 ^ 26 - 1) * float64.pow2 (-26))%Q as Hq1.
  { apply Qle_shift_div_r; [done|].
    assert (inject_Z (W * 2 ^ 26 - 1) * float64.pow2 (-26) * inject_Z T
            == inject_Z ((W * 2 ^ 26 - 1) * T) * float64.pow2 (-26))%Q as ->
      by (rewrite inject_Z_mult; ring).
    assert (inject_Z (x * W) == inject_Z (x * W * 2 ^ 26) * float64.pow2 (-26))%Q as ->.
    { rewrite (inject_Z_mult (x * W)), <- Qmult_assoc, (Qmult_comm (inject_Z (2 ^ 26))).
      rewrite (pow2_inv 26) by lia. by rewrite Qmult_1_r. }
    apply Qmult_le_compat_r; [|apply Qlt_le_weak, pow2_pos].
    rewrite <- Zle_Qle. nia. }
  pose proof (round_nonneg q Hq0) as Hs0.
  pose proof (round_le_repr q (W * 2 ^ 26 - 1) (-26) ltac:(lia) Hq1) as Hs1.
  set (s := float64.round q) in *.
  assert (s < inject_Z W)%Q as Hs2.
  { eapply Qle_lt_trans; [exact Hs1|].
    assert (inject_Z W == inject_Z (W * 2 ^ 26) * float64.pow2 (-26))%Q as ->.
    { rewrite inject_Z_mult, <- Qmult_assoc, (Qmult_comm (inject_Z (2 ^ 26))).
      rewrite (pow2_inv 26) by lia. by rewrite Qmult_1_r. }
    apply Qmult_lt_compat_r; [apply pow2_pos|]. rewrite <- Zlt_Qlt. lia. }
  rewrite trunc_floor by done.
  pose proof (Qfloor_le s) as Hf. pose proof (Qlt_floor s) as Hf'.
  assert (0 ≤ Qfloor s) as Hf0 by (change 0 with (Qfloor 0); by apply Qfloor_resp_le).
  assert (Qfloor s < W) as Hf1.
  { rewrite Zlt_Qlt. by eapply Qle_lt_trans. }
  rewrite wrap_int_small by (unfold min_int, max_int; lia).
  split; [lia|].
  rewrite of_int_exact by lia. unfold float64.sub. apply round_unit.
  rewrite inject_Z_plus in Hf'. change (inject_Z 1) with 1%Q in Hf'. lra.
Qed.

(** The 8-bit channel that resizeImage stores for four source channels
    between [lo] and [hi]. *)
Lemma widen_257 v : 0 ≤ v ≤ 255 → color.widen v = 257 * v.
Proof.
  intros Hv.
  assert (forallb (λ v, color.widen v =? 257 * v) (seqZ 0 256) = true)
    as Hall by (vm_compute; reflexivity).
  rewrite forallb_forall in Hall. apply Z.eqb_eq, Hall.
  apply list_elem_of_In, elem_of_seqZ. lia.
Qed.

Lemma channel_range v00 v10 v01 v11 xFrac yFrac lo hi :
  0 ≤ lo → hi ≤ 255 →
  lo ≤ v00 ≤ hi → lo ≤ v10 ≤ hi → lo ≤ v01 ≤ hi → lo ≤ v11 ≤ hi →
  (0 <= xFrac <= 1)%Q → (0 <= yFrac <= 1)%Q →
  lo ≤ to_uint8 (Z.shiftr (bilinear (color.widen v00) (color.widen v10)
                                    (color.widen v01) (color.widen v11) xFrac yFrac) 8) ≤ hi.
Proof.
  intros Hlo Hhi H00 H10 H01 H11 Hx Hy.
  rewrite !widen_257 by lia.
  destruct (bilinear_bounds (257 * v00) (257 * v10) (257 * v01) (257 * v11) xFrac yFrac
              (257 * lo) (257 * hi)) as (Hb0 & Hb1 & Hb2); try lia; try done.
  set (b := bilinear _ _ _ _ _ _) in *.
  rewrite Z.shiftr_div_pow2 by lia.
  assert (lo ≤ b / 2 ^ 8) by (apply Z.div_le_lower_bound; lia).
  assert (b / 2 ^ 8 < hi + 1) by (apply Z.div_lt_upper_bound; lia).
  rewrite to_uint8_small by lia. lia.
Qed.

Section Scaled.

Context (src : image.RGBA) (minX minY W H targetW targetH : Z).
Hypothesis src_bounds :
  image.Bounds src = image.mkRectangle (image.Pt minX minY) (image.Pt (minX + W) (minY + H)).
Hypothesis minX_int : min_int ≤ minX.
Hypothesis maxX_int : minX + W ≤ max_int.
Hypothesis minY_int : min_int ≤ minY.
Hypothesis maxY_int : minY + H ≤ max_int.
Hypothesis W_side : 1 ≤ W ≤ 2 ^ 26.
Hypothesis H_side : 1 ≤ H ≤ 2 ^ 26.
Hypothesis targetW_side : targetW ≤ 2 ^ 26.
Hypothesis targetH_side : targetH ≤ 2 ^ 26.

(** The pixel at [(x, y)] blends four pixels of the source, with fractions
    from 0 to 1. *)
Lemma resizePixel_samples x y :
  0 ≤ x < targetW → 0 ≤ y < targetH →
  ∃ x0 x1 y0 y1 xFrac yFrac,
    0 ≤ x0 < W ∧ 0 ≤ x1 < W ∧ 0 ≤ y0 < H ∧ 0 ≤ y1 < H ∧
    (0 <= xFrac <= 1)%Q ∧ (0 <= yFrac <= 1)%Q ∧
    resizePixel src targetW targetH x y =
      let c00 := image.At src (minX + x0) (minY + y0) in
      let c10 := image.At src (minX + x1) (minY + y0) in
      let c01 := image.At src (minX + x0) (minY + y1) in
      let c11 := image.At src (minX + x1) (minY + y1) in
      let blend (ch : RGBA → Z) :=
        to_uint8 (Z.shiftr (bilinear (color.widen (ch c00)) (color.widen (ch c10))
                                     (color.widen (ch c01)) (color.widen (ch c11))
                                     xFrac yFrac) 8) in
      mkRGBA (blend color.R) (blend color.G) (blend color.B) 255.
Proof using All.
  intros Hx Hy. unfold resizePixel.
  rewrite (src_Dx src minX minY W H), (src_Dy src minX minY W H) by (done || lia).
  rewrite src_bounds. cbn [image.X image.Y image.Min].
  destruct (source_coordinate x W targetW Hx W_side targetW_side) as [Hx0 HxF].
  destruct (source_coordinate y H targetH Hy H_side targetH_side) as [Hy0 HyF].
  cbv zeta in Hx0, HxF, Hy0, HyF.
  set (srcX := float64.div (float64.mul (float64.of_int x) _) _) in *.
  set (srcY := float64.div (float64.mul (float64.of_int y) _) _) in *.
  set (x0 := wrap_int (float64.trunc srcX)) in *.
  set (y0 := wrap_int (float64.trunc srcY)) in *.
  cbv zeta.
  rewrite (int_add_small x0 1), (int_add_small y0 1) by (unfold min_int, max_int; lia).
  rewrite (int_sub_small W 1), (int_sub_small H 1) by (unfold min_int, max_int; lia).
  set (x1 := if x0 + 1 >=? W then W - 1 else x0 + 1).
  set (y1 := if y0 + 1 >=? H then H - 1 else y0 + 1).
  assert (0 ≤ x1 < W) as Hx1 by (unfold x1; destruct (Z.geb_spec (x0 + 1) W); lia).
  assert (0 ≤ y1 < H) as Hy1 by (unfold y1; destruct (Z.geb_spec (y0 + 1) H); lia).
  exists x0, x1, y0, y1, (float64.sub srcX (float64.of_int x0)),
         (float64.sub srcY (float64.of_int y0)).
  do 6 (split; [done|]).
  rewrite !(int_add_small minX), !(int_add_small minY)
    by (unfold min_int, max_int in *; lia).
  reflexivity.
Qed.

End Scaled.

(** X22: resizeImage never leaves the colours of its source: for a source and a
    target of 1 to 2^26 pixels each way, every pixel of the result has alpha
    255 and, in each of R, G and B, a value between the smallest and the
    largest value that channel takes in the source.  The roundings of the
    float64 blend never add up to a step of the 8-bit result; a source of one
    colour is resized to that colour. *)
Theorem resizeImage_within_source (src : image.RGBA) targetW targetH :
  well_formed src →
  1 ≤ image_width src ≤ exact_side → 1 ≤ image_height src ≤ exact_side →
  1 ≤ targetW ≤ exact_side → 1 ≤ targetH ≤ exact_side →
  4 * targetW * targetH ≤ maxAlloc →
  ∃ dst,
    resizeImage src targetW targetH = Ok dst ∧
    image.Bounds dst = image.Rect 0 0 targetW targetH ∧
    ∀ x y, 0 ≤ x < targetW → 0 ≤ y < targetH →
      color.A (image.At dst x y) = 255 ∧
      ∀ ch lo hi,
        ch ∈ [color.R; color.G; color.B] →
        (∀ px py, image.In px py (image.Bounds src) = true →
                  lo ≤ ch (image.At src px py) ≤ hi) →
        lo ≤ ch (image.At dst x y) ≤ hi.
Proof.
  intros Hwf HW HH HtW HtH Hfit. pose proof Hwf as [H1 H2 H3 H4 H5 H6 H7 H8].
  unfold image_width, image_height, exact_side in *.
  set (minX := image.X (image.Min (image.Bounds src))) in *.
  set (minY := image.Y (image.Min (image.Bounds src))) in *.
  set (W := image.X (image.Max (image.Bounds src)) - minX) in *.
  set (H := image.Y (image.Max (image.Bounds src)) - minY) in *.
  assert (image.Bounds src =
          image.mkRectangle (image.Pt minX minY) (image.Pt (minX + W) (minY + H))) as Hb.
  { unfold W, H, minX, minY. destruct (image.Bounds src) as [[a b] [c d]].
    cbn [image.X image.Y image.Min image.Max]. do 2 f_equal; lia. }
  destruct (resizeImage_pixels src targetW targetH) as (dst & Hdst & Hbd & Hpix);
    [unfold maxAlloc; lia | unfold maxAlloc; lia | done |].
  exists dst. split; [done|]. split; [done|].
  intros x y Hx Hy. rewrite Hpix by done.
  destruct (resizePixel_samples src minX minY W H targetW targetH Hb) with (x := x) (y := y)
    as (x0 & x1 & y0 & y1 & xFrac & yFrac & Hx0 & Hx1 & Hy0 & Hy1 & HxF & HyF & ->);
    try lia.
  cbv zeta. split; [reflexivity|].
  intros ch lo hi Hch Hrange.
  assert (∀ a b, 0 ≤ a < W → 0 ≤ b < H →
                 Z.max lo 0 ≤ ch (image.At src (minX + a) (minY + b)) ≤ Z.min hi 255) as Hs.
  { intros a b Ha Hb'.
    assert (image.In (minX + a) (minY + b) (image.Bounds src) = true) as Hin.
    { rewrite Hb. unfold image.In. cbn [image.X image.Y image.Min image.Max].
      repeat (apply andb_true_intro; split); (apply Z.leb_le || apply Z.ltb_lt); lia. }
    pose proof (Hrange _ _ Hin) as Hr.
    destruct (At_channels_8bit src (minX + a) (minY + b) Hwf) as (Hr8 & Hg8 & Hb8 & _).
    repeat (apply elem_of_cons in Hch as [->|Hch]); [lia | lia | lia |].
    by apply elem_of_nil in Hch. }
  pose proof (channel_range _ _ _ _ xFrac yFrac (Z.max lo 0) (Z.min hi 255)
                ltac:(lia) ltac:(lia)
                (Hs x0 y0 Hx0 Hy0) (Hs x1 y0 Hx1 Hy0) (Hs x0 y1 Hx0 Hy1) (Hs x1 y1 Hx1 Hy1)
                HxF HyF) as Hc.
  repeat (apply elem_of_cons in Hch as [->|Hch]);
    [cbn [color.R]; lia | cbn [color.G]; lia | cbn [color.B]; lia |].
  by apply elem_of_nil in Hch.
Qed.

Lemma resizeImage_within_source_witness :
  ∃ dst,
    resizeImage two_pixels 4 1 = Ok dst ∧
    image.Bounds dst = image.Rect 0 0 4 1 ∧
    ∀ x y, 0 ≤ x < 4 → 0 ≤ y < 1 →
      color.A (image.At dst x y) = 255 ∧
      ∀ ch lo hi,
        ch ∈ [color.R; color.G; color.B] →
        (∀ px py, image.In px py (image.Bounds two_pixels) = true →
                  lo ≤ ch (image.At two_pixels px py) ≤ hi) →
        lo ≤ ch (image.At dst x y) ≤ hi.
Proof.
  apply (resizeImage_within_source two_pixels 4 1).
  - apply two_pixels_well_formed.
  - split; vm_compute; discriminate.
  - split; vm_compute; discriminate.
  - split; vm_compute; discriminate.
  - split; vm_compute; discriminate.
  - vm_compute. discriminate.
Defined.

(** ** ExtractVolume: every sample is counted in one segment *)

Lemma at_index_lookup {A : Type} (l : list A) i a :
  0 ≤ i → l !! Z.to_nat i = Some a → audio.at_index l i = Ok a.
Proof.
  intros Hi Hl. unfold audio.at_index. pose proof (lookup_lt_Some _ _ _ Hl) as Hlt.
  destruct (Z.leb_spec 0 i); [|lia].
  destruct (Z.ltb_spec i (Z.of_nat (length l))); [|lia]. simpl. by rewrite Hl.
Qed.

Lemma less_true a b : audio.less a b = true → (a < b)%Q.
Proof.
  unfold audio.less. intros E. apply negb_true_iff in E.
  destruct (Qlt_le_dec a b) as [|Hle]; [done|].
  apply Qle_bool_iff in Hle. congruence.
Qed.

Lemma less_false a b : audio.less a b = false → (b <= a)%Q.
Proof.
  unfold audio.less. intros E. apply negb_false_iff in E. by apply Qle_bool_iff.
Qed.

(** The loop over the samples [start .. start + cnt - 1]: it does not
    panic, it leaves the times and the RMS alone, and the Min, Max and Peak
    it ends with bound every sample it has seen. *)
Lemma scan_samples samples cnt : ∀ start seg sum count,
  0 ≤ start → start + Z.of_nat cnt ≤ Z.of_nat (length samples) →
  0 ≤ count → count + Z.of_nat cnt ≤ max_int →
  ∃ seg' sum',
    for_from start cnt (audio.scan_sample samples) (seg, sum, count)
      = Ok (seg', sum', count + Z.of_nat cnt) ∧
    audio.TimeStart seg' = audio.TimeStart seg ∧
    audio.TimeEnd seg' = audio.TimeEnd seg ∧
    audio.RMS seg' = audio.RMS seg ∧
    (audio.Min seg' <= audio.Min seg)%Q ∧
    (audio.Max seg <= audio.Max seg')%Q ∧
    (audio.Peak seg <= audio.Peak seg')%Q ∧
    (∀ j s, start ≤ j < start + Z.of_nat cnt → samples !! Z.to_nat j = Some s →
            (audio.Min seg' <= s <= audio.Max seg' ∧ Qabs s <= audio.Peak seg')%Q) ∧
    (cnt = 0%nat → seg' = seg).
Proof.
  induction cnt as [|cnt IH]; intros start seg sum count Hstart Hend Hcount Hmax.
  - exists seg, sum. rewrite Z.add_0_r. simpl.
    split; [done|]. do 3 (split; [done|]). do 3 (split; [apply Qle_refl|]).
    split; [intros j s Hj; lia | done].
  - destruct (lookup_lt_is_Some_2 samples (Z.to_nat start) ltac:(lia)) as [s0 Hs0].
    set (seg1 := if audio.less s0 (audio.Min seg) then audio.set_Min seg s0 else seg).
    set (seg2 := if audio.less (audio.Max seg1) s0 then audio.set_Max seg1 s0 else seg1).
    set (seg3 := if audio.less (audio.Peak seg2) (Qabs s0)
                 then audio.set_Peak seg2 (Qabs s0) else seg2).
    assert (audio.TimeStart seg3 = audio.TimeStart seg ∧
            audio.TimeEnd seg3 = audio.TimeEnd seg ∧
            audio.RMS seg3 = audio.RMS seg ∧
            (audio.Min seg3 <= audio.Min seg ∧ audio.Min seg3 <= s0)%Q ∧
            (audio.Max seg <= audio.Max seg3 ∧ s0 <= audio.Max seg3)%Q ∧
            (audio.Peak seg <= audio.Peak seg3 ∧ Qabs s0 <= audio.Peak seg3)%Q)
      as (Ht1 & Ht2 & Hr & [Hm1 Hm2] & [Hx1 Hx2] & [Hp1 Hp2]).
    { unfold seg3, seg2, seg1.
      destruct (audio.less s0 (audio.Min seg)) eqn:E1;
        [apply less_true in E1 | apply less_false in E1];
        cbn [audio.Max audio.set_Min];
        (destruct (audio.less (audio.Max seg) s0) eqn:E2;
           [apply less_true in E2 | apply less_false in E2]);
        cbn [audio.Peak audio.set_Min audio.set_Max];
        (destruct (audio.less (audio.Peak seg) (Qabs s0)) eqn:E3;
           [apply less_true in E3 | apply less_false in E3]);
        cbn [audio.TimeStart audio.TimeEnd audio.RMS audio.Peak audio.Min audio.Max
             audio.set_Min audio.set_Max audio.set_Peak];
        repeat split; try done; lra. }
    assert (audio.scan_sample samples start (seg, sum, count)
            = Ok (seg3, float64.add sum (float64.mul s0 s0), count + 1)) as Hstep.
    { unfold audio.scan_sample.
      rewrite (at_index_lookup samples start s0) by done. cbn [mbind res_bind].
      by rewrite (int_add_small count 1) by (unfold min_int, max_int in *; lia). }
    cbn [for_from]. rewrite Hstep. cbn [mbind res_bind].
    destruct (IH (start + 1) seg3 (float64.add sum (float64.mul s0 s0)) (count + 1))
      as (seg' & sum' & Hrun & Hs1 & Hs2 & Hs3 & Hmin & Hmaxx & Hpeak & Hall & _);
      try lia.
    exists seg', sum'. rewrite Hrun.
    split; [do 2 f_equal; lia|].
    split; [congruence|]. split; [congruence|]. split; [congruence|].
    split; [lra|]. split; [lra|]. split; [lra|]. split; [|done].
    intros j s Hj Hs. destruct (decide (j = start)) as [->|Hne].
    + rewrite Hs0 in Hs. injection Hs as <-. lra.
    + apply (Hall j s); [lia | done].
Qed.

Lemma int_quot_small a b : 0 ≤ a ≤ max_int → 0 < b → int_quot a b = a / b.
Proof.
  intros Ha Hb. unfold int_quot. rewrite Z.quot_div_nonneg by lia.
  apply wrap_int_small. pose proof (Z.div_pos a b ltac:(lia) Hb).
  pose proof (Z.div_le_upper_bound a b a Hb ltac:(nia)). unfold min_int, max_int in *. lia.
Qed.

(** What ExtractVolume returns: one segment for each index below
    [numSegments]; segment [i] bounds the samples from [i * per] up to
    [(i + 1) * per], the last segment those up to the end, and a segment
    without samples keeps the values it starts with. *)
Lemma ExtractVolume_spec math_Sqrt (w : audio.WaveformData) numSegments :
  0 < numSegments → 48 * numSegments ≤ maxAlloc →
  0 < Z.of_nat (length (audio.Samples w)) ≤ maxAlloc →
  ∃ segments,
    audio.ExtractVolume math_Sqrt w numSegments = Ok segments ∧
    length segments = Z.to_nat numSegments ∧
    ∀ i, 0 ≤ i < numSegments →
      ∃ seg, segments !! Z.to_nat i = Some seg ∧
        let n := Z.of_nat (length (audio.Samples w)) in
        let per := Z.max 1 (n / numSegments) in
        let stop := Z.min n (if i =? numSegments - 1 then n else i * per + per) in
        (∀ j s, i * per ≤ j < stop → audio.Samples w !! Z.to_nat j = Some s →
                (audio.Min seg <= s <= audio.Max seg ∧ Qabs s <= audio.Peak seg)%Q) ∧
        (stop ≤ i * per →
         audio.Min seg = 1%Q ∧ audio.Max seg = (- (1))%Q ∧
         audio.Peak seg = 0%Q ∧ audio.RMS seg = 0%Q).
Proof.
  intros Hn Halloc Hlen. unfold audio.ExtractVolume. cbv zeta.
  set (samples := audio.Samples w) in *. set (n := Z.of_nat (length samples)) in *.
  unfold maxAlloc in *.
  destruct (Z.leb_spec numSegments 0); [lia|].
  destruct (Z.eqb_spec n 0); [lia|]. cbn [orb].
  rewrite int_quot_small by (unfold max_int; lia).
  set (per := Z.max 1 (n / numSegments)).
  assert ((if n / numSegments <? 1 then 1 else n / numSegments) = per) as ->.
  { unfold per. destruct (Z.ltb_spec (n / numSegments) 1); lia. }
  assert (1 ≤ per ≤ 2 ^ 48) as Hper.
  { unfold per. pose proof (Z.div_le_upper_bound n numSegments n ltac:(lia) ltac:(nia)).
    lia. }
  assert (∀ k, 0 ≤ k < numSegments → 0 ≤ k * per ≤ 2 ^ 48) as Hstart.
  { intros k Hk. split; [nia|]. unfold per.
    destruct (Z.max_spec 1 (n / numSegments)) as [[_ ->]|[_ ->]].
    - pose proof (Z.mul_div_le n numSegments ltac:(lia)). nia.
    - lia. }
  rewrite int_sub_small by (unfold min_int, max_int; lia).
  unfold audio.make_segments, maxAlloc.
  destruct (Z.ltb_spec numSegments 0); [lia|].
  destruct (Z.gtb_spec (48 * numSegments) (2 ^ 48)); [lia|].
  cbn [orb mbind res_bind].
  set (zero := audio.mkVolumeSegment 0 0 0 0 0 0).
  set (I := λ (k : Z) (segs : list audio.VolumeSegment),
    length segs = Z.to_nat numSegments ∧
    (∀ i, k ≤ i < numSegments → segs !! Z.to_nat i = Some zero) ∧
    (∀ i, 0 ≤ i < k →
      ∃ seg, segs !! Z.to_nat i = Some seg ∧
        let stop := Z.min n (if i =? numSegments - 1 then n else i * per + per) in
        (∀ j s, i * per ≤ j < stop → samples !! Z.to_nat j = Some s →
                (audio.Min seg <= s <= audio.Max seg ∧ Qabs s <= audio.Peak seg)%Q) ∧
        (stop ≤ i * per →
         audio.Min seg = 1%Q ∧ audio.Max seg = (- (1))%Q ∧
         audio.Peak seg = 0%Q ∧ audio.RMS seg = 0%Q))).
  match goal with
  | |- context [for_loop ?m ?body ?s0] =>
      destruct (for_loop_inv I body m s0) as (segs & Hrun & Hl & _ & Hdone)
  end.
  - lia.
  - split; [apply length_replicate|]. split.
    + intros i Hi. apply lookup_replicate_2. lia.
    + intros i Hi. lia.
  - intros k segs Hk (Hl & Htodo & Hdone).
    rewrite (int_mul_small k per) by (pose proof (Hstart k Hk); unfold min_int, max_int; lia).
    pose proof (Hstart k Hk) as Hs.
    rewrite (int_add_small (k * per) per) by (unfold min_int, max_int in *; lia).
    set (stop := if (if k =? numSegments - 1 then n else k * per + per) >? n then n
                 else if k =? numSegments - 1 then n else k * per + per).
    assert (stop = Z.min n (if k =? numSegments - 1 then n else k * per + per)) as Hstop.
    { unfold stop. destruct (k =? numSegments - 1);
        [destruct (Z.gtb_spec n n) | destruct (Z.gtb_spec (k * per + per) n)]; lia. }
    rewrite (at_index_lookup segs k zero) by (lia || (apply Htodo; lia)).
    cbn [mbind res_bind].
    set (seg0 := audio.set_Max _ _).
    assert (∃ seg sum count,
              for_from (k * per) (Z.to_nat (stop - k * per)) (audio.scan_sample samples)
                       (seg0, 0%Q, 0) = Ok (seg, sum, count) ∧
              audio.RMS seg = 0%Q ∧
              (∀ j s, k * per ≤ j < stop → samples !! Z.to_nat j = Some s →
                 (audio.Min seg <= s <= audio.Max seg ∧ Qabs s <= audio.Peak seg)%Q) ∧
              (stop ≤ k * per →
                 count = 0 ∧ audio.Min seg = 1%Q ∧ audio.Max seg = (- (1))%Q ∧
                 audio.Peak seg = 0%Q)) as (seg & sum & count & Hscan & Hrms & Hall & Hnone).
    { destruct (decide (stop ≤ k * per)) as [Hle|Hgt].
      - exists seg0, 0%Q, 0. replace (Z.to_nat (stop - k * per)) with 0%nat by lia.
        split; [done|]. split; [done|]. split; [intros j s Hj; lia|]. done.
      - destruct (scan_samples samples (Z.to_nat (stop - k * per)) (k * per) seg0 0%Q 0)
          as (seg & sum & Hscan & _ & _ & Hr & _ & _ & _ & Hall & _);
          [lia | lia | lia | unfold max_int; lia |].
        exists seg, sum, (0 + Z.of_nat (Z.to_nat (stop - k * per))).
        split; [done|]. split; [by rewrite Hr|]. split; [|lia].
        intros j s Hj Hjs. apply (Hall j s); [lia | done]. }
    rewrite Hscan. cbn [mbind res_bind].
    eexists. split; [reflexivity|].
    split; [by rewrite length_insert|]. split.
    + intros i Hi. rewrite list_lookup_insert_ne by lia. apply Htodo. lia.
    + intros i Hi. destruct (decide (i = k)) as [->|Hne].
      * eexists. split; [apply list_lookup_insert_eq; lia|].
        cbv zeta. rewrite <- Hstop.
        destruct (Z.gtb_spec count 0) as [Hc|Hc].
        -- split; [exact Hall|]. intros Hle. destruct (Hnone Hle) as [-> _]. lia.
        -- split; [exact Hall|]. intros Hle. destruct (Hnone Hle) as (_ & ? & ? & ?). done.
      * rewrite list_lookup_insert_ne by lia. apply Hdone. lia.
  - exists segs. split; [done|]. split; [done|]. exact Hdone.
Qed.

(** X23: No sample is left out of the segments: ExtractVolume returns
    [numSegments] segments, and the sample at index [j] lies between the Min
    and the Max of segment [j / per], with its size at most the Peak, where
    [per] is the whole number of samples per segment (at least one); the
    samples beyond [numSegments * per] are counted in the last segment. *)
Theorem ExtractVolume_covers math_Sqrt (w : audio.WaveformData) numSegments :
  0 < numSegments → 48 * numSegments ≤ maxAlloc →
  0 < Z.of_nat (length (audio.Samples w)) ≤ maxAlloc →
  ∃ segments,
    audio.ExtractVolume math_Sqrt w numSegments = Ok segments ∧
    length segments = Z.to_nat numSegments ∧
    ∀ j sample, audio.Samples w !! j = Some sample →
      let per := Z.max 1 (Z.of_nat (length (audio.Samples w)) / numSegments) in
      ∃ seg,
        segments !! Z.to_nat (Z.min (Z.of_nat j / per) (numSegments - 1)) = Some seg ∧
        (audio.Min seg <= sample <= audio.Max seg ∧ Qabs sample <= audio.Peak seg)%Q.
Proof.
  intros Hn Halloc Hlen.
  destruct (ExtractVolume_spec math_Sqrt w numSegments Hn Halloc Hlen)
    as (segments & Hrun & Hl & Hsegs).
  exists segments. split; [done|]. split; [done|].
  intros j sample Hj. cbv zeta.
  pose proof (lookup_lt_Some _ _ _ Hj) as Hjlt.
  set (n := Z.of_nat (length (audio.Samples w))) in *.
  set (per := Z.max 1 (n / numSegments)).
  assert (1 ≤ per) as Hper by (unfold per; lia).
  set (i := Z.min (Z.of_nat j / per) (numSegments - 1)).
  pose proof (Z.div_pos (Z.of_nat j) per ltac:(lia) ltac:(lia)) as Hq0.
  pose proof (Z.mul_div_le (Z.of_nat j) per ltac:(lia)) as Hq1.
  pose proof (Z.mul_succ_div_gt (Z.of_nat j) per ltac:(lia)) as Hq2.
  destruct (Hsegs i ltac:(unfold i; lia)) as (seg & Hseg & Hall & _).
  exists seg. split; [done|].
  apply (Hall (Z.of_nat j)); [|by rewrite Nat2Z.id].
  fold n. fold per. unfold i.
  destruct (Z.min_spec (Z.of_nat j / per) (numSegments - 1)) as [[Hlt ->]|[Hge ->]].
  - destruct (Z.eqb_spec (Z.of_nat j / per) (numSegments - 1)); [lia|]. nia.
  - rewrite Z.eqb_refl. nia.
Qed.

Lemma ExtractVolume_covers_witness :
  ∃ segments,
    audio.ExtractVolume (λ q, q)
      (audio.mkWaveformData [1 # 2; - (1 # 4); 1 # 8]%Q 44100 0 1) 2 = Ok segments ∧
    length segments = Z.to_nat 2 ∧
    ∀ j sample, [1 # 2; - (1 # 4); 1 # 8]%Q !! j = Some sample →
      ∃ seg,
        segments !! Z.to_nat (Z.min (Z.of_nat j / Z.max 1 (3 / 2)) (2 - 1)) = Some seg ∧
        (audio.Min seg <= sample <= audio.Max seg ∧ Qabs sample <= audio.Peak seg)%Q.
Proof.
  apply (ExtractVolume_covers (λ q, q)
           (audio.mkWaveformData [1 # 2; - (1 # 4); 1 # 8]%Q 44100 0 1) 2).
  - lia.
  - vm_compute. discriminate.
  - split; vm_compute; [reflexivity | discriminate].
Defined.

(** X24: With more segments than samples the segments from the number of
    samples on get no sample: each of them is returned with Min 1.0 above
    Max -1.0, and with Peak and RMS zero. *)
Theorem ExtractVolume_spare_segments math_Sqrt (w : audio.WaveformData) numSegments :
  48 * numSegments ≤ maxAlloc →
  0 < Z.of_nat (length (audio.Samples w)) < numSegments →
  ∃ segments,
    audio.ExtractVolume math_Sqrt w numSegments = Ok segments ∧
    ∀ i, Z.of_nat (length (audio.Samples w)) ≤ i < numSegments →
      ∃ seg, segments !! Z.to_nat i = Some seg ∧
             audio.Min seg = 1%Q ∧ audio.Max seg = (- (1))%Q ∧
             audio.Peak seg = 0%Q ∧ audio.RMS seg = 0%Q.
Proof.
  intros Halloc Hlen.
  destruct (ExtractVolume_spec math_Sqrt w numSegments ltac:(lia) Halloc)
    as (segments & Hrun & Hl & Hsegs); [unfold maxAlloc in *; lia|].
  exists segments. split; [done|]. intros i Hi.
  destruct (Hsegs i ltac:(lia)) as (seg & Hseg & _ & Hnone).
  exists seg. split; [done|]. apply Hnone.
  rewrite Z.div_small by lia. destruct (i =? numSegments - 1); lia.
Qed.

Lemma ExtractVolume_spare_segments_witness :
  ∃ segments,
    audio.ExtractVolume (λ q, q)
      (audio.mkWaveformData [1 # 2; - (1 # 4)]%Q 44100 0 1) 4 = Ok segments ∧
    ∀ i, Z.of_nat (length [1 # 2; - (1 # 4)]%Q) ≤ i < 4 →
      ∃ seg, segments !! Z.to_nat i = Some seg ∧
             audio.Min seg = 1%Q ∧ audio.Max seg = (- (1))%Q ∧
             audio.Peak seg = 0%Q ∧ audio.RMS seg = 0%Q.
Proof.
  apply (ExtractVolume_spare_segments (λ q, q)
           (audio.mkWaveformData [1 # 2; - (1 # 4)]%Q 44100 0 1) 4).
  - vm_compute. discriminate.
  - split; vm_compute; reflexivity.
Defined.

(** The conversion to uint8 of a number from 0 to below 256. *)
Lemma uint8_of_float_small f :
  (0 <= f)%Q → Qfloor f < 256 → audiodna.uint8_of_float f = Qfloor f.
Proof.
  intros Hf Hlt. unfold audiodna.uint8_of_float. rewrite trunc_floor by done.
  assert (0 ≤ Qfloor f) by (change 0 with (Qfloor 0); by apply Qfloor_resp_le).
  destruct (Z.leb_spec (- 2 ^ 31) (Qfloor f)); [|lia].
  destruct (Z.ltb_spec (Qfloor f) (2 ^ 31)); [|lia].
  simpl. apply to_uint8_small. lia.
Qed.

(** ** The bars of the waveform: scaleColor *)

Section Bars.
Local Open Scope Q_scope.

(** One channel of scaleColor for a scale from just below 7/10 to 1. *)
Lemma scale_channel v s :
  (0 ≤ v ≤ 255)%Z → (7 # 10) - 3 * float64.pow2 (-36) <= s → s <= 1 →
  (7 * v / 10 - 1 ≤ audiodna.uint8_of_float (float64.mul (float64.of_int v) s) ≤ v)%Z.
Proof.
  intros Hv Hs0 Hs1. destruct pow2_36_small as [HE0 HE1].
  set (E := float64.pow2 (-36)) in *.
  rewrite of_int_exact by lia. unfold float64.mul.
  assert (0 <= inject_Z v <= 255 # 1) as HV.
  { change 0 with (inject_Z 0). change (255 # 1) with (inject_Z 255).
    rewrite <- !Zle_Qle. lia. }
  assert (0 <= inject_Z v * s <= inject_Z v) as Hq by nra.
  pose proof (round_nonneg _ (proj1 Hq)) as Hr0.
  pose proof (round_near (inject_Z v * s) ltac:(lra)) as Hr1. fold E in Hr1.
  pose proof (round_le_repr (inject_Z v * s) v 0 ltac:(lia)) as Hr2.
  change (float64.pow2 0) with 1 in Hr2. rewrite Qmult_1_r in Hr2.
  specialize (Hr2 (proj2 Hq)).
  set (q := float64.round (inject_Z v * s)) in *.
  assert (inject_Z (7 * v / 10) <= (7 # 10) * inject_Z v) as Hlo.
  { pose proof (Z.mul_div_le (7 * v) 10 ltac:(lia)) as H.
    assert (inject_Z (10 * (7 * v / 10)) <= inject_Z (7 * v)) as H' by (by rewrite <- Zle_Qle).
    rewrite !inject_Z_mult in H'. change (inject_Z 10) with (10 # 1) in H'.
    change (inject_Z 7) with (7 # 1) in H'. lra. }
  assert ((7 # 10) * inject_Z v - 766 * E <= inject_Z v * s) as Hmid by nra.
  destruct (floor_between q (7 * v / 10) v) as (Hf0 & Hf1 & Hf2); [lra | lra | done |].
  rewrite uint8_of_float_small by (done || lia). lia.
Qed.

(** The intensity of a row of a bar. *)
Lemma intensity_range dist halfHeight :
  (0 ≤ dist ≤ halfHeight)%Z → (halfHeight ≤ 2 ^ 52)%Z →
  (7 # 10) - 3 * float64.pow2 (-36)
    <= float64.sub 1
         (float64.mul (float64.div (float64.of_int dist)
                                   (float64.of_int (int_add halfHeight 1)))
                      (float64.round (3 # 10)))
    <= 1.
Proof.
  intros Hd Hh. destruct pow2_36_small as [HE0 HE1].
  set (E := float64.pow2 (-36)) in *.
  rewrite int_add_small by (unfold min_int, max_int; lia).
  rewrite !of_int_exact by lia.
  unfold float64.sub, float64.mul, float64.div.
  assert (0 < inject_Z (halfHeight + 1)) as Hh0
    by (change 0 with (inject_Z 0); rewrite <- Zlt_Qlt; lia).
  assert (0 <= inject_Z dist / inject_Z (halfHeight + 1) <= 1) as Hq.
  { split.
    - apply Qle_shift_div_l; [done|]. rewrite Qmult_0_l.
      change 0 with (inject_Z 0). rewrite <- Zle_Qle. lia.
    - apply Qle_shift_div_r; [done|]. rewrite Qmult_1_l. rewrite <- Zle_Qle. lia. }
  pose proof (round_unit _ Hq) as Hd1.
  set (d := float64.round (inject_Z dist / inject_Z (halfHeight + 1))) in *.
  pose proof (round_nonneg (3 # 10) ltac:(lra)) as Hc0.
  pose proof (round_near (3 # 10) ltac:(lra)) as Hc1. fold E in Hc1.
  set (c := float64.round (3 # 10)) in *.
  assert (0 <= d * c <= (3 # 10) + E) as Hdc by nra.
  pose proof (round_nonneg _ (proj1 Hdc)) as Hx0.
  pose proof (round_near (d * c) ltac:(lra)) as Hx1. fold E in Hx1.
  set (x := float64.round (d * c)) in *.
  pose proof (round_unit (1 - x) ltac:(lra)) as Hi0.
  pose proof (round_near (1 - x) ltac:(lra)) as Hi1. fold E in Hi1.
  lra.
Qed.

End Bars.

Lemma abs_small x : - 2 ^ 62 ≤ x ≤ 2 ^ 62 → audiodna.abs x = Z.abs x.
Proof.
  intros Hx. unfold audiodna.abs. destruct (Z.ltb_spec x 0).
  - rewrite int_sub_small by (unfold min_int, max_int; lia). lia.
  - lia.
Qed.

(** X25: The bars of the waveform are never brighter than the colour of their
    stem and never darker than 70% of it (less one step for the dropped
    fraction): for a row of the bar, at most [halfHeight] from its middle,
    each of R, G and B of the colour drawn lies between 7/10 of the channel
    of the stem, less one, and the channel itself; alpha is kept.  The
    conversion to uint8 does not wrap around. *)
Theorem barColor_range (stemColor : RGBA) y yMid halfHeight :
  channels_8bit stemColor →
  0 ≤ halfHeight ≤ 2 ^ 52 → - 2 ^ 52 ≤ yMid ≤ 2 ^ 52 →
  yMid - halfHeight ≤ y ≤ yMid + halfHeight →
  color.A (audiodna.barColor stemColor y yMid halfHeight) = color.A stemColor ∧
  ∀ ch, ch ∈ [color.R; color.G; color.B] →
    7 * ch stemColor / 10 - 1 ≤ ch (audiodna.barColor stemColor y yMid halfHeight)
      ≤ ch stemColor.
Proof.
  intros (Hr & Hg & Hb & _) Hh Hmid Hy. unfold audiodna.barColor. cbv zeta.
  rewrite (int_sub_small y yMid) by (unfold min_int, max_int; lia).
  rewrite abs_small by lia.
  pose proof (intensity_range (Z.abs (y - yMid)) halfHeight ltac:(lia) ltac:(lia))
    as [Hi0 Hi1].
  set (intensity := float64.sub 1 _) in *.
  split; [reflexivity|]. intros ch Hch.
  repeat (apply elem_of_cons in Hch as [->|Hch]);
    [| | | by apply elem_of_nil in Hch];
    cbn [audiodna.scaleColor color.R color.G color.B]; by apply scale_channel.
Qed.

Lemma barColor_range_witness :
  color.A (audiodna.barColor (mkRGBA 255 100 30 255) 12 10 4) = color.A (mkRGBA 255 100 30 255) ∧
  ∀ ch, ch ∈ [color.R; color.G; color.B] →
    7 * ch (mkRGBA 255 100 30 255) / 10 - 1
      ≤ ch (audiodna.barColor (mkRGBA 255 100 30 255) 12 10 4)
      ≤ ch (mkRGBA 255 100 30 255).
Proof.
  apply (barColor_range (mkRGBA 255 100 30 255) 12 10 4).
  - repeat split; simpl; lia.
  - lia.
  - lia.
  - lia.
Defined.

(** ** resizeImage of the audio part: a channel may lose one step *)

Section Blend4.
Local Open Scope Q_scope.

(** The error of a product of two computed numbers. *)
Lemma product_error p p' b b' d1 d2 M :
  0 <= b <= 1 → 0 <= p' <= M → 0 <= d1 → 0 <= d2 →
  p' - d1 <= p <= p' + d1 → b' - d2 <= b <= b' + d2 →
  p' * b' - (d1 + M * d2) <= p * b <= p' * b' + (d1 + M * d2).
Proof.
  intros Hb Hp' Hd1 Hd2 Hp Hbb.
  assert (p' * b - d1 <= p * b) by nra.
  assert (p * b <= p' * b + d1) by nra.
  assert (p' * b' - M * d2 <= p' * b) by nra.
  assert (p' * b <= p' * b' + M * d2) by nra.
  lra.
Qed.

(** One of the four terms of bilinear: a value of at most 255 times two
    computed weights. *)
Lemma term_error c a a' b b' :
  0 <= c <= 255 # 1 → 0 <= a <= 1 → 0 <= a' <= 1 → 0 <= b <= 1 → 0 <= b' <= 1 →
  a' - float64.pow2 (-36) <= a <= a' + float64.pow2 (-36) →
  b' - float64.pow2 (-36) <= b <= b' + float64.pow2 (-36) →
  0 <= float64.mul (float64.mul c a) b ∧
  c * a' * b' - 512 * float64.pow2 (-36)
    <= float64.mul (float64.mul c a) b
    <= c * a' * b' + 512 * float64.pow2 (-36).
Proof.
  intros Hc Ha Ha' Hb Hb' Haa Hbb. destruct pow2_36_small as [HE0 HE1].
  set (E := float64.pow2 (-36)) in *. unfold float64.mul.
  assert (0 <= c * a <= 255 # 1) as Hca by nra.
  assert (0 <= c * a' <= 255 # 1) as Hca' by nra.
  pose proof (product_error c c a a' 0 E (255 # 1)
                ltac:(done) ltac:(lra) ltac:(lra) ltac:(lra) ltac:(lra) Haa) as H1.
  pose proof (round_nonneg (c * a) ltac:(lra)) as Hp0.
  pose proof (round_near (c * a) ltac:(lra)) as Hp1. fold E in Hp1.
  set (p := float64.round (c * a)) in *.
  pose proof (product_error p (c * a') b b' (256 * E) E (255 # 1)
                ltac:(done) ltac:(done) ltac:(lra) ltac:(lra) ltac:(lra) Hbb) as H2.
  assert (0 <= p * b <= 256 # 1) as Hpb by nra.
  pose proof (round_nonneg (p * b) ltac:(lra)) as Ht0.
  pose proof (round_near (p * b) ltac:(lra)) as Ht1. fold E in Ht1.
  split; [done|]. lra.
Qed.

(** The blend of four channels between [lo] and [hi] is at most one
    rounding error away from a number between [lo] and [hi]. *)
Lemma bilinear4_bounds c00 c10 c01 c11 xFrac yFrac lo hi :
  (0 ≤ lo)%Z → (hi ≤ 255)%Z →
  (lo ≤ c00 ≤ hi)%Z → (lo ≤ c10 ≤ hi)%Z → (lo ≤ c01 ≤ hi)%Z → (lo ≤ c11 ≤ hi)%Z →
  0 <= xFrac <= 1 → 0 <= yFrac <= 1 →
  (lo - 1 ≤ audiodna.uint8_of_float
              (audiodna.bilinear (float64.of_int c00) (float64.of_int c10)
                              (float64.of_int c01) (float64.of_int c11) xFrac yFrac)
          ≤ hi)%Z.
Proof.
  intros Hlo Hhi H00 H10 H01 H11 Hx Hy. destruct pow2_36_small as [HE0 HE1].
  rewrite !of_int_exact by lia. unfold audiodna.bilinear.
  set (E := float64.pow2 (-36)) in *.
  assert (∀ v, (lo ≤ v ≤ hi)%Z →
               inject_Z lo <= inject_Z v <= inject_Z hi ∧ 0 <= inject_Z v <= 255 # 1) as Hinj.
  { intros v Hv. change 0 with (inject_Z 0). change (255 # 1) with (inject_Z 255).
    rewrite <- !Zle_Qle. lia. }
  destruct (Hinj _ H00) as [L00 B00]. destruct (Hinj _ H10) as [L10 B10].
  destruct (Hinj _ H01) as [L01 B01]. destruct (Hinj _ H11) as [L11 B11].
  pose proof (round_unit (1 - xFrac) ltac:(lra)) as Hu.
  pose proof (round_near (1 - xFrac) ltac:(lra)) as Hu'. fold E in Hu'.
  pose proof (round_unit (1 - yFrac) ltac:(lra)) as Hv.
  pose proof (round_near (1 - yFrac) ltac:(lra)) as Hv'. fold E in Hv'.
  unfold float64.sub.
  set (u := float64.round (1 - xFrac)) in *. set (v := float64.round (1 - yFrac)) in *.
  destruct (term_error (inject_Z c00) u (1 - xFrac) v (1 - yFrac)) as [T1 T1'];
    try done; try lra.
  destruct (term_error (inject_Z c10) xFrac xFrac v (1 - yFrac)) as [T2 T2'];
    try done; try lra.
  destruct (term_error (inject_Z c01) u (1 - xFrac) yFrac yFrac) as [T3 T3'];
    try done; try lra.
  destruct (term_error (inject_Z c11) xFrac xFrac yFrac yFrac) as [T4 T4'];
    try done; try lra.
  fold E in T1', T2', T3', T4'.
  set (t1 := float64.mul (float64.mul (inject_Z c00) u) v) in *.
  set (t2 := float64.mul (float64.mul (inject_Z c10) xFrac) v) in *.
  set (t3 := float64.mul (float64.mul (inject_Z c01) u) yFrac) in *.
  set (t4 := float64.mul (float64.mul (inject_Z c11) xFrac) yFrac) in *.
  set (w1 := (1 - xFrac) * (1 - yFrac)). set (w2 := xFrac * (1 - yFrac)).
  set (w3 := (1 - xFrac) * yFrac). set (w4 := xFrac * yFrac).
  assert (0 <= w1 ∧ 0 <= w2 ∧ 0 <= w3 ∧ 0 <= w4) as (W1 & W2 & W3 & W4)
    by (unfold w1, w2, w3, w4; repeat split; apply Qmult_le_0_compat; lra).
  assert (w1 + w2 + w3 + w4 == 1) as Wsum by (unfold w1, w2, w3, w4; ring).
  assert (inject_Z c00 * (1 - xFrac) * (1 - yFrac) == inject_Z c00 * w1) as E1
    by (unfold w1; ring).
  assert (inject_Z c10 * xFrac * (1 - yFrac) == inject_Z c10 * w2) as E2
    by (unfold w2; ring).
  assert (inject_Z c01 * (1 - xFrac) * yFrac == inject_Z c01 * w3) as E3
    by (unfold w3; ring).
  assert (inject_Z c11 * xFrac * yFrac == inject_Z c11 * w4) as E4 by (unfold w4; ring).
  set (T := inject_Z c00 * w1 + inject_Z c10 * w2 + inject_Z c01 * w3 + inject_Z c11 * w4).
  assert (inject_Z lo <= T <= inject_Z hi) as HT.
  { unfold T.
    pose proof (Qmul_between _ _ _ w1 L00 W1).
    pose proof (Qmul_between _ _ _ w2 L10 W2).
    pose proof (Qmul_between _ _ _ w3 L01 W3).
    pose proof (Qmul_between _ _ _ w4 L11 W4).
    assert (inject_Z lo * (w1 + w2 + w3 + w4) == inject_Z lo) by (rewrite Wsum; ring).
    assert (inject_Z hi * (w1 + w2 + w3 + w4) == inject_Z hi) by (rewrite Wsum; ring).
    lra. }
  assert (inject_Z hi <= 255 # 1) as Hhi'
    by (change (255 # 1) with (inject_Z 255); rewrite <- Zle_Qle; lia).
  assert (0 <= inject_Z lo) as Hlo'
    by (change 0 with (inject_Z 0); rewrite <- Zle_Qle; lia).
  assert (w1 <= 1 ∧ w2 <= 1 ∧ w3 <= 1 ∧ w4 <= 1) as (W1' & W2' & W3' & W4')
    by (repeat split; lra).
  pose proof (Qmul_unit _ w1 (proj1 B00) (conj W1 W1')) as P1.
  pose proof (Qmul_unit _ w2 (proj1 B10) (conj W2 W2')) as P2.
  pose proof (Qmul_unit _ w3 (proj1 B01) (conj W3 W3')) as P3.
  pose proof (Qmul_unit _ w4 (proj1 B11) (conj W4 W4')) as P4.
  unfold float64.add.
  pose proof (round_nonneg (t1 + t2) ltac:(lra)) as S1.
  pose proof (round_near (t1 + t2) ltac:(lra)) as S1'. fold E in S1'.
  set (s1 := float64.round (t1 + t2)) in *.
  pose proof (round_nonneg (s1 + t3) ltac:(lra)) as S2.
  pose proof (round_near (s1 + t3) ltac:(lra)) as S2'. fold E in S2'.
  set (s2 := float64.round (s1 + t3)) in *.
  pose proof (round_nonneg (s2 + t4) ltac:(lra)) as S3.
  pose proof (round_near (s2 + t4) ltac:(lra)) as S3'. fold E in S3'.
  set (r := float64.round (s2 + t4)) in *.
  destruct (floor_between r lo hi) as (Hf0 & Hf1 & Hf2);
    [unfold T in HT; lra | unfold T in HT; lra | done |].
  rewrite uint8_of_float_small by (done || lia). lia.
Qed.

End Blend4.

(** The source coordinate [x * (W / T)]: its whole part is a coordinate of
    the source, its fraction a number from 0 to 1. *)
Lemma ratio_coordinate x W T :
  0 ≤ x < T → 1 ≤ W ≤ 2 ^ 26 → T ≤ 2 ^ 26 →
  let s := float64.mul (float64.of_int x)
                       (float64.div (float64.of_int W) (float64.of_int T)) in
  let x0 := wrap_int (float64.trunc s) in
  0 ≤ x0 < W ∧ (0 <= float64.sub s (float64.of_int x0) <= 1)%Q.
Proof.
  intros Hx HW HT. cbv zeta.
  rewrite !of_int_exact by lia. unfold float64.div, float64.mul.
  assert (0 < inject_Z T)%Q as HT0 by (change 0%Q with (inject_Z 0); rewrite <- Zlt_Qlt; lia).
  assert (inject_Z T <= 67108864 # 1)%Q as HT1
    by (change (67108864 # 1) with (inject_Z (2 ^ 26)); rewrite <- Zle_Qle; lia).
  assert (1 <= inject_Z W)%Q as HW1
    by (change 1%Q with (inject_Z 1); rewrite <- Zle_Qle; lia).
  assert (0 <= inject_Z x <= inject_Z T - 1)%Q as Hx1.
  { change 0%Q with (inject_Z 0). change 1%Q with (inject_Z 1).
    unfold Qminus. rewrite <- inject_Z_opp, <- inject_Z_plus, <- !Zle_Qle. lia. }
  set (q := (inject_Z W / inject_Z T)%Q).
  assert (q * inject_Z T == inject_Z W)%Q as Hq by (unfold q; field; lra).
  assert (0 <= q)%Q as Hq0.
  { apply Qle_shift_div_l; [done|]. lra. }
  pose proof (round_nonneg q Hq0) as Hr0.
  pose proof (round_relative q Hq0) as [_ Hr1].
  set (r := float64.round q) in *.
  set (U := float64.pow2 (-53)) in *.
  assert (0 < U ∧ U <= 1 # 134217728)%Q as [HU0 HU1].
  { split; [apply pow2_pos|]. unfold U, Qle. simpl. lia. }
  assert (0 <= inject_Z x * r)%Q as Hp0 by nra.
  assert (inject_Z x * r <= inject_Z (W * 2 ^ 27 - 1) * float64.pow2 (-27))%Q as Hp1.
  { assert (inject_Z (W * 2 ^ 27 - 1) * float64.pow2 (-27)
            == inject_Z W - (1 # 134217728))%Q as ->.
    { unfold Z.sub. rewrite inject_Z_plus, inject_Z_mult.
      change (float64.pow2 (-27)) with (1 # 134217728)%Q.
      change (inject_Z (2 ^ 27)) with (134217728 # 1)%Q.
      change (inject_Z (- (1))) with (- (1))%Q. field. }
    assert (inject_Z x * r <= (inject_Z T - 1) * (q + q * U))%Q as H1 by nra.
    assert ((inject_Z T - 1) * (q + q * U)
            == inject_Z W - q + inject_Z W * U - q * U)%Q as H2.
    { rewrite <- Hq. ring. }
    assert (inject_Z W <= q * (67108864 # 1))%Q as H3 by nra.
    assert (inject_Z W * U <= inject_Z W * (1 # 134217728))%Q as H4 by nra.
    assert (0 <= q * U)%Q as H5 by nra.
    lra. }
  pose proof (round_nonneg _ Hp0) as Hs0.
  pose proof (round_le_repr _ (W * 2 ^ 27 - 1) (-27) ltac:(lia) Hp1) as Hs1.
  set (s := float64.round (inject_Z x * r)) in *.
  assert (s < inject_Z W)%Q as Hs2.
  { eapply Qle_lt_trans; [exact Hs1|].
    assert (inject_Z W == inject_Z (W * 2 ^ 27) * float64.pow2 (-27))%Q as ->.
    { rewrite inject_Z_mult, <- Qmult_assoc, (Qmult_comm (inject_Z (2 ^ 27))).
      rewrite (pow2_inv 27) by lia. by rewrite Qmult_1_r. }
    apply Qmult_lt_compat_r; [apply pow2_pos|]. rewrite <- Zlt_Qlt. lia. }
  rewrite trunc_floor by done.
  pose proof (Qfloor_le s) as Hf. pose proof (Qlt_floor s) as Hf'.
  assert (0 ≤ Qfloor s) as Hf0 by (change 0 with (Qfloor 0); by apply Qfloor_resp_le).
  assert (Qfloor s < W) as Hf1.
  { rewrite Zlt_Qlt. by eapply Qle_lt_trans. }
  rewrite wrap_int_small by (unfold min_int, max_int; lia).
  split; [lia|].
  rewrite of_int_exact by lia. unfold float64.sub. apply round_unit.
  rewrite inject_Z_plus in Hf'. change (inject_Z 1) with 1%Q in Hf'. lra.
Qed.

Section AudioScaled.

Context (src : image.RGBA) (W H newWidth newHeight : Z).
Hypothesis src_bounds :
  image.Bounds src = image.mkRectangle (image.Pt 0 0) (image.Pt W H).
Hypothesis W_side : 1 ≤ W ≤ 2 ^ 26.
Hypothesis H_side : 1 ≤ H ≤ 2 ^ 26.
Hypothesis newWidth_side : newWidth ≤ 2 ^ 26.
Hypothesis newHeight_side : newHeight ≤ 2 ^ 26.

(** The pixel at [(x, y)] blends four pixels of the source, with fractions
    from 0 to 1. *)
Lemma audio_resizePixel_samples x y :
  0 ≤ x < newWidth → 0 ≤ y < newHeight →
  ∃ x0 x1 y0 y1 xFrac yFrac,
    0 ≤ x0 < W ∧ 0 ≤ x1 < W ∧ 0 ≤ y0 < H ∧ 0 ≤ y1 < H ∧
    (0 <= xFrac <= 1)%Q ∧ (0 <= yFrac <= 1)%Q ∧
    audiodna.resizePixel src W H
      (float64.div (float64.of_int W) (float64.of_int newWidth))
      (float64.div (float64.of_int H) (float64.of_int newHeight)) x y =
      let c00 := image.At src x0 y0 in
      let c10 := image.At src x1 y0 in
      let c01 := image.At src x0 y1 in
      let c11 := image.At src x1 y1 in
      let blend (ch : RGBA → Z) :=
        audiodna.uint8_of_float
          (audiodna.bilinear (float64.of_int (ch c00)) (float64.of_int (ch c10))
                          (float64.of_int (ch c01)) (float64.of_int (ch c11))
                          xFrac yFrac) in
      mkRGBA (blend color.R) (blend color.G) (blend color.B) (blend color.A).
Proof using All.
  intros Hx Hy. unfold audiodna.resizePixel.
  destruct (ratio_coordinate x W newWidth Hx W_side newWidth_side) as [Hx0 HxF].
  destruct (ratio_coordinate y H newHeight Hy H_side newHeight_side) as [Hy0 HyF].
  cbv zeta in Hx0, HxF, Hy0, HyF.
  set (srcX := float64.mul (float64.of_int x) _) in *.
  set (srcY := float64.mul (float64.of_int y) _) in *.
  set (x0 := wrap_int (float64.trunc srcX)) in *.
  set (y0 := wrap_int (float64.trunc srcY)) in *.
  rewrite (int_add_small x0 1), (int_add_small y0 1) by (unfold min_int, max_int; lia).
  rewrite (int_sub_small W 1), (int_sub_small H 1) by (unfold min_int, max_int; lia).
  set (x1 := if x0 + 1 >=? W then W - 1 else x0 + 1).
  set (y1 := if y0 + 1 >=? H then H - 1 else y0 + 1).
  assert (0 ≤ x1 < W) as Hx1 by (unfold x1; destruct (Z.geb_spec (x0 + 1) W); lia).
  assert (0 ≤ y1 < H) as Hy1 by (unfold y1; destruct (Z.geb_spec (y0 + 1) H); lia).
  exists x0, x1, y0, y1, (float64.sub srcX (float64.of_int x0)),
         (float64.sub srcY (float64.of_int y0)).
  do 6 (split; [done|]). reflexivity.
Qed.

End AudioScaled.

(** X26: The audio part's resizeImage may darken a picture by one step: for a
    source at the origin and a target of 1 to 2^26 pixels each way, every
    pixel of the result has, in each of R, G, B and alpha, a value of at most
    the largest value of that channel in the source and at least the smallest
    one less one.  The step is lost where the roundings of the float64 blend
    end just below a whole number, which the conversion to uint8 cuts off: a
    white, opaque column of three pixels resized to seven has a pixel
    (254, 254, 254, 254). *)
Theorem audio_resizeImage_loses_a_step (src : image.RGBA) newWidth newHeight :
  well_formed src →
  image.Min (image.Bounds src) = image.Pt 0 0 →
  1 ≤ image_width src ≤ exact_side → 1 ≤ image_height src ≤ exact_side →
  1 ≤ newWidth ≤ exact_side → 1 ≤ newHeight ≤ exact_side →
  4 * newWidth * newHeight ≤ maxAlloc →
  (∃ dst,
     audiodna.resizeImage src newWidth newHeight = Ok dst ∧
     image.Bounds dst = image.Rect 0 0 newWidth newHeight ∧
     ∀ x y ch lo hi,
       0 ≤ x < newWidth → 0 ≤ y < newHeight →
       ch ∈ [color.R; color.G; color.B; color.A] →
       (∀ px py, image.In px py (image.Bounds src) = true →
                 lo ≤ ch (image.At src px py) ≤ hi) →
       lo - 1 ≤ ch (image.At dst x y) ≤ hi) ∧
  (∃ dst,
     audiodna.resizeImage white_column 1 7 = Ok dst ∧
     image.At dst 0 1 = mkRGBA 254 254 254 254).
Proof.
  intros Hwf Hmin HW HH HnW HnH Hfit. split.
  2: { eexists. split; [vm_compute; reflexivity|]. vm_compute. reflexivity. }
  pose proof Hwf as [H1 H2 H3 H4 H5 H6 H7 H8].
  unfold image_width, image_height, exact_side in *.
  rewrite Hmin in *. cbn [image.X image.Y] in *. rewrite !Z.sub_0_r in *.
  set (W := image.X (image.Max (image.Bounds src))) in *.
  set (H := image.Y (image.Max (image.Bounds src))) in *.
  assert (image.Bounds src = image.mkRectangle (image.Pt 0 0) (image.Pt W H)) as Hb.
  { unfold W, H. destruct (image.Bounds src) as [mn [c d]]. simpl in Hmin. by subst mn. }
  unfold audiodna.resizeImage. cbv zeta.
  rewrite (src_Dx src 0 0 W H), (src_Dy src 0 0 W H) by (done || lia).
  rewrite NewRGBA_Rect0 by (unfold maxAlloc in *; lia). cbn [mbind res_bind].
  destruct (fill_loops
              (audiodna.resizePixel src W H
                 (float64.div (float64.of_int W) (float64.of_int newWidth))
                 (float64.div (float64.of_int H) (float64.of_int newHeight)))
              newWidth newHeight
              (image.mkImage (image.Rect 0 0 newWidth newHeight) ∅))
    as (dst & Hdst & Hbd & Hpix); [lia | lia | done |].
  exists dst. split; [done|]. split; [done|].
  intros x y ch lo hi Hx Hy Hch Hrange. rewrite Hpix by done.
  destruct (audio_resizePixel_samples src W H newWidth newHeight Hb) with (x := x) (y := y)
    as (x0 & x1 & y0 & y1 & xFrac & yFrac & Hx0 & Hx1 & Hy0 & Hy1 & HxF & HyF & ->);
    try lia.
  cbv zeta.
  assert (∀ a b, 0 ≤ a < W → 0 ≤ b < H →
                 Z.max lo 0 ≤ ch (image.At src a b) ≤ Z.min hi 255) as Hs.
  { intros a b Ha Hb'.
    assert (image.In a b (image.Bounds src) = true) as Hin.
    { rewrite Hb. unfold image.In. cbn [image.X image.Y image.Min image.Max].
      repeat (apply andb_true_intro; split); (apply Z.leb_le || apply Z.ltb_lt); lia. }
    pose proof (Hrange _ _ Hin) as Hr.
    destruct (At_channels_8bit src a b Hwf) as (Hr8 & Hg8 & Hb8 & Ha8).
    repeat (apply elem_of_cons in Hch as [->|Hch]); [lia | lia | lia | lia |].
    by apply elem_of_nil in Hch. }
  pose proof (bilinear4_bounds _ _ _ _ xFrac yFrac (Z.max lo 0) (Z.min hi 255)
                ltac:(lia) ltac:(lia)
                (Hs x0 y0 Hx0 Hy0) (Hs x1 y0 Hx1 Hy0) (Hs x0 y1 Hx0 Hy1) (Hs x1 y1 Hx1 Hy1)
                HxF HyF) as Hc.
  repeat (apply elem_of_cons in Hch as [->|Hch]);
    [cbn [color.R]; lia | cbn [color.G]; lia | cbn [color.B]; lia | cbn [color.A]; lia |].
  by apply elem_of_nil in Hch.
Qed.

Lemma white_column_well_formed : well_formed white_column.
Proof.
  constructor; try (vm_compute; discriminate).
  unfold white_column. cbn [image.Pix].
  repeat (apply map_Forall_insert_2; [repeat split; simpl; lia|]).
  apply map_Forall_empty.
Qed.

Lemma audio_resizeImage_loses_a_step_witness :
  (∃ dst,
     audiodna.resizeImage white_column 1 7 = Ok dst ∧
     image.Bounds dst = image.Rect 0 0 1 7 ∧
     ∀ x y ch lo hi,
       0 ≤ x < 1 → 0 ≤ y < 7 →
       ch ∈ [color.R; color.G; color.B; color.A] →
       (∀ px py, image.In px py (image.Bounds white_column) = true →
                 lo ≤ ch (image.At white_column px py) ≤ hi) →
       lo - 1 ≤ ch (image.At dst x y) ≤ hi) ∧
  (∃ dst,
     audiodna.resizeImage white_column 1 7 = Ok dst ∧
     image.At dst 0 1 = mkRGBA 254 254 254 254).
Proof.
  apply (audio_resizeImage_loses_a_step white_column 1 7).
  - apply white_column_well_formed.
  - reflexivity.
  - split; vm_compute; discriminate.
  - split; vm_compute; discriminate.
  - split; vm_compute; discriminate.
  - split; vm_compute; discriminate.
  - vm_compute. discriminate.
Defined.

(** ** NormalizeVolume: the loudest segment ends next to 1 *)

Section Normalize.
Local Open Scope Q_scope.


End Normalize.



(** ** A mode that is not known *)

Section UnknownMode.

Context (order : gmap Z Z → list (Z * Z)) (mode : string).
Hypothesis not_average : mode ≠ "average"%string.
Hypothesis not_min : mode ≠ "min"%string.
Hypothesis not_max : mode ≠ "max"%string.

Lemma switch_mode_row_default row width :
  switch_mode_row order mode row width = switch_mode_row order "common" row width.
Proof using All.
  unfold switch_mode_row. repeat case_decide; done.
Qed.

Lemma switch_mode_col_default frameBuf x width height :
  switch_mode_col order mode frameBuf x width height
  = switch_mode_col order "common" frameBuf x width height.
Proof using All.
  unfold switch_mode_col. repeat case_decide; done.
Qed.

Lemma process_frame_default vertical width height frameBuf frameIdx dnaImage :
  process_frame order mode vertical width height frameBuf frameIdx dnaImage
  = process_frame order "common" vertical width height frameBuf frameIdx dnaImage.
Proof using All.
  unfold process_frame. destruct vertical; apply for_loop_ext; intros k t Hk.
  - by rewrite switch_mode_col_default.
  - destruct (slice _ _ _) as [row| | |]; simpl; try done.
    by rewrite switch_mode_row_default.
Qed.

Lemma frame_loop_default fuel vertical width height frameSize ending :
  ∀ stream dnaImage frameIdx,
    frame_loop order fuel mode vertical width height frameSize ending stream dnaImage frameIdx
    = frame_loop order fuel "common" vertical width height frameSize ending
                 stream dnaImage frameIdx.
Proof using All.
  induction fuel as [|fuel IH]; intros stream dnaImage frameIdx; [done|].
  cbn [frame_loop]. destruct (ReadFull stream ending frameSize); try done.
  rewrite process_frame_default.
  destruct (process_frame _ _ _ _ _ _ _ _) as [img| | |]; simpl; auto.
Qed.

Lemma finalImage_default env vertical fuel :
  finalImage order env mode vertical fuel = finalImage order env "common" vertical fuel.
Proof using All.
  unfold finalImage. destruct (info env) as [[[width height] frameCount]|]; [|done].
  destruct ((frameCount =? 0) || (height =? 0)); [done|].
  destruct (negb (pipe_ok env)); [done|]. destruct (negb (start_ok env)); [done|].
  cbv zeta. destruct (if vertical then _ else _) as [dnaImage| | |]; simpl; try done.
  destruct (make_bytes _) as [[]| | |]; simpl; try done.
  by rewrite frame_loop_default.
Qed.

End UnknownMode.

(** X28: A mode that is none of "average", "min" and "max" is not refused: both
    Generate and GenerateWithLegend run it as "common", whatever it is (the
    empty string and "Average" included); only the command line checks the
    name of the mode. *)
Theorem unknown_mode_runs_common order addLegend env base_name mode vertical resize
    legend fuel :
  mode ≠ "average"%string → mode ≠ "min"%string → mode ≠ "max"%string →
  Generate order env mode vertical resize fuel
  = Generate order env "common" vertical resize fuel ∧
  GenerateWithLegend order addLegend env base_name mode vertical resize legend fuel
  = GenerateWithLegend order addLegend env base_name "common" vertical resize legend fuel.
Proof.
  intros Ha Hmin Hmax. unfold Generate, GenerateWithLegend.
  by rewrite (finalImage_default order mode Ha Hmin Hmax).
Qed.

Lemma unknown_mode_runs_common_witness :
  Generate map_to_list (env_of 2 2 1 (bytes_of [0; 0; 0; 255; 255; 255; 10; 20; 30; 20; 10; 0]))
           "Average" false ResizeNone 2
  = Generate map_to_list
             (env_of 2 2 1 (bytes_of [0; 0; 0; 255; 255; 255; 10; 20; 30; 20; 10; 0]))
             "common" false ResizeNone 2 ∧
  GenerateWithLegend map_to_list (λ img _ _, img)
    (env_of 2 2 1 (bytes_of [0; 0; 0; 255; 255; 255; 10; 20; 30; 20; 10; 0]))
    "clip" "Average" false ResizeNone (mkLegendConfig false 0 EmptyString) 2
  = GenerateWithLegend map_to_list (λ img _ _, img)
      (env_of 2 2 1 (bytes_of [0; 0; 0; 255; 255; 255; 10; 20; 30; 20; 10; 0]))
      "clip" "common" false ResizeNone (mkLegendConfig false 0 EmptyString) 2.
Proof.
  apply (unknown_mode_runs_common map_to_list (λ img _ _, img)
           (env_of 2 2 1 (bytes_of [0; 0; 0; 255; 255; 255; 10; 20; 30; 20; 10; 0]))
           "clip" "Average" false ResizeNone (mkLegendConfig false 0 EmptyString) 2);
    discriminate.
Defined.
